(** * The region structurer of the decompiler (angr/analyses/decompiler/structurer.py)

    A shallow embedding of the parts of [Structurer] that decide how
    reaching conditions, edge conditions, loop bodies, breaks and loop
    shapes are computed, with the properties proved about them.

    The condition algebra (claripy), the native expression model
    (ailment) and the graph library are collaborators of the structurer:
    the algebra is an interface ([claripy.Algebra]), and a free term
    model of it ([TermAlgebra]) is used to run the embedding on concrete
    regions. *)

From stdpp Require Import base list strings pretty gmap.
From Stdlib Require Import ZArith Lia.

Set Warnings "-register-all,-clear-no-such-hyp".
Local Open Scope Z_scope.

(** ** Exceptions and results *)

(** The exceptions the structurer raises or lets through. *)
Inductive exn : Type :=
| EmptyBlockNotice
| NotImplementedError
| IndexError
| KeyError
| TypeError
| AttributeError
| AssertionError
| NetworkXError
| Exception_.

(** A Python call either returns or raises. *)
Inductive result (A : Type) : Type :=
| Ok (a : A)
| Raise (e : exn).
Arguments Ok {A} a.
Arguments Raise {A} e.

#[global] Instance result_ret : MRet result := fun _ a => Ok a.
#[global] Instance result_bind : MBind result := fun _ _ f m =>
  match m with
  | Ok a => f a
  | Raise e => Raise e
  end.

Definition returns {A} (r : result A) : Prop := exists a, r = Ok a.

(** ** claripy: the condition algebra *)

Module claripy.

(** What the structurer reads off an AST: the operator of a boolean
    connective and its arguments.  claripy keeps at least two arguments
    under [And] and [Or]; [rest] holds the arguments from the third on. *)
Inductive view (A : Type) : Type :=
| VOr (arg0 arg1 : A) (rest : list A)
| VAnd (arg0 arg1 : A) (rest : list A)
| VOther.
Arguments VOr {A}.
Arguments VAnd {A}.
Arguments VOther {A}.

Class Algebra (AST : Type) : Type := {
  AST_eq_dec : EqDecision AST;
  (* claripy.true *)
  true : AST;
  (* claripy.And(a, b), claripy.Or(a, b), claripy.Not(a) *)
  And : AST -> AST -> AST;
  Or : AST -> AST -> AST;
  Not : AST -> AST;
  (* claripy.Or(a, *rest) *)
  Or_star : AST -> list AST -> AST;
  (* a == b, a <= b, a < b, a + b, a - b, a ^ b, a & b, claripy.LShR(a, n) *)
  eq_ : AST -> AST -> AST;
  le_ : AST -> AST -> AST;
  lt_ : AST -> AST -> AST;
  add_ : AST -> AST -> AST;
  sub_ : AST -> AST -> AST;
  xor_ : AST -> AST -> AST;
  and_ : AST -> AST -> AST;
  LShR : AST -> Z -> AST;
  (* claripy.BVS(name, bits, explicit_name=True) *)
  BVS : string -> Z -> AST;
  (* claripy.BVS(name, bits): the name is made unique with a counter *)
  BVS_unique : string -> Z -> nat -> AST;
  (* claripy.BVV(value, bits) *)
  BVV : Z -> Z -> AST;
  (* claripy.BoolS(name, explicit_name=True) *)
  BoolS : string -> AST;
  (* claripy.BoolV(x), as called on a name in the Tmp case *)
  BoolV : string -> AST;
  (* claripy.simplify(a), a.symbolic, claripy.is_true(a) *)
  simplify : AST -> AST;
  symbolic : AST -> bool;
  is_true : AST -> bool;
  (* a.op and a.args for the connectives *)
  view_of : AST -> view AST;
  (* a.variables == b.variables *)
  same_variables : AST -> AST -> bool;
  (* s = SolverCacheless(); s.add(a == b); s.satisfiable() *)
  eq_satisfiable : AST -> AST -> bool;
  (* repr(a) *)
  repr : AST -> string;
}.

End claripy.

#[global] Existing Instance claripy.AST_eq_dec.

(** ** A term model of the algebra *)

(** Free terms for the operations of [claripy.Algebra], used to run the
    structurer on concrete regions.  [simplify] folds the constants of
    the connectives; the solver is decided for the one shape the
    structurer asks about, a term against its own negation. *)
Module TermAlgebra.

Inductive term : Type :=
| TTrue
| TFalse
| TBoolS (name : string)
| TBoolV (name : string)
| TBVS (name : string) (bits : Z)
| TBVSu (name : string) (bits : Z) (n : nat)
| TBVV (value bits : Z)
| TNot (a : term)
| TAnd (a b : term)
| TOr (a b : term)
| TBin (op : string) (a b : term)
| TLShR (a : term) (n : Z).

#[global] Instance term_eq_dec : EqDecision term.
Proof. solve_decision. Defined.

Fixpoint simplify (t : term) : term :=
  match t with
  | TNot a =>
      match simplify a with
      | TTrue => TFalse
      | TFalse => TTrue
      | a' => TNot a'
      end
  | TAnd a b =>
      match simplify a, simplify b with
      | TFalse, _ | _, TFalse => TFalse
      | TTrue, b' => b'
      | a', TTrue => a'
      | a', b' => TAnd a' b'
      end
  | TOr a b =>
      match simplify a, simplify b with
      | TTrue, _ | _, TTrue => TTrue
      | TFalse, b' => b'
      | a', TFalse => a'
      | a', b' => TOr a' b'
      end
  | _ => t
  end.

Fixpoint variables (t : term) : list string :=
  match t with
  | TBoolS n | TBVS n _ | TBVSu n _ _ => [n]
  | TNot a | TLShR a _ => variables a
  | TAnd a b | TOr a b | TBin _ a b => variables a ++ variables b
  | _ => []
  end.

Definition symbolic (t : term) : bool :=
  match variables t with
  | [] => false
  | _ :: _ => true
  end.

Definition sublist_of (l1 l2 : list string) : bool :=
  forallb (fun x => existsb (String.eqb x) l2) l1.

Definition same_variables (a b : term) : bool :=
  sublist_of (variables a) (variables b) &&
  sublist_of (variables b) (variables a).

Definition eq_satisfiable (a b : term) : bool :=
  negb (bool_decide (a = TNot b) || bool_decide (b = TNot a)).

Definition view_of (t : term) : claripy.view term :=
  match t with
  | TOr a b => claripy.VOr a b []
  | TAnd a b => claripy.VAnd a b []
  | _ => claripy.VOther
  end.

Fixpoint repr (t : term) : string :=
  match t with
  | TTrue => "True"
  | TFalse => "False"
  | TBoolS n | TBoolV n => n
  | TBVS n _ => n
  | TBVSu n _ k => n +:+ "_" +:+ pretty k
  | TBVV v _ => pretty v
  | TNot a => "!" +:+ repr a
  | TAnd a b => "(" +:+ repr a +:+ " && " +:+ repr b +:+ ")"
  | TOr a b => "(" +:+ repr a +:+ " || " +:+ repr b +:+ ")"
  | TBin op a b => "(" +:+ repr a +:+ " " +:+ op +:+ " " +:+ repr b +:+ ")"
  | TLShR a n => "(" +:+ repr a +:+ " >> " +:+ pretty n +:+ ")"
  end.

Definition algebra : claripy.Algebra term := {|
  claripy.AST_eq_dec := term_eq_dec;
  claripy.true := TTrue;
  claripy.And := TAnd;
  claripy.Or := TOr;
  claripy.Not := TNot;
  claripy.Or_star := fun a rest => foldl TOr a rest;
  claripy.eq_ := TBin "==";
  claripy.le_ := TBin "<=";
  claripy.lt_ := TBin "<";
  claripy.add_ := TBin "+";
  claripy.sub_ := TBin "-";
  claripy.xor_ := TBin "^";
  claripy.and_ := TBin "&";
  claripy.LShR := TLShR;
  claripy.BVS := TBVS;
  claripy.BVS_unique := TBVSu;
  claripy.BVV := TBVV;
  claripy.BoolS := TBoolS;
  claripy.BoolV := TBoolV;
  claripy.simplify := simplify;
  claripy.symbolic := symbolic;
  claripy.is_true := fun t => bool_decide (simplify t = TTrue);
  claripy.view_of := view_of;
  claripy.same_variables := same_variables;
  claripy.eq_satisfiable := eq_satisfiable;
  claripy.repr := repr;
|}.

End TermAlgebra.

(** ** ailment: native expressions and statements *)

Module ailment.
Section Ailment.
Context {AST : Type}.

(** Modelled from the spec: the expression kinds of ailment the
    structurer tells apart (Const, Tmp, Register, Load, DirtyExpression,
    Convert, and the unary and binary operators), with the attributes it
    reads.  A condition slot of a node holds such an expression or,
    while a region is being structured, a claripy AST; Python does not
    type these slots, so [_negate_cond] can wrap a claripy AST in a
    [UnaryOp] as well, and [ClaripyAST] is that case. *)
Inductive Expr : Type :=
| Const (idx : option Z) (value : Z) (bits : Z)
| Tmp (idx : option Z) (tmp_idx : Z) (bits : Z)
| Register (idx : option Z) (reg_offset : Z) (bits : Z)
| Load (idx : option Z) (addr : Expr) (bits : Z)
| DirtyExpression (idx : option Z) (dirty : string) (bits : Z)
| Convert (idx : option Z) (from_bits to_bits : Z) (operand : Expr)
| UnaryOp (idx : option Z) (op : string) (operand : Expr)
| BinaryOp (idx : option Z) (op : string) (operand0 operand1 : Expr)
| ClaripyAST (a : AST).

(** [isinstance(cond, ailment.Expr.Expression)] *)
Definition is_Expression (e : Expr) : bool :=
  match e with
  | ClaripyAST _ => false
  | _ => true
  end.

(** Modelled from the spec: the statements of ailment, of which the
    structurer recognises Jump and ConditionalJump.  Jump targets are
    the concrete addresses the structurer
    reads with [target.value] (see the FIXME in [_extract_jump_targets]).
    [OtherStmt] stands for every statement kind the structurer does not
    recognise as a transfer (assignments, stores, calls, returns, VEX
    statements). *)
Inductive Stmt : Type :=
| Jump (idx : option Z) (target : Z) (ins_addr : Z)
| ConditionalJump (idx : option Z) (condition : Expr)
                  (true_target false_target : Z) (ins_addr : Z)
| OtherStmt (tag : string).

(** [repr(expr)], which names the algebra variable of a leaf *)
Class Repr : Type := repr : Expr -> string.

End Ailment.
End ailment.

Import ailment.

Section Structurer.
Context {AST : Type} {CA : claripy.Algebra AST} {AR : @ailment.Repr AST}.

#[local] Abbreviation Expr := (@ailment.Expr AST).
#[local] Abbreviation Stmt := (@ailment.Stmt AST).

(** ** Structurer._negate_cond *)

Definition _negate_cond (cond : Expr) : Expr :=
  match cond with
  | UnaryOp idx op operand =>
      if String.eqb op "Not" then operand else UnaryOp (Some 0) "Not" cond
  | _ => UnaryOp (Some 0) "Not" cond
  end.

(** [e] is a [Not] expression *)
Definition is_Not (e : Expr) : bool :=
  match e with
  | UnaryOp _ op _ => String.eqb op "Not"
  | _ => false
  end.

(** [e] has the form Not(Not(x)) *)
Definition is_Not_Not (e : Expr) : bool :=
  match e with
  | UnaryOp _ op x => String.eqb op "Not" && is_Not x
  | _ => false
  end.

(** Structural equality of expressions.  The [idx] of an expression is
    a tag given by whoever built it and is not part of its structure. *)
Fixpoint likes (e1 e2 : Expr) : bool :=
  match e1, e2 with
  | Const _ v1 b1, Const _ v2 b2 => (v1 =? v2) && (b1 =? b2)
  | Tmp _ t1 b1, Tmp _ t2 b2 => (t1 =? t2) && (b1 =? b2)
  | Register _ o1 b1, Register _ o2 b2 => (o1 =? o2) && (b1 =? b2)
  | Load _ a1 b1, Load _ a2 b2 => likes a1 a2 && (b1 =? b2)
  | DirtyExpression _ d1 b1, DirtyExpression _ d2 b2 =>
      String.eqb d1 d2 && (b1 =? b2)
  | Convert _ f1 t1 o1, Convert _ f2 t2 o2 =>
      (f1 =? f2) && (t1 =? t2) && likes o1 o2
  | UnaryOp _ op1 o1, UnaryOp _ op2 o2 => String.eqb op1 op2 && likes o1 o2
  | BinaryOp _ op1 x1 y1, BinaryOp _ op2 x2 y2 =>
      String.eqb op1 op2 && likes x1 x2 && likes y1 y2
  | ClaripyAST a1, ClaripyAST a2 => bool_decide (a1 = a2)
  | _, _ => false
  end.

(** ** Control nodes and region nodes *)

(** Modelled from the spec: the node kinds declared outside
    structurer.py, with the attributes the structurer reads.  [AilBlock]
    is [ailment.Block] (an address and a statement list); [VexBlock] is
    an angr [Block] or [BlockNode] (block.py), whose statements are VEX
    statements; [MultiNode] (an address and a list of blocks) and
    [GraphRegion] (an opaque nested region with an address) come from
    region_identifier.py.  The other constructors are the classes of
    structurer.py, field by field; the body of a [LoopNode] is the child
    list of its SequenceNode.  Together they are everything a region
    graph or a structured tree may hold. *)
Inductive Node : Type :=
| AilBlock (addr : Z) (statements : list Stmt)
| VexBlock (addr : Z) (vex_statements : list string)
| MultiNode (addr : Z) (nodes : list Node)
| GraphRegion (addr : Z)
| SequenceNode (nodes : list Node)
| CodeNode (node : Node) (reaching_condition : option Expr)
| ConditionNode (addr : Z) (reaching_condition : option Expr)
                (condition : Expr) (true_node : Node) (false_node : option Node)
| LoopNode (sort : string) (condition : option Expr)
           (sequence_node : list Node) (_addr : option Z)
| BreakNode (addr : Z) (target : Z)
| ConditionalBreakNode (addr : Z) (condition : Expr) (target : Z).

(** The [addr] attribute or property of a node ([None] as in Python). *)
Fixpoint addr_of (n : Node) : option Z :=
  match n with
  | AilBlock a _ | VexBlock a _ | MultiNode a _ | GraphRegion a => Some a
  | SequenceNode nodes =>
      match nodes with
      | n0 :: _ => addr_of n0
      | [] => None
      end
  | CodeNode node _ => addr_of node
  | ConditionNode a _ _ _ _ => Some a
  | LoopNode _ _ body a =>
      match a with
      | Some _ => a
      | None => match body with
                | n0 :: _ => addr_of n0
                | [] => None
                end
      end
  | BreakNode a _ | ConditionalBreakNode a _ _ => Some a
  end.

(** [x == n.addr] for a concrete address [x] *)
Definition addr_is (x : Z) (n : Node) : bool :=
  match addr_of n with
  | Some a => x =? a
  | None => false
  end.

(** ** Structurer._get_last_statement *)

(** The scan of a MultiNode: the blocks are tried from the last one
    backwards, an EmptyBlockNotice moves on to the block before.  [None]
    means that every block was empty. *)
Definition try_earlier (later : option (result (option Stmt)))
    (this : result (option Stmt)) : option (result (option Stmt)) :=
  match later with
  | Some r => Some r
  | None =>
      match this with
      | Raise EmptyBlockNotice => None
      | r => Some r
      end
  end.

Fixpoint _get_last_statement (block : Node) : result (option Stmt) :=
  let last_of :=
    fix last_of (l : list Node) : result (option Stmt) :=
      match l with
      | [] => Ok None
      | n :: l' =>
          match l' with
          | [] => _get_last_statement n
          | _ :: _ => last_of l'
          end
      end in
  match block with
  | SequenceNode nodes => last_of nodes
  | CodeNode node _ => _get_last_statement node
  | AilBlock _ statements =>
      match last statements with
      | None => Raise EmptyBlockNotice
      | Some s => Ok (Some s)
      end
  | VexBlock _ vex =>
      match last vex with
      | None => Raise IndexError
      | Some s => Ok (Some (OtherStmt s))
      end
  | MultiNode _ nodes =>
      let scan :=
        fix scan (l : list Node) : option (result (option Stmt)) :=
          match l with
          | [] => None
          | n :: l' => try_earlier (scan l') (_get_last_statement n)
          end in
      match scan nodes with
      | Some r => r
      | None => Ok None
      end
  | LoopNode _ _ body _ => last_of body
  | ConditionalBreakNode _ _ _ => Ok None
  | ConditionNode _ _ _ _ _ => Ok None
  | GraphRegion _ | BreakNode _ _ => Raise NotImplementedError
  end.

(** ** Structurer._remove_last_statement *)

(** The node is mutated in place in the source; here the updated node is
    returned with the removed statement. *)
Fixpoint _remove_last_statement (node : Node) : result (Node * option Stmt) :=
  let in_last :=
    fix in_last (l : list Node) : result (list Node * option Stmt) :=
      match l with
      | [] => Ok ([], None)
      | n :: l' =>
          match l' with
          | [] =>
              match _remove_last_statement n with
              | Ok (n', s) => Ok ([n'], s)
              | Raise e => Raise e
              end
          | _ :: _ =>
              match in_last l' with
              | Ok (l'', s) => Ok (n :: l'', s)
              | Raise e => Raise e
              end
          end
      end in
  match node with
  | CodeNode inner rc =>
      match _remove_last_statement inner with
      | Ok (inner', s) => Ok (CodeNode inner' rc, s)
      | Raise e => Raise e
      end
  | AilBlock a statements =>
      match last statements with
      | None => Raise IndexError
      | Some s => Ok (AilBlock a (removelast statements), Some s)
      end
  | MultiNode a nodes =>
      match in_last nodes with
      | Ok (nodes', s) => Ok (MultiNode a nodes', s)
      | Raise e => Raise e
      end
  | SequenceNode nodes =>
      match in_last nodes with
      | Ok (nodes', s) => Ok (SequenceNode nodes', s)
      | Raise e => Raise e
      end
  | _ => Raise NotImplementedError
  end.

(** ** Structurer._extract_jump_targets *)

Definition _extract_jump_targets (stmt : option Stmt) : list Z :=
  match stmt with
  | Some (Jump _ target _) => [target]
  | Some (ConditionalJump _ _ true_target false_target _) =>
      [true_target; false_target]
  | _ => []
  end.

(** ** The condition-variable mapping *)

(** [self._condition_mapping]: a dict from algebra variables to the
    native expressions they stand for, in insertion order. *)
Abbreviation ConditionMapping := (list (AST * Expr)).

(** [d[k] = v] on a dict keyed by ASTs *)
Fixpoint dict_set {V : Type} (k : AST) (v : V)
    (d : list (AST * V)) : list (AST * V) :=
  match d with
  | [] => [(k, v)]
  | (k', v') :: d' =>
      if decide (k = k') then (k', v) :: d' else (k', v') :: dict_set k v d'
  end.

(** [d.get(k)] *)
Fixpoint dict_get {V : Type} (k : AST) (d : list (AST * V))
    : option V :=
  match d with
  | [] => None
  | (k', v') :: d' => if decide (k = k') then Some v' else dict_get k d'
  end.

(** What translating a condition reads and writes: the mapping of the
    structurer, and the counter claripy uses to make the names of
    variables created without [explicit_name] unique. *)
Record TState : Type := mkTState {
  mapping : ConditionMapping;
  bvs_counter : nat;
}.

Definition remember (var : AST) (condition : Expr) (st : TState)
    : TState :=
  mkTState (dict_set var condition (mapping st)) (bvs_counter st).

(** ** Structurer._bool_variable_from_ail_condition *)

(** The operators of [_mapping] that take two translated operands. *)
Definition binary_lambda (op : string)
    : option (AST -> AST -> AST) :=
  if String.eqb op "LogicalAnd" then Some claripy.And
  else if String.eqb op "LogicalOr" then Some claripy.Or
  else if String.eqb op "CmpEQ" then Some claripy.eq_
  else if String.eqb op "CmpLE" then Some claripy.le_
  else if String.eqb op "CmpLT" then Some claripy.lt_
  else if String.eqb op "Add" then Some claripy.add_
  else if String.eqb op "Sub" then Some claripy.sub_
  else if String.eqb op "Xor" then Some claripy.xor_
  else if String.eqb op "And" then Some claripy.and_
  else None.

(** The keys of [_mapping]. *)
Definition in_mapping_keys (op : string) : bool :=
  match binary_lambda op with
  | Some _ => Datatypes.true
  | None => String.eqb op "Not" || String.eqb op "Shr"
  end.

(** A lambda of [_mapping] applied to an expression that lacks the
    attribute it reads ([operand], [operands], [value]) raises
    AttributeError; an operator outside [_mapping] raises
    NotImplementedError.  No operation of claripy returns
    [NotImplemented], so the branch of the source that tests for it is
    never taken and has no counterpart here. *)
Fixpoint _bool_variable_from_ail_condition (condition : Expr) (st : TState)
    : result (AST * TState) :=
  match condition with
  | Load _ _ bits | DirtyExpression _ _ bits =>
      let var := claripy.BVS ("ailexpr_" +:+ repr condition) bits in
      Ok (var, remember var condition st)
  | Register idx _ bits =>
      match idx with
      | None => Raise TypeError
      | Some i =>
          let var := claripy.BVS
                       ("ailexpr_" +:+ repr condition +:+ "-" +:+ pretty i)
                       bits in
          Ok (var, remember var condition st)
      end
  | Convert _ from_bits to_bits operand =>
      match _bool_variable_from_ail_condition operand st with
      | Raise e => Raise e
      | Ok (var_, st1) =>
          let var :=
            if to_bits =? 1 then
              claripy.BoolS ("ailcond_Conv(" +:+ pretty from_bits +:+ "->" +:+
                             pretty to_bits +:+ ", " +:+ claripy.repr var_ +:+ ")")
            else
              claripy.BVS ("ailexpr_Conv(" +:+ pretty from_bits +:+ "->" +:+
                           pretty to_bits +:+ ", " +:+ claripy.repr var_ +:+ ")")
                          to_bits in
          Ok (var, remember var condition st1)
      end
  | Const _ value bits => Ok (claripy.BVV value bits, st)
  | Tmp _ tmp_idx bits =>
      if bits =? 1 then
        let var := claripy.BoolV ("ailtmp_" +:+ pretty tmp_idx) in
        Ok (var, remember var condition st)
      else
        let var := claripy.BVS_unique ("ailtmp_" +:+ pretty tmp_idx) bits
                                      (bvs_counter st) in
        Ok (var, mkTState (dict_set var condition (mapping st))
                          (S (bvs_counter st)))
  | UnaryOp _ op operand =>
      if String.eqb op "Not" then
        match _bool_variable_from_ail_condition operand st with
        | Raise e => Raise e
        | Ok (v, st1) => Ok (claripy.Not v, st1)
        end
      else if in_mapping_keys op then Raise AttributeError
      else Raise NotImplementedError
  | BinaryOp _ op operand0 operand1 =>
      match binary_lambda op with
      | Some f =>
          match _bool_variable_from_ail_condition operand0 st with
          | Raise e => Raise e
          | Ok (v0, st1) =>
              match _bool_variable_from_ail_condition operand1 st1 with
              | Raise e => Raise e
              | Ok (v1, st2) => Ok (f v0 v1, st2)
              end
          end
      | None =>
          if String.eqb op "Shr" then
            match _bool_variable_from_ail_condition operand0 st with
            | Raise e => Raise e
            | Ok (v0, st1) =>
                match operand1 with
                | Const _ value _ => Ok (claripy.LShR v0 value, st1)
                | _ => Raise AttributeError
                end
            end
          else if String.eqb op "Not" then Raise AttributeError
          else Raise NotImplementedError
      end
  | ClaripyAST _ => Raise AttributeError
  end.

(** ** Structurer._extract_predicate *)

(** The condition of a ConditionalBreakNode read as a claripy AST ("at
    this point ConditionalBreakNode stores a claripy AST"); claripy
    rejects anything else where the predicate is first combined. *)
Definition as_ast (e : Expr) : result AST :=
  match e with
  | ClaripyAST a => Ok a
  | _ => Raise TypeError
  end.

Definition _extract_predicate (src_block dst_block : Node) (st : TState)
    : result (AST * TState) :=
  match src_block with
  | ConditionalBreakNode _ condition target =>
      match as_ast condition with
      | Raise e => Raise e
      | Ok bool_var =>
          if addr_is target dst_block then Ok (bool_var, st)
          else Ok (claripy.Not bool_var, st)
      end
  | GraphRegion _ => Ok (claripy.true, st)
  | _ =>
      match _get_last_statement src_block with
      | Raise e => Raise e
      | Ok None => Ok (claripy.true, st)
      | Ok (Some (Jump _ _ _)) => Ok (claripy.true, st)
      | Ok (Some (ConditionalJump _ condition true_target _ _)) =>
          match _bool_variable_from_ail_condition condition st with
          | Raise e => Raise e
          | Ok (bool_var, st1) =>
              if addr_is true_target dst_block then Ok (bool_var, st1)
              else Ok (claripy.Not bool_var, st1)
          end
      | Ok (Some (OtherStmt _)) => Ok (claripy.true, st)
      end
  end.

(** ** Structurer._simplify_condition *)

(** The rewrite !A||(A&&!B) ==> !(A&&B). *)
Definition _revert_short_circuit_conditions (cond : AST)
    : AST :=
  match claripy.view_of cond with
  | claripy.VOr or_arg0 or_arg1 rest =>
      let chosen :=
        match claripy.view_of or_arg1 with
        | claripy.VAnd x y _ => Some (or_arg0, x, y)
        | _ =>
            match claripy.view_of or_arg0 with
            | claripy.VAnd x y _ => Some (or_arg1, x, y)
            | _ => None
            end
        end in
      match chosen with
      | None => cond
      | Some (not_a, and_arg0, and_arg1) =>
          let found (not_b : AST) :=
            let b := claripy.Not not_b in
            let a := claripy.Not not_a in
            match rest with
            | [] => claripy.Not (claripy.And a b)
            | _ :: _ => claripy.Or_star (claripy.Not (claripy.And a b)) rest
            end in
          if claripy.same_variables not_a and_arg0 then
            if negb (claripy.eq_satisfiable not_a and_arg0)
            then found and_arg1 else cond
          else if claripy.same_variables not_a and_arg1 then
            if negb (claripy.eq_satisfiable not_a and_arg1)
            then found and_arg0 else cond
          else cond
      end
  | _ => cond
  end.

Definition _simplify_condition (cond : AST) : AST :=
  let claripy_simplified := claripy.simplify cond in
  if negb (claripy.symbolic claripy_simplified) then claripy_simplified
  else _revert_short_circuit_conditions cond.

(** ** Regions *)

(** A directed graph over node identities (Python objects), with the
    nodes and the edges in insertion order. *)
Record DiGraph : Type := mkDiGraph {
  g_nodes : list nat;
  g_edges : list (nat * nat);
}.

(** [graph.successors(n)], also [graph[n]] *)
Definition successors (g : DiGraph) (n : nat) : list nat :=
  (filter (fun e => e.1 = n) (g_edges g)).*2.

(** [graph.predecessors(n)] *)
Definition predecessors (g : DiGraph) (n : nat) : list nat :=
  (filter (fun e => e.2 = n) (g_edges g)).*1.

(** A region: its head, its graph, and the node each identity holds. *)
Record Region : Type := mkRegion {
  region_head : nat;
  region_graph : DiGraph;
  node_at : nat -> Node;
}.

(** ** Structurer._recover_reaching_conditions *)

Record Conditions : Type := mkConditions {
  _reaching_conditions : gmap nat AST;
  _predicate_mapping : list (AST * nat);
  _edge_conditions : gmap (nat * nat) AST;
}.

(** The pairs (src, dst) of the first loop of the function, in the order
    it visits them. *)
Definition edges_in_visit_order (g : DiGraph) : list (nat * nat) :=
  src ← g_nodes g; (fun dst => (src, dst)) <$> successors g src.

(** The first loop: the condition of every edge. *)
Fixpoint recover_edge_conditions (r : Region) (es : list (nat * nat))
    (edge_conditions : gmap (nat * nat) AST)
    (predicate_mapping : list (AST * nat)) (st : TState)
    : result (gmap (nat * nat) AST * list (AST * nat) * TState) :=
  match es with
  | [] => Ok (edge_conditions, predicate_mapping, st)
  | (src, dst) :: es' =>
      match _extract_predicate (node_at r src) (node_at r dst) st with
      | Raise e => Raise e
      | Ok (predicate, st1) =>
          recover_edge_conditions r es'
            (<[(src, dst) := predicate]> edge_conditions)
            (dict_set predicate dst predicate_mapping) st1
      end
  end.

(** The inner loop over the predecessors of [node]: the condition built
    so far is [reaching_condition]. *)
Definition over_predecessors (edge_conditions : gmap (nat * nat) AST)
    (reaching_conditions : gmap nat AST) (node : nat)
    (preds : list nat) (reaching_condition : option AST)
    : option AST :=
  foldl (fun reaching_condition pred =>
           let pred_condition :=
             default claripy.true (reaching_conditions !! pred) in
           let edge_condition :=
             default claripy.true (edge_conditions !! (pred, node)) in
           match reaching_condition with
           | None => Some (claripy.And pred_condition edge_condition)
           | Some rc =>
               Some (claripy.Or (claripy.And pred_condition edge_condition) rc)
           end)
        reaching_condition preds.

(** One iteration of the second loop. *)
Definition visit_node (r : Region)
    (edge_conditions : gmap (nat * nat) AST)
    (reaching_conditions : gmap nat AST) (node : nat)
    : gmap nat AST :=
  let reaching_condition :=
    if decide (node = region_head r) then Some claripy.true
    else over_predecessors edge_conditions reaching_conditions node
           (predecessors (region_graph r) node) None in
  match reaching_condition with
  | Some rc => <[node := _simplify_condition rc]> reaching_conditions
  | None => reaching_conditions
  end.

(** [order] is what [CFGUtils.quasi_topological_sort_nodes] returns for
    the graph of the region. *)
Definition _recover_reaching_conditions (r : Region) (order : list nat)
    (st : TState) : result (Conditions * TState) :=
  match recover_edge_conditions r (edges_in_visit_order (region_graph r)) ∅ [] st with
  | Raise e => Raise e
  | Ok (edge_conditions, predicate_mapping, st1) =>
      let reaching_conditions :=
        foldl (visit_node r edge_conditions) ∅ order in
      Ok (mkConditions reaching_conditions predicate_mapping edge_conditions,
          st1)
  end.

(** The OR of a list of terms, the first term outermost; there is no
    OR of no term. *)
Fixpoint disjunction (terms : list AST) : option AST :=
  match terms with
  | [] => None
  | t :: ts =>
      match disjunction ts with
      | None => Some t
      | Some rest => Some (claripy.Or t rest)
      end
  end.

(** reaching_condition(p) AND edge_condition(p, n), read from the dicts
    with the defaults of the source *)
Definition reaching_term (edge_conditions : gmap (nat * nat) AST)
    (reaching_conditions : gmap nat AST) (n p : nat) : AST :=
  claripy.And (default claripy.true (reaching_conditions !! p))
              (default claripy.true (edge_conditions !! (p, n))).

(** ** Structurer._merge_conditional_breaks *)

(** [if type(node) is CodeNode: node = node.node] *)
Definition unwrap_code (n : Node) : Node :=
  match n with
  | CodeNode inner _ => inner
  | _ => n
  end.

(** The merged node built when [node] and [prev_node] are both
    ConditionalBreakNodes. *)
Definition merged_break (addr : Z) (condition prev_condition : Expr)
    (target : Z) : result Node :=
  match as_ast condition with
  | Raise e => Raise e
  | Ok c =>
      match as_ast prev_condition with
      | Raise e => Raise e
      | Ok pc =>
          Ok (ConditionalBreakNode addr
                (ClaripyAST (_simplify_condition (claripy.Or c pc))) target)
      end
  end.

(** The loop runs over [seq.nodes]; [prev] is [seq.nodes[i-1]] (absent
    when i = 0) and [new_nodes] the list built so far. *)
Fixpoint _merge_conditional_breaks (seq : Node) : result Node :=
  match seq with
  | SequenceNode nodes =>
      let loop :=
        fix loop (l : list Node) (prev : option Node) (new_nodes : list Node)
            : result (list Node) :=
          match l with
          | [] => Ok new_nodes
          | raw :: l' =>
              let handle (node : Node) : result (list Node) :=
                match node with
                | SequenceNode _ =>
                    match _merge_conditional_breaks node with
                    | Raise e => Raise e
                    | Ok node' => loop l' (Some raw) (new_nodes ++ [node'])
                    end
                | ConditionalBreakNode addr condition target =>
                    match unwrap_code <$> prev with
                    | Some (ConditionalBreakNode _ prev_condition _) =>
                        match merged_break addr condition prev_condition target with
                        | Raise e => Raise e
                        | Ok new_node =>
                            loop l' (Some raw) (removelast new_nodes ++ [new_node])
                        end
                    | _ => loop l' (Some raw) (new_nodes ++ [node])
                    end
                | _ => loop l' (Some raw) (new_nodes ++ [node])
                end in
              match raw with
              | CodeNode inner _ => handle inner
              | _ => handle raw
              end
          end in
      match loop nodes None [] with
      | Raise e => Raise e
      | Ok new_nodes => Ok (SequenceNode new_nodes)
      end
  | _ => Raise AttributeError
  end.

(** ** Loop shape refinement *)

(** [loop_node.sort == 'while' and loop_node.condition is None] *)
Definition is_endless (sort : string) (condition : option Expr) : bool :=
  String.eqb sort "while" &&
  match condition with None => Datatypes.true | Some _ => false end.

(** Structurer._refine_loop_while *)
Definition _refine_loop_while (loop_node : Node) : result (bool * Node) :=
  match loop_node with
  | LoopNode sort condition body _ =>
      if is_endless sort condition then
        match body with
        | [] => Raise IndexError
        | first :: rest =>
            match unwrap_code first with
            | ConditionalBreakNode _ c _ =>
                let while_cond := _negate_cond c in
                Ok (Datatypes.true,
                    LoopNode "while" (Some while_cond) rest (addr_of loop_node))
            | _ => Ok (false, loop_node)
            end
        end
      else Ok (false, loop_node)
  | _ => Raise AttributeError
  end.

(** Structurer._refine_loop_dowhile *)
Definition _refine_loop_dowhile (loop_node : Node) : result (bool * Node) :=
  match loop_node with
  | LoopNode sort condition body _ =>
      if is_endless sort condition then
        match last body with
        | None => Raise IndexError
        | Some (ConditionalBreakNode _ c _) =>
            let while_cond := _negate_cond c in
            Ok (Datatypes.true,
                LoopNode "do-while" (Some while_cond) (removelast body) None)
        | Some _ => Ok (false, loop_node)
        end
      else Ok (false, loop_node)
  | _ => Raise AttributeError
  end.

(** Structurer._refine_loop: the [while True] loop, run for at most
    [fuel] iterations.  [peels] counts the productive steps taken so
    far; [None] means that the iterations ran out. *)
Fixpoint refine_loop_from (fuel : nat) (peels : nat) (loop_node : Node)
    : option (nat * result Node) :=
  match fuel with
  | O => None
  | S fuel' =>
      match _refine_loop_while loop_node with
      | Raise e => Some (peels, Raise e)
      | Ok (Datatypes.true, loop_node') =>
          refine_loop_from fuel' (S peels) loop_node'
      | Ok (false, loop_node') =>
          match _refine_loop_dowhile loop_node' with
          | Raise e => Some (peels, Raise e)
          | Ok (Datatypes.true, loop_node'') =>
              refine_loop_from fuel' (S peels) loop_node''
          | Ok (false, loop_node'') => Some (peels, Ok loop_node'')
          end
      end
  end.

(** Two iterations are enough (see [refine_loop_run]). *)
Definition _refine_loop (loop_node : Node) : result Node :=
  match refine_loop_from 2 0 loop_node with
  | Some (_, r) => r
  | None => Ok loop_node
  end.

(** The loop shape the specification describes, for a recogniser
    [break_of] of "is a ConditionalBreak on condition X": a leading
    break gives a while loop, else a trailing break gives a do-while
    loop, else the loop stays as it is.  The result is the sort, the
    loop condition and the body. *)
Definition specified_shape (break_of : Node -> option Expr) (body : list Node)
    : string * option Expr * list Node :=
  match head body ≫= break_of with
  | Some x => ("while"%string, Some (_negate_cond x), tail body)
  | None =>
      match last body ≫= break_of with
      | Some y => ("do-while"%string, Some (_negate_cond y), removelast body)
      | None => ("while"%string, None, body)
      end
  end.

(** The node is a ConditionalBreakNode. *)
Definition direct_break (n : Node) : option Expr :=
  match n with
  | ConditionalBreakNode _ c _ => Some c
  | _ => None
  end.

(** The node is a ConditionalBreakNode, or a CodeNode around one. *)
Definition break_under_code (n : Node) : option Expr :=
  direct_break (unwrap_code n).

(** The sort, the condition and the body of a loop node. *)
Definition shape_of (loop_node : Node) : option (string * option Expr * list Node) :=
  match loop_node with
  | LoopNode sort condition body _ => Some (sort, condition, body)
  | _ => None
  end.

(** The loop node is still an endless loop without a condition. *)
Definition endless (loop_node : Node) : bool :=
  match loop_node with
  | LoopNode sort condition _ _ => is_endless sort condition
  | _ => false
  end.

(** The children of the body of a loop node. *)
Definition body_of (loop_node : Node) : list Node :=
  match loop_node with
  | LoopNode _ _ body _ => body
  | _ => []
  end.

(** ** Structurer._to_loop_body_sequence *)

(** [x in addrs] for a set of [addr] values *)
Definition addr_in (x : Z) (addrs : list (option Z)) : bool :=
  existsb (fun o => match o with Some a => x =? a | None => false end) addrs.

(** [expr.idx] *)
Definition idx_of (e : Expr) : option Z :=
  match e with
  | Const i _ _ | Tmp i _ _ | Register i _ _ | Load i _ _
  | DirtyExpression i _ _ | Convert i _ _ _ | UnaryOp i _ _
  | BinaryOp i _ _ _ => i
  | ClaripyAST _ => None
  end.

(** What the loop does with the node it took from the queue before it
    looks at the successors: when a target of the trailing transfer is a
    loop successor, the transfer is removed from the node and a break
    node is made.  The result is the node as mutated, the new node (if
    any), and the state of the translation. *)
Definition exit_conversion (node : Node)
    (loop_successor_addrs loop_nodes : list (option Z)) (st : TState)
    : result (Node * option Node * TState) :=
  match _get_last_statement node with
  | Raise e => Raise e
  | Ok last_stmt =>
      let real_successor_addrs := _extract_jump_targets last_stmt in
      if existsb (fun succ_addr => addr_in succ_addr loop_successor_addrs)
                 real_successor_addrs
      then
        match last_stmt with
        | Some (Jump _ target ins_addr) =>
            match _remove_last_statement node with
            | Raise e => Raise e
            | Ok (node', _) => Ok (node', Some (BreakNode ins_addr target), st)
            end
        | Some (ConditionalJump _ condition true_target false_target ins_addr) =>
            let chosen :=
              if addr_in true_target loop_successor_addrs &&
                 addr_in false_target loop_nodes
              then Ok (condition, true_target)
              else if addr_in false_target loop_successor_addrs &&
                      addr_in true_target loop_nodes
              then Ok (UnaryOp (idx_of condition) "Not" condition, false_target)
              else Raise Exception_ in
            match chosen with
            | Raise e => Raise e
            | Ok (cond, target) =>
                match _remove_last_statement node with
                | Raise e => Raise e
                | Ok (node', _) =>
                    match _bool_variable_from_ail_condition cond st with
                    | Raise e => Raise e
                    | Ok (bool_var, st1) =>
                        Ok (node',
                            Some (ConditionalBreakNode ins_addr
                                    (ClaripyAST bool_var) target),
                            st1)
                    end
                end
            end
        | _ => Ok (node, None, st)
        end
      else Ok (node, None, st)
  end.

(** SequenceNode._test_empty_node *)
Definition _test_empty_node (node : Node) : bool :=
  match node with
  | AilBlock _ statements =>
      match statements with
      | [] => Datatypes.true
      | [ConditionalJump _ _ _ _ _] => Datatypes.true
      | _ => false
      end
  | _ => false
  end.

(** One step of the loop of SequenceNode._test_empty_condition_node:
    [true] when the branch is skipped by a [continue]. *)
Definition branch_is_empty (branch : option Node) : bool :=
  match branch with
  | None => Datatypes.true
  | Some node =>
      match node with
      | CodeNode inner _ =>
          _test_empty_node inner || _test_empty_node node
      | _ => _test_empty_node node
      end
  end.

(** SequenceNode._test_empty_condition_node *)
Definition _test_empty_condition_node (true_node : Node)
    (false_node : option Node) : bool :=
  branch_is_empty (Some true_node) && branch_is_empty false_node.

(** The nodes SequenceNode.remove_empty_node drops. *)
Definition is_dropped (node : Node) : bool :=
  match node with
  | ConditionNode _ _ _ true_node false_node =>
      _test_empty_condition_node true_node false_node
  | CodeNode inner _ => _test_empty_node inner
  | _ => _test_empty_node node
  end.

(** SequenceNode.remove_empty_node, on the child list *)
Definition remove_empty_node (nodes : list Node) : list Node :=
  filter (fun node => is_dropped node = false) nodes.

(** The end of the function, after the body has been structured into
    [seq]: the trailing jump is checked and removed, and the empty nodes
    are dropped. *)
Definition finish_loop_body (seq : Node) (loop_head_addr : option Z)
    : result Node :=
  match _get_last_statement seq with
  | Raise e => Raise e
  | Ok last_stmt =>
      let after_jump :=
        match last_stmt with
        | Some (Jump _ target _) =>
            if bool_decide (Some target = loop_head_addr) then
              match _remove_last_statement seq with
              | Raise e => Raise e
              | Ok (seq', _) => Ok seq'
              end
            else Raise Exception_
        | _ => Ok seq
        end in
      match after_jump with
      | Raise e => Raise e
      | Ok (SequenceNode nodes) => Ok (SequenceNode (remove_empty_node nodes))
      | Ok _ => Raise AttributeError
      end
  end.

(** The statements of a node in the order they run, as far as
    [_remove_last_statement] can see them. *)
Fixpoint statements_of (node : Node) : list Stmt :=
  let of_list :=
    fix of_list (l : list Node) : list Stmt :=
      match l with
      | [] => []
      | n :: l' => statements_of n ++ of_list l'
      end in
  match node with
  | AilBlock _ statements => statements
  | CodeNode inner _ => statements_of inner
  | MultiNode _ nodes => of_list nodes
  | SequenceNode nodes => of_list nodes
  | _ => []
  end.

(** The chain of last children of the node ends in an ailment block that
    has a statement, through CodeNodes, SequenceNodes and MultiNodes
    only. *)
Fixpoint ends_in_statement (node : Node) : bool :=
  let in_last :=
    fix in_last (l : list Node) : bool :=
      match l with
      | [] => false
      | n :: l' =>
          match l' with
          | [] => ends_in_statement n
          | _ :: _ => in_last l'
          end
      end in
  match node with
  | AilBlock _ statements =>
      match statements with [] => false | _ :: _ => Datatypes.true end
  | CodeNode inner _ => ends_in_statement inner
  | MultiNode _ nodes => in_last nodes
  | SequenceNode nodes => in_last nodes
  | _ => false
  end.

(** ** Structurer._append_statement *)

Fixpoint _append_statement (node : Node) (stmt : Stmt) : result Node :=
  let in_last :=
    fix in_last (l : list Node) : result (list Node) :=
      match l with
      | [] => Raise NotImplementedError
      | n :: l' =>
          match l' with
          | [] =>
              match _append_statement n stmt with
              | Ok n' => Ok [n']
              | Raise e => Raise e
              end
          | _ :: _ =>
              match in_last l' with
              | Ok l'' => Ok (n :: l'')
              | Raise e => Raise e
              end
          end
      end in
  match node with
  | CodeNode inner rc =>
      match _append_statement inner stmt with
      | Ok inner' => Ok (CodeNode inner' rc)
      | Raise e => Raise e
      end
  | AilBlock a statements => Ok (AilBlock a (statements ++ [stmt]))
  | MultiNode a nodes =>
      match in_last nodes with
      | Ok nodes' => Ok (MultiNode a nodes')
      | Raise e => Raise e
      end
  | SequenceNode nodes =>
      match in_last nodes with
      | Ok nodes' => Ok (SequenceNode nodes')
      | Raise e => Raise e
      end
  | _ => Raise NotImplementedError
  end.

(** ** The graph library *)

(** networkx is a collaborator of the structurer.  The operations below
    follow what its documentation says of them on a DiGraph: adjacency
    is kept in insertion order; [bfs_successors] gives, for every node
    of a breadth-first search, the successors the search first reaches
    from that node; a strongly connected component is a set of mutually
    reachable nodes. *)

Definition has_edge (g : DiGraph) (e : nat * nat) : bool :=
  bool_decide (e ∈ g_edges g).

(** [graph.remove_edge(u, v)] *)
Definition remove_edge (g : DiGraph) (e : nat * nat) : DiGraph :=
  mkDiGraph (g_nodes g) (filter (fun e' => e' <> e) (g_edges g)).

Definition add_node (g : DiGraph) (n : nat) : DiGraph :=
  if bool_decide (n ∈ g_nodes g) then g
  else mkDiGraph (g_nodes g ++ [n]) (g_edges g).

(** [graph.add_edge(u, v)] *)
Definition add_edge (g : DiGraph) (e : nat * nat) : DiGraph :=
  let g' := add_node (add_node g e.1) e.2 in
  if has_edge g' e then g' else mkDiGraph (g_nodes g') (g_edges g' ++ [e]).

(** [graph.in_edges(n)] *)
Definition in_edges (g : DiGraph) (n : nat) : list (nat * nat) :=
  filter (fun e => e.2 = n) (g_edges g).

(** The elements of [l] that are not in [seen], each once. *)
Fixpoint new_among (seen : list nat) (l : list nat) : list nat :=
  match l with
  | [] => []
  | x :: l' =>
      if bool_decide (x ∈ seen) then new_among seen l'
      else x :: new_among (x :: seen) l'
  end.

(** The nodes reached from [s] by paths of at most [steps] edges. *)
Fixpoint within (g : DiGraph) (steps : nat) (s : list nat) : list nat :=
  match steps with
  | O => s
  | S steps' => within g steps' (s ++ new_among s (s ≫= successors g))
  end.

(** The nodes reachable from [n]. *)
Definition descendants (g : DiGraph) (n : nat) : list nat :=
  within g (length (g_nodes g)) [n].

(** The strongly connected component of [n]. *)
Definition component_of (g : DiGraph) (n : nat) : list nat :=
  filter (fun v => n ∈ descendants g v) (descendants g n).

(** [networkx.bfs_successors(g, source)], with the nodes still to expand
    in [queue].  At most [fuel] nodes are expanded; [None] means that
    the search was cut short. *)
Fixpoint bfs_successors_from (g : DiGraph) (fuel : nat)
    (queue visited : list nat) : option (list (nat * list nat)) :=
  match queue with
  | [] => Some []
  | parent :: queue' =>
      match fuel with
      | O => None
      | S fuel' =>
          let children := new_among visited (successors g parent) in
          match bfs_successors_from g fuel' (queue' ++ children)
                  (visited ++ children) with
          | None => None
          | Some later =>
              Some match children with
                   | [] => later
                   | _ :: _ => (parent, children) :: later
                   end
          end
      end
  end.

Definition bfs_successors (g : DiGraph) (source : nat)
    : option (list (nat * list nat)) :=
  bfs_successors_from g (S (length (g_nodes g))) [source] [source].

(** ** Structurer._find_loop_nodes_and_successors *)

(** The region of a structurer with what it reaches through
    [self._parent_map]: the graph of each enclosing region with the
    identity the enclosed region has in it, innermost first. *)
Record CyclicRegion : Type := mkCyclicRegion {
  c_head : nat;
  c_graph : DiGraph;
  c_node_at : nat -> Node;
  c_region : nat;
  c_parent_map : option (list (nat * DiGraph));
}.

(** A successor of a loop node that is outside the loop nodes and has
    all its predecessors among them, if there is one. *)
Definition next_absorbed (g : DiGraph) (loop_nodes : list nat) : option nat :=
  head (filter (fun succ =>
                  (succ ∉ loop_nodes) /\
                  Forall (fun pred => pred ∈ loop_nodes) (predecessors g succ))
               (loop_nodes ≫= successors g)).

(** The loop that extends the loop nodes, for at most [fuel] rounds. *)
Fixpoint extend_loop_nodes (g : DiGraph) (fuel : nat) (loop_nodes : list nat)
    : option (list nat) :=
  match next_absorbed g loop_nodes with
  | None => Some loop_nodes
  | Some succ =>
      match fuel with
      | O => None
      | S fuel' => extend_loop_nodes g fuel' (loop_nodes ++ [succ])
      end
  end.

(** The successors a breadth-first search attributes to nodes with the
    address of a loop node, outside the loop subgraph. *)
Definition successors_seen_from (node_at : nat -> Node)
    (is_source : Node -> bool) (loop_subgraph : list nat)
    (found : list (nat * list nat)) : list nat :=
  new_among []
    (filter (fun suc => suc ∉ loop_subgraph)
       ('(node, successors) ← found;
        if is_source (node_at node) then successors else [])).

(** Case B: the successors of the region in the graphs of the enclosing
    regions, until one has some. *)
Fixpoint successors_in_parents (node_at : nat -> Node)
    (loop_subgraph : list nat) (current_region : nat)
    (parents : list (nat * DiGraph)) : option (list nat) :=
  match parents with
  | [] => Some []
  | (parent_region, parent_graph) :: parents' =>
      match bfs_successors parent_graph current_region with
      | None => None
      | Some found =>
          let loop_successors :=
            successors_seen_from node_at
              (fun node =>
                 bool_decide (addr_of node = addr_of (node_at current_region)))
              loop_subgraph found in
          match loop_successors with
          | [] => successors_in_parents node_at loop_subgraph parent_region
                    parents'
          | _ :: _ => Some loop_successors
          end
      end
  end.

(** The result is the nodes of the loop subgraph and the loop
    successors; [None] means that a search was cut short. *)
Definition _find_loop_nodes_and_successors (c : CyclicRegion)
    : option (result (list nat * list nat)) :=
  let graph := c_graph c in
  if negb (bool_decide (c_head c ∈ g_nodes graph)) then Some (Raise TypeError)
  else
    match extend_loop_nodes graph (length (g_nodes graph))
            (component_of graph (c_head c)) with
    | None => None
    | Some loop_nodes =>
        let loop_node_addrs := (fun n => addr_of (c_node_at c n)) <$> loop_nodes in
        match bfs_successors graph (c_head c) with
        | None => None
        | Some found =>
            let loop_successors :=
              successors_seen_from (c_node_at c)
                (fun node => bool_decide (addr_of node ∈ loop_node_addrs))
                loop_nodes found in
            match loop_successors with
            | _ :: _ => Some (Ok (loop_nodes, loop_successors))
            | [] =>
                match c_parent_map c with
                | None => Some (Raise AttributeError)
                | Some parents =>
                    match successors_in_parents (c_node_at c) loop_nodes
                            (c_region c) parents with
                    | None => None
                    | Some loop_successors =>
                        Some (Ok (loop_nodes, loop_successors))
                    end
                end
            end
        end
    end.

(** ** Structurer._refine_loop_successors *)

(** The node identity [i] now holds [n]. *)
Definition set_node (node_at : nat -> Node) (i : nat) (n : Node) : nat -> Node :=
  fun j => if decide (j = i) then n else node_at j.

(** [graph.remove_edge(u, v)], which raises when there is no such
    edge. *)
Definition remove_existing_edge (g : DiGraph) (e : nat * nat) : result DiGraph :=
  if has_edge g e then Ok (remove_edge g e) else Raise NetworkXError.

(** The ConditionNodes chained behind the first one, one for each
    further successor. *)
Fixpoint chain_conditions (reaching_conditions : gmap nat AST)
    (node_at : nat -> Node) (successors : list nat) (cond : Node) : result Node :=
  match successors with
  | [] => Ok cond
  | succ :: rest =>
      match reaching_conditions !! succ with
      | None => Raise KeyError
      | Some rc =>
          chain_conditions reaching_conditions node_at rest
            (ConditionNode (-1) None (ClaripyAST rc) (node_at succ) (Some cond))
      end
  end.

(** The body of the inner loop for one edge (src, succ): the edges into
    [src] are taken out, the edge is removed, the last statement of
    [src] is made to jump to the new node, the edges into [src] are put
    back, and the edge from [src] to the new node is added. *)
Definition redirect_edge (cond : nat) (succ src : nat)
    (state : DiGraph * (nat -> Node)) : result (DiGraph * (nat -> Node)) :=
  let '(g, node_at) := state in
  let removed_edges := in_edges g src in
  let g1 := foldl remove_edge g removed_edges in
  match remove_existing_edge g1 (src, succ) with
  | Raise e => Raise e
  | Ok g2 =>
      match _get_last_statement (node_at src) with
      | Raise e => Raise e
      | Ok (Some (ConditionalJump idx condition true_target false_target ins_addr)) =>
          let new_last_stmt :=
            if addr_is true_target (node_at succ)
            then Ok (ConditionalJump idx condition (-1) false_target ins_addr)
            else if addr_is false_target (node_at succ)
            then Ok (ConditionalJump idx condition true_target (-1) ins_addr)
            else Raise Exception_ in
          match new_last_stmt with
          | Raise e => Raise e
          | Ok stmt =>
              match _remove_last_statement (node_at src) with
              | Raise e => Raise e
              | Ok (src1, _) =>
                  match _append_statement src1 stmt with
                  | Raise e => Raise e
                  | Ok src2 =>
                      let g3 := foldl add_edge g2 removed_edges in
                      Ok (add_edge g3 (src, cond), set_node node_at src src2)
                  end
              end
          end
      | Ok _ => Raise NotImplementedError
      end
  end.

(** The inner loop over the edges into [succ], as they are when the
    loop starts. *)
Definition redirect_edges_into (cond : nat) (succ : nat)
    (state : DiGraph * (nat -> Node)) : result (DiGraph * (nat -> Node)) :=
  foldl (fun acc e =>
           match acc with
           | Raise err => Raise err
           | Ok state' => redirect_edge cond succ e.1 state'
           end)
        (Ok state) (in_edges state.1 succ).

(** An identity no node of the region or of the enclosing graphs has. *)
Definition new_identity (c : CyclicRegion) (others : list nat) : nat :=
  S (foldr Nat.max 0%nat
       (g_nodes (c_graph c) ++ others ++
        (default [] (c_parent_map c) ≫= fun p => p.1 :: g_nodes p.2))).

(** [quasi_topological_sort_nodes] is the function of CFGUtils, and
    [successors] the list [list(loop_successors)]. *)
Definition _refine_loop_successors (c : CyclicRegion)
    (quasi_topological_sort_nodes : DiGraph -> list nat)
    (loop_successors : list nat) (st : TState)
    : result (CyclicRegion * TState) :=
  match loop_successors with
  | [] | [_] => Ok (c, st)
  | first :: rest =>
      let region := mkRegion (c_head c) (c_graph c) (c_node_at c) in
      match _recover_reaching_conditions region
              (quasi_topological_sort_nodes (c_graph c)) st with
      | Raise e => Raise e
      | Ok (conds, st1) =>
          match _reaching_conditions conds !! first with
          | None => Raise KeyError
          | Some rc =>
              match chain_conditions (_reaching_conditions conds) (c_node_at c)
                      rest
                      (ConditionNode (-1) None (ClaripyAST rc)
                         (c_node_at c first) None) with
              | Raise e => Raise e
              | Ok cond_node =>
                  let cond := new_identity c loop_successors in
                  let state := (c_graph c, set_node (c_node_at c) cond cond_node) in
                  match foldl (fun acc succ =>
                                 match acc with
                                 | Raise err => Raise err
                                 | Ok state' => redirect_edges_into cond succ state'
                                 end)
                              (Ok state) loop_successors with
                  | Raise e => Raise e
                  | Ok (g', node_at') =>
                      Ok (mkCyclicRegion (c_head c) g' node_at' (c_region c)
                            (c_parent_map c), st1)
                  end
              end
          end
      end
  end.

(** ** Structurer._analyze_cyclic, up to the loop body *)

(** The statements of [_analyze_cyclic] before [_make_endless_loop]: the
    result is what the loop-body construction is entered with.  [None]
    means that a search of the graph was cut short. *)
Definition analyze_cyclic_until_loop_body (c : CyclicRegion)
    (quasi_topological_sort_nodes : DiGraph -> list nat) (st : TState)
    : option (result (CyclicRegion * list nat * list nat * TState)) :=
  match _find_loop_nodes_and_successors c with
  | None => None
  | Some (Raise e) => Some (Raise e)
  | Some (Ok (loop_subgraph, successors)) =>
      let checked (c' : CyclicRegion) (loop_subgraph successors : list nat)
          (st' : TState) :=
        if bool_decide (length successors <= 1)%nat
        then Ok (c', loop_subgraph, successors, st')
        else Raise AssertionError in
      if bool_decide (1 < length successors)%nat then
        match _refine_loop_successors c quasi_topological_sort_nodes
                successors st with
        | Raise e => Some (Raise e)
        | Ok (c', st') =>
            match _find_loop_nodes_and_successors c' with
            | None => None
            | Some (Raise e) => Some (Raise e)
            | Some (Ok (loop_subgraph', successors')) =>
                Some (checked c' loop_subgraph' successors' st')
            end
        end
      else Some (checked c loop_subgraph successors st)
  end.

(** ** The condition-variable mapping across nested structurers *)

(** The statements of the class that touch [_condition_mapping] are the
    assignment in [__init__], the writes of
    [_bool_variable_from_ail_condition], the reads of
    [_convert_claripy_bool_ast], and the [copy()] with which
    [_to_loop_body_sequence] creates the structurer of a loop body.  The
    dicts live in a store, and a structurer holds the location of its
    own. *)
Record Store : Type := mkStore {
  dicts : gmap nat ConditionMapping;
  claripy_counter : nat;
}.

(** A new dict object with the given contents. *)
Definition new_dict (contents : ConditionMapping) (h : Store) : nat * Store :=
  let l := fresh (dom (dicts h)) in
  (l, mkStore (<[l := contents]> (dicts h)) (claripy_counter h)).

(** [d.copy()] *)
Definition dict_copy (l : nat) (h : Store) : nat * Store :=
  new_dict (default [] (dicts h !! l)) h.

(** [self._condition_mapping = {} if condition_mapping is None else
    condition_mapping] in [Structurer.__init__] *)
Definition Structurer_init (condition_mapping : option nat) (h : Store)
    : nat * Store :=
  match condition_mapping with
  | None => new_dict [] h
  | Some l => (l, h)
  end.

(** [self._bool_variable_from_ail_condition(condition)] in the structurer
    whose mapping is at [self_mapping] *)
Definition translate_in (self_mapping : nat) (condition : Expr) (h : Store)
    : result (AST * Store) :=
  let st := mkTState (default [] (dicts h !! self_mapping)) (claripy_counter h) in
  match _bool_variable_from_ail_condition condition st with
  | Raise e => Raise e
  | Ok (var, st') =>
      Ok (var, mkStore (<[self_mapping := mapping st']> (dicts h))
                       (bvs_counter st'))
  end.

(** What a structurer does to the mapping while it analyses its region:
    it translates conditions, and for a loop it structures the body in a
    structurer of its own. *)
Inductive Activity : Type :=
| Translate (condition : Expr)
| StructureLoopBody (body_activities : list Activity).

Fixpoint perform (self_mapping : nat) (a : Activity) (h : Store)
    : result Store :=
  match a with
  | Translate condition =>
      match translate_in self_mapping condition h with
      | Raise e => Raise e
      | Ok (_, h') => Ok h'
      end
  | StructureLoopBody body_activities =>
      (* Structurer(region, condition_mapping=self._condition_mapping.copy()) *)
      let '(copied, h1) := dict_copy self_mapping h in
      let '(sub_mapping, h2) := Structurer_init (Some copied) h1 in
      (fix run (l : list Activity) (h : Store) : result Store :=
         match l with
         | [] => Ok h
         | a' :: l' =>
             match perform sub_mapping a' h with
             | Raise e => Raise e
             | Ok h' => run l' h'
             end
         end) body_activities h2
  end.

(** The activities of one structurer, in order. *)
Fixpoint perform_all (self_mapping : nat) (l : list Activity) (h : Store)
    : result Store :=
  match l with
  | [] => Ok h
  | a :: l' =>
      match perform self_mapping a h with
      | Raise e => Raise e
      | Ok h' => perform_all self_mapping l' h'
      end
  end.

(** A top-level [Structurer(region)]: no mapping is passed in.  The
    result is the location of its mapping and the final store. *)
Definition top_level_structurer (l : list Activity) (h : Store)
    : result (nat * Store) :=
  let '(self_mapping, h1) := Structurer_init None h in
  match perform_all self_mapping l h1 with
  | Raise e => Raise e
  | Ok h' => Ok (self_mapping, h')
  end.

(** [self._condition_mapping] of the structurer at [l] *)
Definition mapping_at (l : nat) (h : Store) : ConditionMapping :=
  default [] (dicts h !! l).


(** ** Structurer._merge_nodes *)


(** ** Structurer._merge_same_conditioned_nodes *)








(** ** Structurer._to_loop_body_sequence: the traversal *)

(** [graph.remove_node(n)]: the node goes with the edges at it. *)
Definition remove_node (g : DiGraph) (n : nat) : DiGraph :=
  mkDiGraph (filter (fun m => m <> n) (g_nodes g))
            (filter (fun e => e.1 <> n /\ e.2 <> n) (g_edges g)).

(** The variables of the while loop: [queue], [traversed],
    [loop_region_graph] and [replaced_nodes], with the node each
    identity holds (nodes are mutated when their last statement is
    removed), the first identity not in use (break nodes are new
    objects), and the state of the translation. *)
Record LoopBody : Type := mkLoopBody {
  lb_queue : list nat;
  lb_traversed : list nat;
  lb_graph : DiGraph;
  lb_replaced : gmap nat nat;
  lb_node_at : nat -> Node;
  lb_fresh : nat;
  lb_state : TState;
}.

(** [isinstance(node, ailment.Block) and not node.statements] *)
Definition is_emptied_block (node : Node) : bool :=
  match node with
  | AilBlock _ [] => Datatypes.true
  | _ => false
  end.

(** The for loop over the successors of the node taken from the queue;
    [node] is the node or the break node that took its place. *)
Definition visit_successors (loop_head : nat) (loop_successors : list nat)
    (traversed : list nat) (replaced_nodes : gmap nat nat) (node : nat)
    (successors : list nat) (loop_region_graph : DiGraph) (queue : list nat)
    : DiGraph * list nat :=
  foldl (fun '(g, queue) dst =>
           if bool_decide (dst ∈ loop_successors) then (g, queue)
           else
             let g' :=
               if bool_decide (dst = loop_head) then g
               else add_edge g (node, default dst (replaced_nodes !! dst)) in
             if bool_decide (dst ∈ traversed) || bool_decide (dst ∈ queue)
             then (g', queue)
             else (g', queue ++ [dst]))
        (loop_region_graph, queue) successors.

(** One iteration of the while loop, on a queue that is not empty. *)
Definition loop_body_step (graph : DiGraph) (loop_head : nat)
    (loop_successors : list nat)
    (loop_successor_addrs loop_nodes : list (option Z)) (s : LoopBody)
    : result LoopBody :=
  match lb_queue s with
  | [] => Ok s
  | node :: queue =>
      let g1 := add_node (lb_graph s) node in
      let traversed := lb_traversed s ++ [node] in
      let successors := successors graph node in
      match exit_conversion (lb_node_at s node) loop_successor_addrs loop_nodes
              (lb_state s) with
      | Raise e => Raise e
      | Ok (node', new_node, st') =>
          let node_at1 := set_node (lb_node_at s) node node' in
          let '(current, g2, replaced_nodes, node_at2, fresh) :=
            match new_node with
            | None => (node, g1, lb_replaced s, node_at1, lb_fresh s)
            | Some break_node =>
                let new := lb_fresh s in
                let node_at2 := set_node node_at1 new break_node in
                if is_emptied_block node' then
                  (new,
                   foldl (fun g pred => add_edge g (pred, new))
                         (remove_node g1 node) (predecessors g1 node),
                   <[node := new]> (lb_replaced s), node_at2, S new)
                else
                  (new, add_edge g1 (node, new), lb_replaced s, node_at2, S new)
            end in
          let '(g3, queue') :=
            visit_successors loop_head loop_successors traversed replaced_nodes
              current successors g2 queue in
          Ok (mkLoopBody queue' traversed g3 replaced_nodes node_at2 fresh st')
      end
  end.

(** The while loop, for at most [fuel] iterations; [None] means that
    the iterations ran out. *)
Fixpoint loop_body_traversal (fuel : nat) (graph : DiGraph) (loop_head : nat)
    (loop_successors : list nat)
    (loop_successor_addrs loop_nodes : list (option Z)) (s : LoopBody)
    : option (result LoopBody) :=
  match lb_queue s with
  | [] => Some (Ok s)
  | _ :: _ =>
      match fuel with
      | O => None
      | S fuel' =>
          match loop_body_step graph loop_head loop_successors
                  loop_successor_addrs loop_nodes s with
          | Raise e => Some (Raise e)
          | Ok s' =>
              loop_body_traversal fuel' graph loop_head loop_successors
                loop_successor_addrs loop_nodes s'
          end
      end
  end.

(** An identity above the head, the nodes and edges of the graph and
    the loop successors. *)
Definition first_unused (graph : DiGraph) (loop_head : nat)
    (loop_successors : list nat) : nat :=
  S (foldr Nat.max 0%nat
       (loop_head :: g_nodes graph ++ loop_successors ++
        (g_edges graph ≫= fun e => [e.1; e.2]))).

(** The function up to the structurer of the loop body: the result is
    the state of the traversal when the queue is empty, with the graph
    of the loop body region in [lb_graph]. *)
Definition loop_body_region_graph (fuel : nat) (c : CyclicRegion)
    (loop_successors : list nat) (st : TState) : option (result LoopBody) :=
  let graph := c_graph c in
  let loop_nodes := (fun n => addr_of (c_node_at c n)) <$> g_nodes graph in
  let loop_successor_addrs :=
    (fun n => addr_of (c_node_at c n)) <$> loop_successors in
  loop_body_traversal fuel graph (c_head c) loop_successors
    loop_successor_addrs loop_nodes
    (mkLoopBody [c_head c] [] (mkDiGraph [] []) ∅ (c_node_at c)
       (first_unused graph (c_head c) loop_successors) st).



(** ** Structurer._remove_claripy_bool_asts *)





(** * Properties *)

(** ** Condition negation *)

Lemma likes_refl (e : Expr) : likes e e = Datatypes.true.
Proof.
  induction e; simpl;
    rewrite ?Z.eqb_refl, ?String.eqb_refl, ?IHe, ?IHe1, ?IHe2; simpl; auto.
  apply bool_decide_eq_true. reflexivity.
Qed.

Lemma negate_cond_of_Not (idx : option Z) (x : Expr) :
  _negate_cond (UnaryOp idx "Not" x) = x.
Proof. reflexivity. Qed.

Lemma negate_cond_not_Not (e : Expr) :
  is_Not e = false -> _negate_cond e = UnaryOp (Some 0) "Not" e.
Proof.
  destruct e; simpl; try reflexivity.
  intros H. rewrite H. reflexivity.
Qed.

(** C9, as amended: negating a negation returns the original operand;
    for every expression [e] that is not of the form Not(Not(x)),
    negating twice gives an expression structurally equal to [e], and
    the negation of [e] is not of the form Not(Not(x)). *)
Theorem negate_cond_involutive_unless_stacked (e : Expr)
    (Hflat : is_Not_Not e = false) :
  (forall idx x, _negate_cond (UnaryOp idx "Not" x) = x) /\
  likes (_negate_cond (_negate_cond e)) e = Datatypes.true /\
  is_Not_Not (_negate_cond e) = false.
Proof.
  split; [intros; reflexivity|].
  destruct (is_Not e) eqn:HN.
  - destruct e; simpl in HN; try discriminate.
    apply String.eqb_eq in HN. subst op.
    simpl in Hflat. rewrite negate_cond_of_Not.
    rewrite (negate_cond_not_Not _ Hflat). simpl.
    rewrite likes_refl. split; [reflexivity|].
    destruct e; simpl in *; try reflexivity.
    rewrite Hflat. reflexivity.
  - rewrite (negate_cond_not_Not _ HN). simpl.
    rewrite likes_refl. split; [reflexivity|]. exact HN.
Qed.

(** ** Loop shape refinement *)

Lemma refine_loop_while_peel (loop_node loop_node' : Node) :
  _refine_loop_while loop_node = Ok (Datatypes.true, loop_node') ->
  endless loop_node = Datatypes.true /\
  endless loop_node' = false /\
  length (body_of loop_node) = S (length (body_of loop_node')).
Proof.
  destruct loop_node; simpl; try discriminate.
  destruct (is_endless sort condition) eqn:He; [|discriminate].
  destruct sequence_node as [|first rest]; [discriminate|].
  destruct (unwrap_code first); try discriminate.
  intros [= <-]. simpl. auto.
Qed.

Lemma refine_loop_dowhile_peel (loop_node loop_node' : Node) :
  _refine_loop_dowhile loop_node = Ok (Datatypes.true, loop_node') ->
  endless loop_node = Datatypes.true /\
  endless loop_node' = false /\
  length (body_of loop_node) = S (length (body_of loop_node')).
Proof.
  destruct loop_node; simpl; try discriminate.
  destruct (is_endless sort condition) eqn:He; [|discriminate].
  destruct (last sequence_node) as [l|] eqn:Hl; [|discriminate].
  destruct l; try discriminate.
  intros [= <-]. simpl. repeat split; auto.
  destruct sequence_node as [|x xs] using rev_ind; [discriminate|].
  rewrite removelast_last, length_app. simpl. lia.
Qed.

Lemma refine_loop_while_no_peel (loop_node loop_node' : Node) :
  _refine_loop_while loop_node = Ok (false, loop_node') ->
  loop_node' = loop_node.
Proof.
  destruct loop_node; simpl; try discriminate.
  destruct (is_endless sort condition); [|congruence].
  destruct sequence_node as [|first rest]; [discriminate|].
  destruct (unwrap_code first); congruence.
Qed.

Lemma refine_loop_dowhile_no_peel (loop_node loop_node' : Node) :
  _refine_loop_dowhile loop_node = Ok (false, loop_node') ->
  loop_node' = loop_node.
Proof.
  destruct loop_node; simpl; try discriminate.
  destruct (is_endless sort condition); [|congruence].
  destruct (last sequence_node) as [l|]; [|discriminate].
  destruct l; congruence.
Qed.

(** Once the loop has a condition, neither rule changes it. *)
Lemma peeled_has_condition (loop_node : Node) :
  endless loop_node = false ->
  shape_of loop_node <> None ->
  _refine_loop_while loop_node = Ok (false, loop_node) /\
  _refine_loop_dowhile loop_node = Ok (false, loop_node).
Proof.
  destruct loop_node; simpl; try congruence.
  intros -> _. auto.
Qed.

Lemma peel_keeps_loop (loop_node loop_node' : Node) :
  _refine_loop_while loop_node = Ok (Datatypes.true, loop_node') \/
  _refine_loop_dowhile loop_node = Ok (Datatypes.true, loop_node') ->
  shape_of loop_node' <> None.
Proof.
  destruct loop_node; simpl; intros [H|H]; try discriminate;
    destruct (is_endless sort condition); try discriminate.
  - destruct sequence_node as [|first rest]; [discriminate|].
    destruct (unwrap_code first); try discriminate.
    injection H as <-. discriminate.
  - destruct (last sequence_node) as [l|]; [|discriminate].
    destruct l; try discriminate.
    injection H as <-. discriminate.
Qed.

(** The run of the refinement loop with any number of iterations from
    two on. *)
Lemma refine_loop_run (loop_node : Node) (fuel : nat) :
  (2 <= fuel)%nat ->
  exists peels,
    refine_loop_from fuel 0 loop_node = Some (peels, _refine_loop loop_node) /\
    (peels <= 1)%nat /\
    (peels <= length (body_of loop_node))%nat.
Proof.
  intros Hfuel.
  destruct fuel as [|[|fuel]]; try lia. clear Hfuel.
  unfold _refine_loop. simpl.
  destruct (_refine_loop_while loop_node) as [[[] ln1]|e] eqn:Hw.
  - pose proof (peel_keeps_loop loop_node ln1 (or_introl Hw)) as Hk.
    destruct (refine_loop_while_peel _ _ Hw) as (_ & He & Hlen).
    destruct (peeled_has_condition ln1 He Hk) as [Hw1 Hd1].
    rewrite Hw1, Hd1.
    exists 1%nat; split; [reflexivity|split; lia].
  - apply refine_loop_while_no_peel in Hw as ->.
    destruct (_refine_loop_dowhile loop_node) as [[[] ln2]|e] eqn:Hd.
    + pose proof (peel_keeps_loop loop_node ln2 (or_intror Hd)) as Hk.
      destruct (refine_loop_dowhile_peel _ _ Hd) as (_ & He & Hlen).
      destruct (peeled_has_condition ln2 He Hk) as [Hw1 Hd1].
      rewrite Hw1, Hd1.
      exists 1%nat; split; [reflexivity|split; lia].
    + exists 0%nat. split; [reflexivity|split; lia].
    + exists 0%nat. split; [reflexivity|split; lia].
  - exists 0%nat. split; [reflexivity|split; lia].
Qed.

Lemma refine_loop_steps_return (loop_node : Node) :
  shape_of loop_node <> None ->
  body_of loop_node <> [] \/ endless loop_node = false ->
  (exists b ln, _refine_loop_while loop_node = Ok (b, ln)) /\
  (exists b ln, _refine_loop_dowhile loop_node = Ok (b, ln)).
Proof.
  destruct loop_node; simpl; try congruence. intros _ Hbody.
  destruct (is_endless sort condition) eqn:He; [|split; eauto].
  destruct Hbody as [Hbody|Hbody]; [|congruence].
  split.
  - destruct sequence_node as [|first rest]; [congruence|].
    destruct (unwrap_code first); eauto.
  - destruct (last sequence_node) as [l|] eqn:Hl.
    + destruct l; eauto.
    + apply last_None in Hl. congruence.
Qed.

(** C10: the refinement loop ends after at most two iterations, whatever
    number of iterations it is given from two on; the productive steps
    it takes are at most as many as the children of the body (and at
    most one); a productive step fires only on an endless loop without
    condition, leaves a loop that is not endless any more, and removes
    exactly one child from the body. *)
Theorem refine_loop_terminates_within_body (loop_node : Node) (fuel : nat)
    (Hfuel : (2 <= fuel)%nat) :
  (exists peels,
     refine_loop_from fuel 0 loop_node = Some (peels, _refine_loop loop_node) /\
     (peels <= length (body_of loop_node))%nat) /\
  (forall loop_node',
     _refine_loop_while loop_node = Ok (Datatypes.true, loop_node') \/
     _refine_loop_dowhile loop_node = Ok (Datatypes.true, loop_node') ->
     endless loop_node = Datatypes.true /\
     endless loop_node' = false /\
     length (body_of loop_node) = S (length (body_of loop_node'))) /\
  (shape_of loop_node <> None ->
   body_of loop_node <> [] \/ endless loop_node = false ->
   returns (_refine_loop loop_node)).
Proof.
  split; [|split].
  - destruct (refine_loop_run loop_node fuel Hfuel) as (peels & Hrun & _ & Hlen).
    exists peels. auto.
  - intros ln' [H|H].
    + apply refine_loop_while_peel; exact H.
    + apply refine_loop_dowhile_peel; exact H.
  - intros Hloop Hbody.
    destruct (refine_loop_steps_return loop_node Hloop Hbody)
      as [(b1 & ln1 & Hw) (b2 & ln2 & Hd)].
    unfold _refine_loop, returns. simpl. rewrite Hw.
    destruct b1.
    + pose proof (peel_keeps_loop loop_node ln1 (or_introl Hw)) as Hk.
      destruct (refine_loop_while_peel _ _ Hw) as (_ & He & _).
      destruct (peeled_has_condition ln1 He Hk) as [Hw1 Hd1].
      rewrite Hw1, Hd1. eauto.
    + apply refine_loop_while_no_peel in Hw as ->. rewrite Hd.
      destruct b2; [|eauto].
      pose proof (peel_keeps_loop loop_node ln2 (or_intror Hd)) as Hk.
      destruct (refine_loop_dowhile_peel _ _ Hd) as (_ & He & _).
      destruct (peeled_has_condition ln2 He Hk) as [Hw1 Hd1].
      rewrite Hw1, Hd1. eauto.
Qed.

(** ** The shape of a refined loop *)

(** The shape of a refined loop: for an endless loop with a body that
    is not empty, if the first child is a ConditionalBreakNode on [x], directly or
    inside a CodeNode, the refinement removes it and gives a while loop
    on the negation of [x]; otherwise, if the last child is itself a
    ConditionalBreakNode on [y], the refinement removes it and gives a
    do-while loop on the negation of [y]; otherwise the loop is returned
    as it is. *)
Lemma refine_loop_shape (body : list Node) (a : option Z)
    (Hbody : body <> []) :
  exists loop_node,
    _refine_loop (LoopNode "while" None body a) = Ok loop_node /\
    shape_of loop_node =
      Some match head body ≫= break_under_code with
           | Some x => ("while"%string, Some (_negate_cond x), tail body)
           | None =>
               match last body ≫= direct_break with
               | Some y =>
                   ("do-while"%string, Some (_negate_cond y), removelast body)
               | None => ("while"%string, None, body)
               end
           end.
Proof.
  destruct body as [|first rest]; [congruence|]. clear Hbody.
  unfold _refine_loop, break_under_code. simpl.
  destruct (unwrap_code first) eqn:Hu; simpl;
    try (destruct (last (first :: rest)) as [l|] eqn:Hl;
         [|apply last_None in Hl; discriminate];
         simpl; destruct l; simpl; eauto).
Qed.

(** ** Merging conditional breaks *)

(** Two adjacent breaks are merged into one on the OR of both. *)
Lemma merge_two_breaks (a1 a2 t1 t2 : Z) (c1 c2 : AST) :
  _merge_conditional_breaks
    (SequenceNode [ConditionalBreakNode a1 (ClaripyAST c1) t1;
                   ConditionalBreakNode a2 (ClaripyAST c2) t2]) =
  Ok (SequenceNode
        [ConditionalBreakNode a2
           (ClaripyAST (_simplify_condition (claripy.Or c2 c1))) t2]).
Proof. reflexivity. Qed.

(** Of three adjacent breaks, the third is merged with the second as it
    was in the input, and the node that held the first condition is
    dropped. *)
Lemma merge_three_breaks (a1 a2 a3 t1 t2 t3 : Z) (c1 c2 c3 : AST) :
  _merge_conditional_breaks
    (SequenceNode [ConditionalBreakNode a1 (ClaripyAST c1) t1;
                   ConditionalBreakNode a2 (ClaripyAST c2) t2;
                   ConditionalBreakNode a3 (ClaripyAST c3) t3]) =
  Ok (SequenceNode
        [ConditionalBreakNode a3
           (ClaripyAST (_simplify_condition (claripy.Or c3 c2))) t3]).
Proof. reflexivity. Qed.

(** ** Edge conditions *)

(** The theorem on edge conditions follows the lemmas on the last
    statement of a node, see below. *)

(** ** Induction over nodes *)

Lemma Node_induction (P : Node -> Prop)
    (HAil : forall a s, P (AilBlock a s))
    (HVex : forall a s, P (VexBlock a s))
    (HMulti : forall a nodes, Forall P nodes -> P (MultiNode a nodes))
    (HRegion : forall a, P (GraphRegion a))
    (HSeq : forall nodes, Forall P nodes -> P (SequenceNode nodes))
    (HCode : forall n rc, P n -> P (CodeNode n rc))
    (HCond : forall a rc c t f,
        P t -> (forall f', f = Some f' -> P f') -> P (ConditionNode a rc c t f))
    (HLoop : forall s c body a, Forall P body -> P (LoopNode s c body a))
    (HBreak : forall a t, P (BreakNode a t))
    (HCBreak : forall a c t, P (ConditionalBreakNode a c t)) :
  forall n, P n.
Proof.
  fix IH 1. intros [a s|a s|a nodes|a|nodes|n rc|a rc c t f|s c body a|a t|a c t].
  - apply HAil.
  - apply HVex.
  - apply HMulti. induction nodes as [|n ns IHns]; constructor; [apply IH|exact IHns].
  - apply HRegion.
  - apply HSeq. induction nodes as [|n ns IHns]; constructor; [apply IH|exact IHns].
  - apply HCode. apply IH.
  - apply HCond; [apply IH|]. destruct f as [f0|]; intros f' [= <-]. apply IH.
  - apply HLoop. induction body as [|n ns IHns]; constructor; [apply IH|exact IHns].
  - apply HBreak.
  - apply HCBreak.
Qed.

(** ** The last statement of a node, read and removed *)

(** The equations of [_get_last_statement] and [_remove_last_statement]
    on the child list of a compound node. *)
Definition last_statement_in (l : list Node) : result (option Stmt) :=
  match last l with
  | Some n => _get_last_statement n
  | None => Ok None
  end.

Definition scan_backwards (l : list Node) : option (result (option Stmt)) :=
  foldr (fun n later => try_earlier later (_get_last_statement n)) None l.

Definition remove_in_last (l : list Node) : result (list Node * option Stmt) :=
  match last l with
  | None => Ok ([], None)
  | Some n =>
      match _remove_last_statement n with
      | Ok (n', s) => Ok (removelast l ++ [n'], s)
      | Raise e => Raise e
      end
  end.

Lemma get_last_statement_Sequence (nodes : list Node) :
  _get_last_statement (SequenceNode nodes) = last_statement_in nodes.
Proof.
  unfold last_statement_in. simpl.
  induction nodes as [|n [|n' ns] IH]; try reflexivity.
  exact IH.
Qed.

Lemma get_last_statement_Loop s c (body : list Node) a :
  _get_last_statement (LoopNode s c body a) = last_statement_in body.
Proof.
  unfold last_statement_in. simpl.
  induction body as [|n [|n' ns] IH]; try reflexivity.
  exact IH.
Qed.

Lemma get_last_statement_Multi a (nodes : list Node) :
  _get_last_statement (MultiNode a nodes) =
  match scan_backwards nodes with
  | Some r => r
  | None => Ok None
  end.
Proof.
  unfold scan_backwards. simpl.
  match goal with
  | |- match ?f nodes with _ => _ end = _ =>
      assert (Heq : f nodes = foldr (fun n later =>
                try_earlier later (_get_last_statement n)) None nodes)
  end.
  { induction nodes as [|n ns IH]; [reflexivity|]. simpl. rewrite IH. reflexivity. }
  rewrite Heq. reflexivity.
Qed.

Lemma remove_in_last_fix (nodes : list Node) :
  (fix in_last (l : list Node) : result (list Node * option Stmt) :=
     match l with
     | [] => Ok ([], None)
     | n :: l' =>
         match l' with
         | [] =>
             match _remove_last_statement n with
             | Ok (n', s) => Ok ([n'], s)
             | Raise e => Raise e
             end
         | _ :: _ =>
             match in_last l' with
             | Ok (l'', s) => Ok (n :: l'', s)
             | Raise e => Raise e
             end
         end
     end) nodes = remove_in_last nodes.
Proof.
  match goal with |- ?f nodes = _ => set (F := f) end.
  assert (Hstep : forall n n' ns,
             F (n :: n' :: ns) =
             match F (n' :: ns) with
             | Ok (l'', s) => Ok (n :: l'', s)
             | Raise e => Raise e
             end) by reflexivity.
  induction nodes as [|n ns IH]; [reflexivity|].
  destruct ns as [|n' ns].
  - unfold remove_in_last. simpl.
    destruct (_remove_last_statement n) as [[? ?]|]; reflexivity.
  - rewrite Hstep, IH. unfold remove_in_last.
    change (last (n :: n' :: ns)) with (last (n' :: ns)).
    destruct (last (n' :: ns)) as [x|] eqn:Hl.
    + destruct (_remove_last_statement x) as [[? ?]|]; reflexivity.
    + apply last_None in Hl. discriminate.
Qed.

Lemma remove_last_statement_Sequence (nodes : list Node) :
  _remove_last_statement (SequenceNode nodes) =
  match remove_in_last nodes with
  | Ok (nodes', s) => Ok (SequenceNode nodes', s)
  | Raise e => Raise e
  end.
Proof. simpl. rewrite remove_in_last_fix. reflexivity. Qed.

Lemma remove_last_statement_Multi a (nodes : list Node) :
  _remove_last_statement (MultiNode a nodes) =
  match remove_in_last nodes with
  | Ok (nodes', s) => Ok (MultiNode a nodes', s)
  | Raise e => Raise e
  end.
Proof. simpl. rewrite remove_in_last_fix. reflexivity. Qed.

Lemma last_snoc_inv {A} (l : list A) (x : A) :
  last l = Some x -> l = removelast l ++ [x].
Proof.
  destruct l as [|y ys] using rev_ind; [discriminate|].
  rewrite last_snoc. intros [= ->]. rewrite removelast_last. reflexivity.
Qed.

Lemma scan_backwards_found (l : list Node) (r : result (option Stmt)) :
  foldr (fun n later => try_earlier later (_get_last_statement n)) (Some r) l
  = Some r.
Proof. induction l as [|n ns IH]; simpl; [reflexivity|]. rewrite IH. reflexivity. Qed.

Lemma scan_backwards_last (l : list Node) (x : Node) (s : option Stmt) :
  last l = Some x -> _get_last_statement x = Ok s ->
  scan_backwards l = Some (Ok s).
Proof.
  intros Hl Hx. apply last_snoc_inv in Hl. rewrite Hl.
  unfold scan_backwards. rewrite foldr_app. simpl. rewrite Hx. simpl.
  apply scan_backwards_found.
Qed.

(** What [_remove_last_statement] removes is what [_get_last_statement]
    reads. *)
Lemma remove_then_get (n : Node) :
  forall n' s, _remove_last_statement n = Ok (n', s) ->
               _get_last_statement n = Ok s.
Proof.
  induction n using Node_induction; intros n' s0; try discriminate.
  - simpl. destruct (last s) as [x|]; [|discriminate]. intros [= <- <-]. reflexivity.
  - rewrite remove_last_statement_Multi, get_last_statement_Multi.
    unfold remove_in_last.
    destruct (last nodes) as [x|] eqn:Hl.
    + destruct (_remove_last_statement x) as [[x' sx]|] eqn:Hx; [|discriminate].
      intros [= <- <-].
      assert (Hin : x ∈ nodes).
      { apply last_snoc_inv in Hl. rewrite Hl. set_solver. }
      rewrite Forall_forall in H. specialize (H x Hin _ _ Hx).
      rewrite (scan_backwards_last _ _ _ Hl H). reflexivity.
    + intros [= <- <-]. apply last_None in Hl. subst nodes. reflexivity.
  - rewrite remove_last_statement_Sequence, get_last_statement_Sequence.
    unfold remove_in_last, last_statement_in.
    destruct (last nodes) as [x|] eqn:Hl.
    + destruct (_remove_last_statement x) as [[x' sx]|] eqn:Hx; [|discriminate].
      intros [= <- <-].
      assert (Hin : x ∈ nodes).
      { apply last_snoc_inv in Hl. rewrite Hl. set_solver. }
      rewrite Forall_forall in H. exact (H x Hin _ _ Hx).
    + intros [= <- <-]. reflexivity.
  - simpl. destruct (_remove_last_statement n) as [[x' sx]|] eqn:Hx; [|discriminate].
    intros [= <- <-]. eapply IHn. reflexivity.
Qed.

Lemma statements_of_list (nodes : list Node) :
  (fix of_list (l : list Node) : list Stmt :=
     match l with
     | [] => []
     | n :: l' => statements_of n ++ of_list l'
     end) nodes = concat (statements_of <$> nodes).
Proof. induction nodes as [|n ns IH]; [reflexivity|]. simpl. rewrite IH. reflexivity. Qed.

Lemma statements_of_Sequence (nodes : list Node) :
  statements_of (SequenceNode nodes) = concat (statements_of <$> nodes).
Proof. simpl. apply statements_of_list. Qed.

Lemma statements_of_Multi a (nodes : list Node) :
  statements_of (MultiNode a nodes) = concat (statements_of <$> nodes).
Proof. simpl. apply statements_of_list. Qed.

Lemma statements_after_remove_in_last (nodes nodes' : list Node) (s : Stmt) :
  Forall (fun n => forall n' s, _remove_last_statement n = Ok (n', Some s) ->
                     statements_of n = statements_of n' ++ [s]) nodes ->
  remove_in_last nodes = Ok (nodes', Some s) ->
  concat (statements_of <$> nodes) = concat (statements_of <$> nodes') ++ [s].
Proof.
  intros HF. unfold remove_in_last.
  destruct (last nodes) as [x|] eqn:Hl; [|discriminate].
  destruct (_remove_last_statement x) as [[x' sx]|] eqn:Hx; [|discriminate].
  intros [= <- ->].
  assert (Hin : x ∈ nodes).
  { apply last_snoc_inv in Hl. rewrite Hl. set_solver. }
  rewrite Forall_forall in HF. specialize (HF x Hin _ _ Hx).
  rewrite (last_snoc_inv _ _ Hl) at 1.
  rewrite !fmap_app, !concat_app. simpl. rewrite !app_nil_r, HF.
  rewrite app_assoc. reflexivity.
Qed.

(** The statement removed is the last one of the node. *)
Lemma remove_last_statement_strips (n : Node) :
  forall n' s, _remove_last_statement n = Ok (n', Some s) ->
               statements_of n = statements_of n' ++ [s].
Proof.
  induction n using Node_induction; intros n' s0; try discriminate.
  - simpl. destruct (last s) as [x|] eqn:Hl; [|discriminate].
    intros [= <- <-]. simpl. apply last_snoc_inv. exact Hl.
  - rewrite remove_last_statement_Multi.
    destruct (remove_in_last nodes) as [[nodes' sx]|] eqn:Hr; [|discriminate].
    intros [= <- ->]. rewrite !statements_of_Multi.
    eapply statements_after_remove_in_last; eauto.
  - rewrite remove_last_statement_Sequence.
    destruct (remove_in_last nodes) as [[nodes' sx]|] eqn:Hr; [|discriminate].
    intros [= <- ->]. rewrite !statements_of_Sequence.
    eapply statements_after_remove_in_last; eauto.
  - simpl. destruct (_remove_last_statement n) as [[x' sx]|] eqn:Hx; [|discriminate].
    intros [= <- ->]. simpl. eapply IHn. reflexivity.
Qed.

Lemma ends_in_statement_list (nodes : list Node) :
  (fix in_last (l : list Node) : bool :=
     match l with
     | [] => false
     | n :: l' =>
         match l' with
         | [] => ends_in_statement n
         | _ :: _ => in_last l'
         end
     end) nodes =
  match last nodes with
  | Some x => ends_in_statement x
  | None => false
  end.
Proof.
  match goal with |- ?f nodes = _ => set (F := f) end.
  induction nodes as [|n ns IH]; [reflexivity|].
  destruct ns as [|n' ns]; [reflexivity|].
  change (F (n :: n' :: ns)) with (F (n' :: ns)). rewrite IH. reflexivity.
Qed.

(** On a chain that ends in a statement, the removal returns. *)
Lemma ends_in_statement_removes (n : Node) :
  ends_in_statement n = Datatypes.true ->
  exists n' s, _remove_last_statement n = Ok (n', Some s).
Proof.
  induction n using Node_induction; try discriminate.
  - simpl. destruct s as [|x xs]; [discriminate|]. intros _.
    destruct (last (x :: xs)) as [y|] eqn:Hl; [eauto|].
    apply last_None in Hl. discriminate.
  - simpl ends_in_statement. rewrite ends_in_statement_list.
    rewrite remove_last_statement_Multi. unfold remove_in_last.
    destruct (last nodes) as [x|] eqn:Hl; [|discriminate].
    intros Hx.
    assert (Hin : x ∈ nodes).
    { apply last_snoc_inv in Hl. rewrite Hl. set_solver. }
    rewrite Forall_forall in H. destruct (H x Hin Hx) as (x' & s & ->). eauto.
  - simpl ends_in_statement. rewrite ends_in_statement_list.
    rewrite remove_last_statement_Sequence. unfold remove_in_last.
    destruct (last nodes) as [x|] eqn:Hl; [|discriminate].
    intros Hx.
    assert (Hin : x ∈ nodes).
    { apply last_snoc_inv in Hl. rewrite Hl. set_solver. }
    rewrite Forall_forall in H. destruct (H x Hin Hx) as (x' & s & ->). eauto.
  - simpl. intros Hx. destruct (IHn Hx) as (x' & s & ->). eauto.
Qed.

Lemma ends_in_statement_agree (n : Node) (s : Stmt) :
  ends_in_statement n = Datatypes.true ->
  _get_last_statement n = Ok (Some s) ->
  exists n', _remove_last_statement n = Ok (n', Some s) /\
             statements_of n = statements_of n' ++ [s].
Proof.
  intros Hchain Hget.
  destruct (ends_in_statement_removes n Hchain) as (n' & s' & Hrem).
  pose proof (remove_then_get n _ _ Hrem) as Hget'.
  rewrite Hget in Hget'. injection Hget' as <-.
  exists n'. split; [exact Hrem|].
  apply remove_last_statement_strips. exact Hrem.
Qed.

(** ** Breaks made while the loop body is built *)

(** X22: the conversion of one exit.  Let [last_stmt] be the trailing
    statement of a visited node, one
    of whose targets is a loop successor, on a node where the chain of
    last children ends in that statement.  The statement is removed from
    the node.  A Jump gives a BreakNode with the address of the jump and
    its target.  A ConditionalJump whose true target is a loop successor
    and whose false target is an address of the region gives a
    ConditionalBreakNode on the translated condition with the true
    target; otherwise, when the false target is a loop successor and the
    true target an address of the region, a ConditionalBreakNode on the
    negation of the translated condition with the false target;
    otherwise the conversion raises Exception and returns nothing. *)
Theorem exit_conversion_makes_breaks (node : Node)
    (loop_successor_addrs loop_nodes : list (option Z)) (st : TState)
    (last_stmt : Stmt)
    (Hlast : _get_last_statement node = Ok (Some last_stmt))
    (Hexit : existsb (fun a => addr_in a loop_successor_addrs)
               (_extract_jump_targets (Some last_stmt)) = Datatypes.true)
    (Hchain : ends_in_statement node = Datatypes.true) :
  exists node',
    _remove_last_statement node = Ok (node', Some last_stmt) /\
    statements_of node = statements_of node' ++ [last_stmt] /\
    match last_stmt with
    | Jump _ target ins_addr =>
        exit_conversion node loop_successor_addrs loop_nodes st =
        Ok (node', Some (BreakNode ins_addr target), st)
    | ConditionalJump _ condition true_target false_target ins_addr =>
        if addr_in true_target loop_successor_addrs &&
           addr_in false_target loop_nodes
        then
          exit_conversion node loop_successor_addrs loop_nodes st =
          match _bool_variable_from_ail_condition condition st with
          | Ok (bool_var, st') =>
              Ok (node',
                  Some (ConditionalBreakNode ins_addr (ClaripyAST bool_var)
                          true_target), st')
          | Raise e => Raise e
          end
        else if addr_in false_target loop_successor_addrs &&
                addr_in true_target loop_nodes
        then
          exit_conversion node loop_successor_addrs loop_nodes st =
          match _bool_variable_from_ail_condition condition st with
          | Ok (bool_var, st') =>
              Ok (node',
                  Some (ConditionalBreakNode ins_addr
                          (ClaripyAST (claripy.Not bool_var)) false_target),
                  st')
          | Raise e => Raise e
          end
        else
          exit_conversion node loop_successor_addrs loop_nodes st =
          Raise Exception_
    | OtherStmt _ => True
    end.
Proof.
  destruct (ends_in_statement_agree node last_stmt Hchain Hlast)
    as (node' & Hrem & Hstmts).
  exists node'. split; [exact Hrem|]. split; [exact Hstmts|].
  unfold exit_conversion. rewrite Hlast, Hexit.
  destruct last_stmt as [i t a|i c t f a|tag]; [| |exact I].
  - rewrite Hrem. reflexivity.
  - destruct (addr_in t loop_successor_addrs && addr_in f loop_nodes).
    + rewrite Hrem.
      destruct (_bool_variable_from_ail_condition c st) as [[? ?]|]; reflexivity.
    + destruct (addr_in f loop_successor_addrs && addr_in t loop_nodes);
        [|reflexivity].
      rewrite Hrem. simpl.
      destruct (_bool_variable_from_ail_condition c st) as [[? ?]|]; reflexivity.
Qed.

(** ** The trailing jump of a structured loop body *)

(** C6: when the trailing statement of the structured body is a Jump,
    the end of the loop-body construction raises Exception if the target
    is not the address of the loop head; if it is, whatever body is
    returned has that jump removed from the end of its statements
    (before the empty nodes are dropped), and a body is returned
    whenever the chain of last children of the sequence ends in the
    statement. *)
Theorem finish_loop_body_trailing_jump (seq : Node) (loop_head_addr : option Z)
    (idx : option Z) (target ins_addr : Z)
    (Hlast : _get_last_statement seq = Ok (Some (Jump idx target ins_addr))) :
  (Some target <> loop_head_addr ->
   finish_loop_body seq loop_head_addr = Raise Exception_) /\
  (Some target = loop_head_addr ->
   (forall body, finish_loop_body seq loop_head_addr = Ok body ->
      exists nodes',
        _remove_last_statement seq =
          Ok (SequenceNode nodes', Some (Jump idx target ins_addr)) /\
        statements_of seq =
          statements_of (SequenceNode nodes') ++ [Jump idx target ins_addr] /\
        body = SequenceNode (remove_empty_node nodes')) /\
   (ends_in_statement seq = Datatypes.true ->
    (exists nodes, seq = SequenceNode nodes) ->
    returns (finish_loop_body seq loop_head_addr))).
Proof.
  unfold finish_loop_body. rewrite Hlast. split.
  - intros Hne. rewrite bool_decide_eq_false_2 by exact Hne. reflexivity.
  - intros Heq. rewrite bool_decide_eq_true_2 by exact Heq. split.
    + intros body.
      destruct (_remove_last_statement seq) as [[seq' s]|] eqn:Hrem;
        [|discriminate].
      pose proof (remove_then_get seq _ _ Hrem) as Hget.
      rewrite Hlast in Hget. injection Hget as <-.
      destruct seq'; try discriminate. intros [= <-].
      exists nodes. split; [reflexivity|]. split; [|reflexivity].
      apply remove_last_statement_strips. exact Hrem.
    + intros Hchain [nodes ->].
      destruct (ends_in_statement_agree _ _ Hchain Hlast) as (n' & Hrem & _).
      rewrite remove_last_statement_Sequence in Hrem.
      rewrite remove_last_statement_Sequence.
      destruct (remove_in_last nodes) as [[nodes' s]|]; [|discriminate].
      unfold returns. eauto.
Qed.

(** ** Reaching conditions *)

Lemma over_predecessors_disjunction ec rcs (n : nat) (preds : list nat)
    (terms : list AST) :
  over_predecessors ec rcs n preds (disjunction terms) =
  disjunction (rev (reaching_term ec rcs n <$> preds) ++ terms).
Proof.
  unfold over_predecessors. revert terms.
  induction preds as [|p ps IH]; intros terms; [reflexivity|].
  simpl foldl.
  change (foldl ?f ?a ps) with (foldl f a ps).
  replace (match disjunction terms with
           | Some rc =>
               Some (claripy.Or
                       (claripy.And (default claripy.true (rcs !! p))
                          (default claripy.true (ec !! (p, n)))) rc)
           | None =>
               Some (claripy.And (default claripy.true (rcs !! p))
                       (default claripy.true (ec !! (p, n))))
           end)
    with (disjunction (reaching_term ec rcs n p :: terms)).
  - rewrite IH. simpl. rewrite <- app_assoc. reflexivity.
  - simpl. unfold reaching_term. destruct (disjunction terms); reflexivity.
Qed.

Lemma over_predecessors_ext ec rcs1 rcs2 (n : nat) (preds : list nat) acc :
  (forall p, p ∈ preds -> rcs1 !! p = rcs2 !! p) ->
  over_predecessors ec rcs1 n preds acc = over_predecessors ec rcs2 n preds acc.
Proof.
  unfold over_predecessors. revert acc.
  induction preds as [|p ps IH]; intros acc Hagree; [reflexivity|].
  simpl. rewrite (Hagree p) by set_solver.
  apply IH. intros q Hq. apply Hagree. set_solver.
Qed.

Lemma disjunction_nonempty (terms : list AST) :
  terms <> [] -> is_Some (disjunction terms).
Proof.
  destruct terms as [|t ts]; [congruence|]. intros _. simpl.
  destruct (disjunction ts); eauto.
Qed.

Lemma visit_node_other (r : Region) ec rcs (n k : nat) :
  k <> n -> visit_node r ec rcs n !! k = rcs !! k.
Proof.
  intros Hne. unfold visit_node.
  destruct (if decide (n = region_head r) then _ else _); [|reflexivity].
  apply lookup_insert_ne. congruence.
Qed.

Lemma visit_nodes_other (r : Region) ec (l : list nat) rcs (k : nat) :
  k ∉ l -> foldl (visit_node r ec) rcs l !! k = rcs !! k.
Proof.
  revert rcs. induction l as [|n ns IH]; intros rcs Hk; [reflexivity|].
  simpl. rewrite IH by set_solver. apply visit_node_other. set_solver.
Qed.

(** The entry of a visited node is the one written at its visit, when
    the node is visited once. *)
Lemma visit_nodes_at (r : Region) ec (l1 l2 : list nat) (n : nat) :
  NoDup (l1 ++ n :: l2) ->
  foldl (visit_node r ec) ∅ (l1 ++ n :: l2) !! n =
  visit_node r ec (foldl (visit_node r ec) ∅ l1) n !! n /\
  forall p, p ∈ l1 ->
    foldl (visit_node r ec) ∅ (l1 ++ n :: l2) !! p =
    foldl (visit_node r ec) ∅ l1 !! p.
Proof.
  intros Hnd. apply NoDup_app in Hnd as (Hnd1 & Hdisj & Hnd2).
  apply NoDup_cons in Hnd2 as [Hn Hnd2].
  rewrite foldl_app. simpl. split.
  - apply visit_nodes_other. exact Hn.
  - intros p Hp. specialize (Hdisj p Hp).
    rewrite visit_nodes_other by set_solver.
    apply visit_node_other. set_solver.
Qed.

Lemma recover_edge_conditions_source (r : Region) (es : list (nat * nat)) :
  forall ec pm st ec' pm' st',
    recover_edge_conditions r es ec pm st = Ok (ec', pm', st') ->
    (forall e, e ∈ es -> is_Some (ec' !! e)) /\
    (forall e c, ec' !! e = Some c ->
       ec !! e = Some c \/
       exists s1 s2,
         _extract_predicate (node_at r e.1) (node_at r e.2) s1 = Ok (c, s2)).
Proof.
  induction es as [|[src dst] es IH]; intros ec pm st ec' pm' st'; simpl.
  - intros [= <- <- <-]. split; [set_solver|auto].
  - destruct (_extract_predicate (node_at r src) (node_at r dst) st)
      as [[predicate st1]|] eqn:Hx; [|discriminate].
    intros Hrec. destruct (IH _ _ _ _ _ _ Hrec) as [Hall Hsrc]. split.
    + intros e He. apply elem_of_cons in He as [->|He]; [|auto].
      destruct (decide ((src, dst) ∈ es)) as [Hin|Hnin]; [auto|].
      clear Hall Hsrc IH.
      assert (Hkeep : forall es ec pm st ec' pm' st' k,
                 recover_edge_conditions r es ec pm st = Ok (ec', pm', st') ->
                 is_Some (ec !! k) -> is_Some (ec' !! k)).
      { clear. intros es. induction es as [|[a b] es IH]; simpl;
          intros ec pm st ec' pm' st' k.
        - intros [= <- <- <-]. auto.
        - destruct (_extract_predicate _ _ st) as [[q s1]|]; [|discriminate].
          intros Hrec Hk. eapply IH; [exact Hrec|].
          destruct (decide ((a, b) = k)) as [->|Hne].
          + rewrite lookup_insert_eq. eauto.
          + rewrite lookup_insert_ne by exact Hne. exact Hk. }
      eapply Hkeep; [exact Hrec|]. rewrite lookup_insert_eq. eauto.
    + intros e c Hc. destruct (Hsrc e c Hc) as [Hold|Hnew]; [|auto].
      destruct (decide ((src, dst) = e)) as [<-|Hne].
      * rewrite lookup_insert_eq in Hold. injection Hold as <-.
        right. simpl. eauto.
      * rewrite lookup_insert_ne in Hold by exact Hne. auto.
Qed.

Lemma over_predecessors_from_None ec rcs (n : nat) (preds : list nat) :
  over_predecessors ec rcs n preds None =
  disjunction (rev (reaching_term ec rcs n <$> preds)).
Proof.
  rewrite <- (app_nil_r (rev _)).
  exact (over_predecessors_disjunction ec rcs n preds []).
Qed.

Lemma visit_node_at (r : Region) ec rcs (n : nat) (c : AST) :
  n <> region_head r ->
  over_predecessors ec rcs n (predecessors (region_graph r) n) None = Some c ->
  visit_node r ec rcs n !! n = Some (_simplify_condition c).
Proof.
  intros Hn Hc. unfold visit_node. rewrite decide_False by exact Hn.
  rewrite Hc. apply lookup_insert_eq.
Qed.

Lemma visit_node_at_head (r : Region) ec rcs :
  visit_node r ec rcs (region_head r) !! region_head r =
  Some (_simplify_condition claripy.true).
Proof.
  unfold visit_node. rewrite decide_True by reflexivity.
  apply lookup_insert_eq.
Qed.

Lemma edges_in_visit_order_complete (g : DiGraph) (p n : nat) :
  p ∈ g_nodes g -> p ∈ predecessors g n -> (p, n) ∈ edges_in_visit_order g.
Proof.
  intros Hp Hpred. unfold edges_in_visit_order.
  apply list_elem_of_bind. exists p. split; [|exact Hp].
  apply list_elem_of_fmap. exists n. split; [reflexivity|].
  unfold predecessors in Hpred. unfold successors.
  apply list_elem_of_fmap in Hpred as ([a b] & -> & Hin).
  apply list_elem_of_filter in Hin as [Hb Hin]. simpl in *. subst b.
  apply list_elem_of_fmap. exists (a, n). split; [reflexivity|].
  apply list_elem_of_filter. auto.
Qed.

(** C1: on a region whose nodes are visited in a topological order (each
    node once, every predecessor of a node before the node), in which
    every node but the head has a predecessor, the reaching condition of
    the head is claripy.true, and for every other node [n] each
    predecessor has a reaching condition, each edge into [n] has the
    edge condition [_extract_predicate] returned for it, and the
    reaching condition of [n] is the simplification of the OR over its
    predecessors [p] of reaching_condition(p) AND edge_condition(p, n). *)
Theorem reaching_conditions_recovered (r : Region) (order : list nat)
    (st st' : TState) (conds : Conditions)
    (Hsimplify : claripy.simplify claripy.true = claripy.true)
    (Hconstant : claripy.symbolic claripy.true = false)
    (Hall : order ≡ₚ g_nodes (region_graph r))
    (Honce : NoDup order)
    (Htopo : forall l1 n l2, order = l1 ++ n :: l2 ->
               forall p, p ∈ predecessors (region_graph r) n -> p ∈ l1)
    (Hreached : forall n, n ∈ order -> n <> region_head r ->
                  predecessors (region_graph r) n <> [])
    (Hrun : _recover_reaching_conditions r order st = Ok (conds, st')) :
  let rc := _reaching_conditions conds in
  let ec := _edge_conditions conds in
  (region_head r ∈ order -> rc !! region_head r = Some claripy.true) /\
  (forall n, n ∈ order -> n <> region_head r ->
     (forall p, p ∈ predecessors (region_graph r) n ->
        is_Some (rc !! p) /\
        exists c s1 s2,
          ec !! (p, n) = Some c /\
          _extract_predicate (node_at r p) (node_at r n) s1 = Ok (c, s2)) /\
     exists c,
       disjunction
         (rev (reaching_term ec rc n <$> predecessors (region_graph r) n))
       = Some c /\
       rc !! n = Some (_simplify_condition c)).
Proof.
  unfold _recover_reaching_conditions in Hrun.
  destruct (recover_edge_conditions r _ ∅ [] st) as [[[ec0 pm] st1]|] eqn:Hedges;
    [|discriminate].
  injection Hrun as <- <-. simpl.
  destruct (recover_edge_conditions_source _ _ _ _ _ _ _ _ Hedges)
    as [Hec_all Hec_src].
  set (rcF := foldl (visit_node r ec0) ∅ order).
  assert (Hhead : forall l1 l2, order = l1 ++ region_head r :: l2 ->
                    rcF !! region_head r = Some claripy.true).
  { intros l1 l2 Ho. subst rcF. rewrite Ho.
    rewrite Ho in Honce. destruct (visit_nodes_at r ec0 _ _ _ Honce) as [-> _].
    rewrite visit_node_at_head. unfold _simplify_condition.
    rewrite Hsimplify, Hconstant. reflexivity. }
  assert (Hnode : forall l1 n l2, order = l1 ++ n :: l2 -> n <> region_head r ->
            exists c,
              disjunction
                (rev (reaching_term ec0 rcF n <$> predecessors (region_graph r) n))
              = Some c /\ rcF !! n = Some (_simplify_condition c)).
  { intros l1 n l2 Ho Hn.
    assert (Hin : n ∈ order) by (rewrite Ho; set_solver).
    pose proof (Hreached n Hin Hn) as Hpreds.
    pose proof (Htopo _ _ _ Ho) as Hbefore.
    subst rcF. rewrite Ho. rewrite Ho in Honce.
    destruct (visit_nodes_at r ec0 _ _ _ Honce) as [Hat Hprev].
    rewrite Hat.
    destruct (disjunction_nonempty
                (rev (reaching_term ec0
                        (foldl (visit_node r ec0) ∅ (l1 ++ n :: l2)) n <$>
                      predecessors (region_graph r) n))) as [c Hc].
    { intros Hnil. apply (f_equal length) in Hnil.
      rewrite length_rev, length_fmap in Hnil.
      destruct (predecessors (region_graph r) n); [congruence|discriminate]. }
    exists c. split; [exact Hc|].
    apply visit_node_at; [exact Hn|].
    rewrite (over_predecessors_ext ec0 _
               (foldl (visit_node r ec0) ∅ (l1 ++ n :: l2)))
      by (intros p Hp; symmetry; apply Hprev, Hbefore, Hp).
    rewrite over_predecessors_from_None. exact Hc. }
  split.
  - intros Hin. apply list_elem_of_split in Hin as (l1 & l2 & Ho). eauto.
  - intros n Hin Hn.
    destruct (list_elem_of_split _ _ Hin) as (l1 & l2 & Ho). split.
    + intros p Hp.
      assert (Hpo : p ∈ order).
      { rewrite Ho. apply elem_of_app. left. exact (Htopo _ _ _ Ho p Hp). }
      split.
      * destruct (list_elem_of_split _ _ Hpo) as (k1 & k2 & Hk).
        destruct (decide (p = region_head r)) as [->|Hph].
        -- rewrite (Hhead _ _ Hk). eauto.
        -- destruct (Hnode _ _ _ Hk Hph) as (c & _ & ->). eauto.
      * assert (Hpn : p ∈ g_nodes (region_graph r)) by (rewrite <- Hall; exact Hpo).
        pose proof (edges_in_visit_order_complete _ _ _ Hpn Hp) as He.
        destruct (Hec_all _ He) as [c Hc].
        destruct (Hec_src _ _ Hc) as [Hold|(s1 & s2 & Hx)].
        -- rewrite lookup_empty in Hold. discriminate.
        -- exists c, s1, s2. auto.
    + eauto.
Qed.

(** ** The mapping of a nested structurer *)

Lemma Activity_induction (P : Activity -> Prop)
    (HT : forall c, P (Translate c))
    (HL : forall body, Forall P body -> P (StructureLoopBody body)) :
  forall a, P a.
Proof.
  fix IH 1. intros [c|body].
  - apply HT.
  - apply HL. induction body as [|a l IHl]; constructor; [apply IH|exact IHl].
Qed.

Lemma perform_StructureLoopBody (self_mapping : nat) (body : list Activity)
    (h : Store) :
  perform self_mapping (StructureLoopBody body) h =
  perform_all (dict_copy self_mapping h).1 body (dict_copy self_mapping h).2.
Proof.
  unfold dict_copy, new_dict. simpl.
  match goal with
  | |- _ body ?s = perform_all ?l body ?s => generalize s; generalize l
  end.
  intros sub. induction body as [|a l IH]; intros h0; [reflexivity|].
  simpl. destruct (perform sub a h0); [apply IH|reflexivity].
Qed.

Lemma dict_copy_fresh (l : nat) (h : Store) :
((dict_copy l h).1 ∉ dom (dicts h)) /\
  mapping_at (dict_copy l h).1 (dict_copy l h).2 = mapping_at l h /\
  dom (dicts (dict_copy l h).2) = {[(dict_copy l h).1]} ∪ dom (dicts h) /\
  forall k, k ∈ dom (dicts h) ->
    dicts (dict_copy l h).2 !! k = dicts h !! k.
Proof.
  unfold dict_copy, new_dict, mapping_at. simpl.
  pose proof (is_fresh (dom (dicts h))) as Hfresh.
  split; [exact Hfresh|]. split; [|split].
  - rewrite lookup_insert_eq. reflexivity.
  - apply dom_insert_L.
  - intros k Hk. apply lookup_insert_ne. intros <-. contradiction.
Qed.

(** A structurer writes to its own mapping and to the mappings it
    creates, and to no other. *)
Lemma perform_frame (a : Activity) :
  forall self_mapping h h',
    self_mapping ∈ dom (dicts h) ->
    perform self_mapping a h = Ok h' ->
    dom (dicts h) ⊆ dom (dicts h') /\
    forall l, l ∈ dom (dicts h) -> l <> self_mapping ->
      dicts h' !! l = dicts h !! l.
Proof.
  induction a as [c|body IH] using Activity_induction;
    intros self_mapping h h' Hself.
  - simpl. unfold translate_in.
    destruct (_bool_variable_from_ail_condition c _) as [[v st']|]; [|discriminate].
    intros [= <-]. simpl. split.
    + rewrite dom_insert. set_solver.
    + intros l _ Hne. apply lookup_insert_ne. congruence.
  - rewrite perform_StructureLoopBody.
    destruct (dict_copy_fresh self_mapping h) as (Hfresh & _ & Hdom & Hkeep).
    set (sub := (dict_copy self_mapping h).1) in *.
    set (h1 := (dict_copy self_mapping h).2) in *.
    intros Hrun.
    assert (Hall : forall l h0 h0',
               Forall (fun a => forall self_mapping h h',
                         self_mapping ∈ dom (dicts h) ->
                         perform self_mapping a h = Ok h' ->
                         dom (dicts h) ⊆ dom (dicts h') /\
                         forall l, l ∈ dom (dicts h) -> l <> self_mapping ->
                           dicts h' !! l = dicts h !! l) l ->
               sub ∈ dom (dicts h0) ->
               perform_all sub l h0 = Ok h0' ->
               dom (dicts h0) ⊆ dom (dicts h0') /\
               forall k, k ∈ dom (dicts h0) -> k <> sub ->
                 dicts h0' !! k = dicts h0 !! k).
    { clear. intros l. induction l as [|a l IHl]; intros h0 h0' HF Hsub; simpl.
      - intros [= <-]. auto.
      - apply Forall_cons in HF as [Ha HF].
        destruct (perform sub a h0) as [h1|] eqn:Hp; [|discriminate].
        intros Hrest. destruct (Ha _ _ _ Hsub Hp) as [Hd1 Hk1].
        destruct (IHl h1 h0' HF (Hd1 _ Hsub) Hrest) as [Hd2 Hk2].
        split; [set_solver|].
        intros k Hk Hne. rewrite Hk2 by auto. auto. }
    destruct (Hall body h1 h' IH) as [Hd Hk]; [rewrite Hdom; set_solver|exact Hrun|].
    split.
    + rewrite Hdom in Hd. set_solver.
    + intros l Hl _. rewrite Hk.
      * apply Hkeep. exact Hl.
      * rewrite Hdom. set_solver.
      * intros ->. contradiction.
Qed.

(** The variable of a condition is fixed by the condition and by the
    counter claripy names temporaries with; the mapping has no part in
    it. *)
Lemma translation_ignores_mapping (e : Expr) :
  forall st1 st2 v s1,
    bvs_counter st1 = bvs_counter st2 ->
    _bool_variable_from_ail_condition e st1 = Ok (v, s1) ->
    exists s2, _bool_variable_from_ail_condition e st2 = Ok (v, s2) /\
               bvs_counter s2 = bvs_counter s1.
Proof.
  induction e; intros st1 st2 v s1 Hc; simpl.
  - intros [= <- <-]. eauto.
  - destruct (bits =? 1); intros [= <- <-]; rewrite ?Hc; simpl; eauto.
  - destruct idx; [|discriminate]. intros [= <- <-]. simpl. eauto.
  - intros [= <- <-]. simpl. eauto.
  - intros [= <- <-]. simpl. eauto.
  - destruct (_bool_variable_from_ail_condition e st1) as [[v1 t1]|] eqn:H1;
      [|discriminate].
    destruct (IHe _ st2 _ _ Hc H1) as (t2 & -> & Ht).
    intros [= <- <-]. simpl. eauto.
  - destruct (String.eqb op "Not").
    + destruct (_bool_variable_from_ail_condition e st1) as [[v1 t1]|] eqn:H1;
        [|discriminate].
      destruct (IHe _ st2 _ _ Hc H1) as (t2 & -> & Ht).
      intros [= <- <-]. eauto.
    + destruct (in_mapping_keys op); discriminate.
  - destruct (binary_lambda op).
    + destruct (_bool_variable_from_ail_condition e1 st1) as [[v1 t1]|] eqn:H1;
        [|discriminate].
      destruct (IHe1 _ st2 _ _ Hc H1) as (t2 & -> & Ht).
      destruct (_bool_variable_from_ail_condition e2 t1) as [[v2 u1]|] eqn:H2;
        [|discriminate].
      destruct (IHe2 _ t2 _ _ (eq_sym Ht) H2) as (u2 & -> & Hu).
      intros [= <- <-]. eauto.
    + destruct (String.eqb op "Shr").
      * destruct (_bool_variable_from_ail_condition e1 st1) as [[v1 t1]|] eqn:H1;
          [|discriminate].
        destruct (IHe1 _ st2 _ _ Hc H1) as (t2 & -> & Ht).
        destruct e2; try discriminate. intros [= <- <-]. eauto.
      * destruct (String.eqb op "Not"); discriminate.
  - discriminate.
Qed.

(** The translation of the expression reaches a temporary wider than
    one bit: such a temporary is named with the counter of claripy. *)
Fixpoint meets_wide_temporary (e : Expr) : bool :=
  match e with
  | Tmp _ _ bits => negb (bits =? 1)
  | Convert _ _ _ operand => meets_wide_temporary operand
  | UnaryOp _ _ operand => meets_wide_temporary operand
  | BinaryOp _ _ operand0 operand1 =>
      meets_wide_temporary operand0 || meets_wide_temporary operand1
  | _ => false
  end.

(** Away from wide temporaries, the variable of a condition is fixed by
    the condition alone, and the counter stays where it is. *)
Lemma translation_ignores_state (e : Expr) :
  meets_wide_temporary e = false ->
  forall (st1 st2 : TState) (v : AST) (s1 : TState),
    _bool_variable_from_ail_condition e st1 = Ok (v, s1) ->
    bvs_counter s1 = bvs_counter st1 /\
    exists s2, _bool_variable_from_ail_condition e st2 = Ok (v, s2).
Proof.
  induction e; simpl; intros Hwide st1 st2 v s1.
  - intros [= <- <-]. eauto.
  - apply negb_false_iff in Hwide. rewrite Hwide.
    intros [= <- <-]. simpl. eauto.
  - destruct idx; [|discriminate]. intros [= <- <-]. simpl. eauto.
  - intros [= <- <-]. simpl. eauto.
  - intros [= <- <-]. simpl. eauto.
  - destruct (_bool_variable_from_ail_condition e st1) as [[v1 t1]|] eqn:H1;
      [|discriminate].
    destruct (IHe Hwide _ st2 _ _ H1) as (Hc & t2 & ->).
    intros [= <- <-]. simpl. eauto.
  - destruct (String.eqb op "Not").
    + destruct (_bool_variable_from_ail_condition e st1) as [[v1 t1]|] eqn:H1;
        [|discriminate].
      destruct (IHe Hwide _ st2 _ _ H1) as (Hc & t2 & ->).
      intros [= <- <-]. eauto.
    + destruct (in_mapping_keys op); discriminate.
  - apply orb_false_iff in Hwide as [Hw1 Hw2].
    destruct (binary_lambda op).
    + destruct (_bool_variable_from_ail_condition e1 st1) as [[v1 t1]|] eqn:H1;
        [|discriminate].
      destruct (IHe1 Hw1 _ st2 _ _ H1) as (Hc1 & t2 & ->).
      destruct (_bool_variable_from_ail_condition e2 t1) as [[v2 u1]|] eqn:H2;
        [|discriminate].
      destruct (IHe2 Hw2 _ t2 _ _ H2) as (Hc2 & u2 & ->).
      intros [= <- <-]. split; [congruence|eauto].
    + destruct (String.eqb op "Shr").
      * destruct (_bool_variable_from_ail_condition e1 st1) as [[v1 t1]|] eqn:H1;
          [|discriminate].
        destruct (IHe1 Hw1 _ st2 _ _ H1) as (Hc1 & t2 & ->).
        destruct e2; try discriminate. intros [= <- <-]. eauto.
      * destruct (String.eqb op "Not"); discriminate.
  - discriminate.
Qed.

(** C3, as amended: the structurer of a loop body is created on a copy
    of the mapping of the enclosing structurer.  The copy is a new dict
    that starts with the entries of the enclosing mapping; the
    activities of the body run on it; when they are over the enclosing
    mapping is what it was before, so no entry made for the body has
    been added to it.  A native expression whose translation reaches no
    temporary wider than one bit is translated to the same variable by
    every structurer, whatever its mapping, the store and the counter of
    claripy; any expression is translated to the same variable at the
    same value of the counter; and a temporary wider than one bit gets
    the variable claripy makes from its name and the counter, which the
    translation advances. *)
Theorem loop_body_structurer_maps_on_a_copy (self_mapping : nat)
    (body : list Activity) (h h' : Store)
    (Hself : self_mapping ∈ dom (dicts h))
    (Hrun : perform self_mapping (StructureLoopBody body) h = Ok h') :
  let sub_mapping := (dict_copy self_mapping h).1 in
  let h1 := (dict_copy self_mapping h).2 in
  sub_mapping <> self_mapping /\
  (sub_mapping ∉ dom (dicts h)) /\
  mapping_at sub_mapping h1 = mapping_at self_mapping h /\
  perform_all sub_mapping body h1 = Ok h' /\
  mapping_at self_mapping h' = mapping_at self_mapping h /\
  (forall e l1 l2 h1 h2 v h1',
     meets_wide_temporary e = false ->
     translate_in l1 e h1 = Ok (v, h1') ->
     exists h2', translate_in l2 e h2 = Ok (v, h2')) /\
  (forall e m1 m2 n v s1,
     _bool_variable_from_ail_condition e (mkTState m1 n) = Ok (v, s1) ->
     exists s2,
       _bool_variable_from_ail_condition e (mkTState m2 n) = Ok (v, s2)) /\
  (forall idx tmp_idx bits st,
     bits <> 1 ->
     _bool_variable_from_ail_condition (Tmp idx tmp_idx bits) st =
     Ok (claripy.BVS_unique ("ailtmp_" +:+ pretty tmp_idx) bits (bvs_counter st),
         mkTState
           (dict_set (claripy.BVS_unique ("ailtmp_" +:+ pretty tmp_idx) bits
                        (bvs_counter st))
                     (Tmp idx tmp_idx bits) (mapping st))
           (S (bvs_counter st)))).
Proof.
  cbv zeta.
  destruct (dict_copy_fresh self_mapping h) as (Hfresh & Hcopy & Hdom & Hkeep).
  split; [intros Heq; rewrite Heq in Hfresh; contradiction|].
  split; [exact Hfresh|]. split; [exact Hcopy|].
  split; [rewrite <- perform_StructureLoopBody; exact Hrun|].
  split.
  - pose proof Hrun as Hrun'. rewrite perform_StructureLoopBody in Hrun'.
    unfold mapping_at.
    cut (dicts h' !! self_mapping = dicts h !! self_mapping);
      [intros ->; reflexivity|].
    assert (Hsub : (dict_copy self_mapping h).1 ∈
                   dom (dicts (dict_copy self_mapping h).2))
      by (rewrite Hdom; set_solver).
    assert (Hframe : forall l h0 h0',
               (dict_copy self_mapping h).1 ∈ dom (dicts h0) ->
               perform_all (dict_copy self_mapping h).1 l h0 = Ok h0' ->
               forall k, k ∈ dom (dicts h0) ->
                 k <> (dict_copy self_mapping h).1 ->
                 dicts h0' !! k = dicts h0 !! k).
    { clear. intros l. induction l as [|a l IHl]; intros h0 h0' Hsub; simpl.
      - intros [= <-]. auto.
      - destruct (perform _ a h0) as [h1|] eqn:Hp; [|discriminate].
        intros Hrest k Hk Hne.
        destruct (perform_frame a _ _ _ Hsub Hp) as [Hd1 Hk1].
        rewrite (IHl h1 h0' (Hd1 _ Hsub) Hrest k (Hd1 _ Hk) Hne). auto. }
    rewrite (Hframe _ _ _ Hsub Hrun' self_mapping).
    + apply Hkeep. exact Hself.
    + rewrite Hdom. set_solver.
    + intros Heq. rewrite Heq in Hself. contradiction.
  - split; [|split].
    + intros e l1 l2 h1 h2 v h1' Hwide. unfold translate_in.
      destruct (_bool_variable_from_ail_condition e
                  (mkTState (default [] (dicts h1 !! l1)) (claripy_counter h1)))
        as [[v1 s1]|] eqn:Ht; [|discriminate].
      intros [= <- <-].
      destruct (translation_ignores_state e Hwide _
                  (mkTState (default [] (dicts h2 !! l2)) (claripy_counter h2))
                  _ _ Ht) as (_ & s2 & ->).
      eauto.
    + intros e m1 m2 n v s1 Ht.
      destruct (translation_ignores_mapping e (mkTState m1 n) (mkTState m2 n)
                  v s1 eq_refl Ht) as (s2 & Hs2 & _).
      eauto.
    + intros idx tmp_idx bits st Hbits. simpl.
      destruct (bits =? 1) eqn:Hb; [|reflexivity].
      apply Z.eqb_eq in Hb. contradiction.
Qed.

(** ** The successors a loop body is built with *)

(** Whatever the identification and the refinement of the successors
    give, the loop body is built with at most one successor; with more,
    AssertionError is raised. *)
Lemma loop_body_entered_with_at_most_one_successor (c c' : CyclicRegion)
    (quasi_topological_sort_nodes : DiGraph -> list nat) (st st' : TState)
    (loop_subgraph successors : list nat) :
  analyze_cyclic_until_loop_body c quasi_topological_sort_nodes st =
    Some (Ok (c', loop_subgraph, successors, st')) ->
  (length successors <= 1)%nat.
Proof.
  unfold analyze_cyclic_until_loop_body.
  destruct (_find_loop_nodes_and_successors c) as [[[sub succs]|]|];
    try discriminate.
  destruct (bool_decide (1 < length succs)%nat).
  - destruct (_refine_loop_successors c _ succs st) as [[c1 st1]|];
      [|discriminate].
    destruct (_find_loop_nodes_and_successors c1) as [[[sub' succs']|]|];
      try discriminate.
    destruct (bool_decide (length succs' <= 1)%nat) eqn:Hle; [|discriminate].
    intros [= <- <- <- <-]. apply bool_decide_eq_true in Hle. exact Hle.
  - destruct (bool_decide (length succs <= 1)%nat) eqn:Hle; [|discriminate].
    intros [= <- <- <- <-]. apply bool_decide_eq_true in Hle. exact Hle.
Qed.

(** ** The last statement: reading, removing and appending agree *)



Lemma scan_backwards_app (l1 l2 : list Node) :
  scan_backwards (l1 ++ l2) =
  match scan_backwards l2 with
  | Some r => Some r
  | None => scan_backwards l1
  end.
Proof.
  unfold scan_backwards. rewrite foldr_app.
  destruct (foldr _ None l2) as [r|]; [apply scan_backwards_found|reflexivity].
Qed.

Lemma scan_backwards_all_empty (l : list Node) :
  Forall (fun m => _get_last_statement m = Raise EmptyBlockNotice) l ->
  scan_backwards l = None.
Proof.
  unfold scan_backwards. induction 1 as [|m l Hm _ IH]; [reflexivity|].
  simpl. rewrite IH, Hm. reflexivity.
Qed.

Lemma scan_backwards_never_empty_notice (l : list Node) :
  scan_backwards l <> Some (Raise EmptyBlockNotice).
Proof.
  unfold scan_backwards. induction l as [|m l IH]; [discriminate|].
  simpl. destruct (foldr _ None l) as [r|]; simpl; [exact IH|].
  destruct (_get_last_statement m) as [?|[]]; discriminate.
Qed.

(** X2: the scan of a MultiNode skips the blocks that raise
    EmptyBlockNotice: with only such blocks after [n], the last
    statement of the MultiNode is what [n] gives, unless [n] raises
    EmptyBlockNotice as well, and then it is that of the blocks before
    [n]; EmptyBlockNotice never leaves a MultiNode. *)
Theorem multinode_scan_skips_empty_blocks (a : Z) (before after : list Node)
    (n : Node)
    (Hafter : Forall (fun m => _get_last_statement m = Raise EmptyBlockNotice)
                     after) :
  _get_last_statement (MultiNode a (before ++ n :: after)) =
    match _get_last_statement n with
    | Raise EmptyBlockNotice => _get_last_statement (MultiNode a before)
    | r => r
    end /\
  _get_last_statement (MultiNode a (before ++ n :: after)) <>
    Raise EmptyBlockNotice.
Proof.
  split.
  - rewrite !get_last_statement_Multi.
    change (n :: after) with ([n] ++ after).
    rewrite !scan_backwards_app, (scan_backwards_all_empty _ Hafter).
    unfold scan_backwards at 1. simpl.
    destruct (_get_last_statement n) as [?|[]]; reflexivity.
  - rewrite get_last_statement_Multi.
    pose proof (scan_backwards_never_empty_notice (before ++ n :: after)) as Hne.
    destruct (scan_backwards (before ++ n :: after)) as [r|]; [congruence|discriminate].
Qed.

(** X3: a MultiNode whose last block is an empty ailment block still
    has the last statement of the blocks before it, but that statement
    cannot be removed: [_remove_last_statement] looks at the last block
    only and raises IndexError. *)
Theorem multinode_trailing_empty_block (a b : Z) (nodes : list Node) (s : Stmt)
    (Hget : _get_last_statement (MultiNode a nodes) = Ok (Some s)) :
  _get_last_statement (MultiNode a (nodes ++ [AilBlock b []])) = Ok (Some s) /\
  _remove_last_statement (MultiNode a (nodes ++ [AilBlock b []])) =
    Raise IndexError.
Proof.
  split.
  - rewrite get_last_statement_Multi in *. rewrite scan_backwards_app.
    exact Hget.
  - rewrite remove_last_statement_Multi. unfold remove_in_last.
    rewrite last_snoc. reflexivity.
Qed.

(** ** Edge conditions by the shape of the source *)

(** The statements of the ailment block at the end of the chain of last
    children of a node, through CodeNodes, SequenceNodes and
    LoopNodes. *)
Inductive ends_in_block : Node -> list Stmt -> Prop :=
| ends_in_AilBlock a stmts : ends_in_block (AilBlock a stmts) stmts
| ends_in_CodeNode n rc stmts :
    ends_in_block n stmts -> ends_in_block (CodeNode n rc) stmts
| ends_in_SequenceNode nodes n stmts :
    ends_in_block n stmts -> ends_in_block (SequenceNode (nodes ++ [n])) stmts
| ends_in_LoopNode sort condition body n a stmts :
    ends_in_block n stmts ->
    ends_in_block (LoopNode sort condition (body ++ [n]) a) stmts.

(** [type(node) is ailment.Block] *)
Definition is_AilBlock (n : Node) : Prop :=
  match n with
  | AilBlock _ _ => True
  | _ => False
  end.

(** The edge condition the specification gives for a source whose
    trailing statement is [s]: true, unless [s] is a two-way
    conditional jump, and then the translated branch condition when the
    true arm targets the destination and its negation otherwise. *)
Definition condition_by_statement (s : Stmt) (dst : Node) (st : TState)
    : result (AST * TState) :=
  match s with
  | ConditionalJump _ condition true_target _ _ =>
      match _bool_variable_from_ail_condition condition st with
      | Ok (bool_var, st') =>
          Ok (if addr_is true_target dst then bool_var
              else claripy.Not bool_var, st')
      | Raise e => Raise e
      end
  | _ => Ok (claripy.true, st)
  end.

Lemma last_statement_of_chain (n : Node) (stmts : list Stmt) :
  ends_in_block n stmts ->
  _get_last_statement n =
    match last stmts with
    | Some s => Ok (Some s)
    | None => Raise EmptyBlockNotice
    end.
Proof.
  induction 1 as [a stmts|n rc stmts _ IH|nodes n stmts _ IH
                 |sort condition body n a stmts _ IH].
  - reflexivity.
  - exact IH.
  - rewrite get_last_statement_Sequence. unfold last_statement_in.
    rewrite last_snoc. exact IH.
  - rewrite get_last_statement_Loop. unfold last_statement_in.
    rewrite last_snoc. exact IH.
Qed.

Lemma extract_predicate_of_chain (src dst : Node) (stmts : list Stmt)
    (st : TState) :
  ends_in_block src stmts ->
  _extract_predicate src dst st =
    match last stmts with
    | Some s => condition_by_statement s dst st
    | None => Raise EmptyBlockNotice
    end.
Proof.
  intros Hends. pose proof (last_statement_of_chain _ _ Hends) as Hlast.
  assert (Hextract :
    _extract_predicate src dst st =
    match _get_last_statement src with
    | Raise e => Raise e
    | Ok None => Ok (claripy.true, st)
    | Ok (Some s) => condition_by_statement s dst st
    end).
  { destruct Hends; unfold _extract_predicate, condition_by_statement;
      match goal with
      | |- context [_get_last_statement ?n] =>
          destruct (_get_last_statement n) as [[[| |]|]|]; try reflexivity
      end;
      match goal with
      | |- context [_bool_variable_from_ail_condition ?c ?s] =>
          destruct (_bool_variable_from_ail_condition c s) as [[? ?]|];
          try reflexivity; destruct (addr_is _ _); reflexivity
      end. }
  rewrite Hextract, Hlast. destruct (last stmts); reflexivity.
Qed.

Lemma scan_backwards_of_blocks (blocks : list Node) :
  Forall is_AilBlock blocks ->
  scan_backwards blocks =
    match last (concat (statements_of <$> blocks)) with
    | Some s => Some (Ok (Some s))
    | None => None
    end.
Proof.
  unfold scan_backwards.
  induction 1 as [|b blocks Hb _ IH]; [reflexivity|].
  rewrite fmap_cons, concat_cons, last_app. cbn [foldr]. rewrite IH.
  destruct (last (concat (statements_of <$> blocks))) as [s|]; [reflexivity|].
  destruct b; try contradiction. simpl.
  destruct (last statements); reflexivity.
Qed.

(** C4, as amended: the edge condition of (src, dst).  It is
    claripy.true for a nested region.  For a ConditionalBreakNode on
    the claripy condition [c] it is [c] when the target of the break is
    the address of dst and the negation of [c] otherwise.  When the
    chain of last children of src (through CodeNodes, SequenceNodes and
    LoopNodes) ends in an ailment block with a last statement [s], and
    when src is a MultiNode of ailment blocks whose last non-empty block
    ends in [s], the condition goes by [s]: claripy.true for a Jump and
    for a statement of any other kind that is not a ConditionalJump; for
    a ConditionalJump the translated condition when the true target is
    the address of dst and its negation otherwise, and the exception of
    the translation when the condition cannot be translated.  It is
    claripy.true when there is no statement to look at: an empty
    SequenceNode, a ConditionNode, a MultiNode whose blocks are all
    empty.  When the chain of last children of src ends in an empty
    ailment block, EmptyBlockNotice is raised and there is no edge
    condition; a BreakNode as source raises NotImplementedError. *)
Theorem extract_predicate_by_trailing_statement (dst : Node) (st : TState) :
  (forall a, _extract_predicate (GraphRegion a) dst st = Ok (claripy.true, st)) /\
  (forall a c target,
     _extract_predicate (ConditionalBreakNode a (ClaripyAST c) target) dst st =
     Ok (if addr_is target dst then c else claripy.Not c, st)) /\
  (forall src stmts s,
     ends_in_block src (stmts ++ [s]) ->
     _extract_predicate src dst st = condition_by_statement s dst st) /\
  (forall src,
     ends_in_block src [] ->
     _extract_predicate src dst st = Raise EmptyBlockNotice) /\
  (forall a blocks,
     Forall is_AilBlock blocks ->
     _extract_predicate (MultiNode a blocks) dst st =
     match last (concat (statements_of <$> blocks)) with
     | Some s => condition_by_statement s dst st
     | None => Ok (claripy.true, st)
     end) /\
  _extract_predicate (SequenceNode []) dst st = Ok (claripy.true, st) /\
  (forall a rc c t f,
     _extract_predicate (ConditionNode a rc c t f) dst st =
     Ok (claripy.true, st)) /\
  (forall a target,
     _extract_predicate (BreakNode a target) dst st = Raise NotImplementedError).
Proof.
  split; [reflexivity|].
  split; [intros a c target; simpl; destruct (addr_is target dst); reflexivity|].
  split.
  { intros src stmts s Hends.
    rewrite (extract_predicate_of_chain _ _ _ _ Hends), last_snoc. reflexivity. }
  split.
  { intros src Hends. exact (extract_predicate_of_chain _ _ _ _ Hends). }
  split.
  { intros a blocks Hblocks. unfold _extract_predicate.
    rewrite get_last_statement_Multi, (scan_backwards_of_blocks _ Hblocks).
    unfold condition_by_statement.
    destruct (last (concat (statements_of <$> blocks))) as [[| |]|];
      try reflexivity.
    match goal with
    | |- context [_bool_variable_from_ail_condition ?c ?s] =>
        destruct (_bool_variable_from_ail_condition c s) as [[? ?]|];
        try reflexivity; destruct (addr_is _ _); reflexivity
    end. }
  split; [reflexivity|]. split; reflexivity.
Qed.

(** The equation of [_append_statement] on the child list of a compound
    node. *)
Definition append_in_last (stmt : Stmt) (l : list Node) : result (list Node) :=
  match last l with
  | None => Raise NotImplementedError
  | Some n =>
      match _append_statement n stmt with
      | Ok n' => Ok (removelast l ++ [n'])
      | Raise e => Raise e
      end
  end.

Lemma append_in_last_fix (stmt : Stmt) (nodes : list Node) :
  (fix in_last (l : list Node) : result (list Node) :=
     match l with
     | [] => Raise NotImplementedError
     | n :: l' =>
         match l' with
         | [] =>
             match _append_statement n stmt with
             | Ok n' => Ok [n']
             | Raise e => Raise e
             end
         | _ :: _ =>
             match in_last l' with
             | Ok l'' => Ok (n :: l'')
             | Raise e => Raise e
             end
         end
     end) nodes = append_in_last stmt nodes.
Proof.
  match goal with |- ?f nodes = _ => set (F := f) end.
  assert (Hstep : forall n n' ns,
             F (n :: n' :: ns) =
             match F (n' :: ns) with
             | Ok l'' => Ok (n :: l'')
             | Raise e => Raise e
             end) by reflexivity.
  induction nodes as [|n ns IH]; [reflexivity|].
  destruct ns as [|n' ns].
  - unfold append_in_last. simpl.
    destruct (_append_statement n stmt); reflexivity.
  - rewrite Hstep, IH. unfold append_in_last.
    change (last (n :: n' :: ns)) with (last (n' :: ns)).
    destruct (last (n' :: ns)) as [x|] eqn:Hl.
    + destruct (_append_statement x stmt); reflexivity.
    + apply last_None in Hl. discriminate.
Qed.

Lemma append_statement_Sequence (stmt : Stmt) (nodes : list Node) :
  _append_statement (SequenceNode nodes) stmt =
  match append_in_last stmt nodes with
  | Ok nodes' => Ok (SequenceNode nodes')
  | Raise e => Raise e
  end.
Proof. simpl. rewrite append_in_last_fix. reflexivity. Qed.

Lemma append_statement_Multi a (stmt : Stmt) (nodes : list Node) :
  _append_statement (MultiNode a nodes) stmt =
  match append_in_last stmt nodes with
  | Ok nodes' => Ok (MultiNode a nodes')
  | Raise e => Raise e
  end.
Proof. simpl. rewrite append_in_last_fix. reflexivity. Qed.

Lemma append_then_remove (stmt : Stmt) (n : Node) :
  forall n', _append_statement n stmt = Ok n' ->
             _remove_last_statement n' = Ok (n, Some stmt).
Proof.
  induction n using Node_induction; intros n'; try discriminate.
  - simpl. intros [= <-]. simpl. rewrite last_snoc, removelast_last. reflexivity.
  - rewrite append_statement_Multi. unfold append_in_last.
    destruct (last nodes) as [x|] eqn:Hl; [|discriminate].
    destruct (_append_statement x stmt) as [x'|] eqn:Hx; [|discriminate].
    intros [= <-]. rewrite remove_last_statement_Multi. unfold remove_in_last.
    rewrite last_snoc, removelast_last.
    assert (Hin : x ∈ nodes).
    { apply last_snoc_inv in Hl. rewrite Hl. set_solver. }
    rewrite Forall_forall in H. rewrite (H x Hin _ Hx).
    rewrite <- (last_snoc_inv _ _ Hl). reflexivity.
  - rewrite append_statement_Sequence. unfold append_in_last.
    destruct (last nodes) as [x|] eqn:Hl; [|discriminate].
    destruct (_append_statement x stmt) as [x'|] eqn:Hx; [|discriminate].
    intros [= <-]. rewrite remove_last_statement_Sequence. unfold remove_in_last.
    rewrite last_snoc, removelast_last.
    assert (Hin : x ∈ nodes).
    { apply last_snoc_inv in Hl. rewrite Hl. set_solver. }
    rewrite Forall_forall in H. rewrite (H x Hin _ Hx).
    rewrite <- (last_snoc_inv _ _ Hl). reflexivity.
  - simpl. destruct (_append_statement n stmt) as [x'|] eqn:Hx; [|discriminate].
    intros [= <-]. simpl. rewrite (IHn _ eq_refl). reflexivity.
Qed.

(** X4: a statement appended with [_append_statement] is the last
    statement of the result: [_get_last_statement] reads it,
    [_remove_last_statement] removes it and gives the node back as it
    was, and the statements of the result are those of the node followed
    by it. *)
Theorem append_statement_then_remove (n n' : Node) (stmt : Stmt)
    (Happ : _append_statement n stmt = Ok n') :
  _get_last_statement n' = Ok (Some stmt) /\
  _remove_last_statement n' = Ok (n, Some stmt) /\
  statements_of n' = statements_of n ++ [stmt].
Proof.
  pose proof (append_then_remove stmt n n' Happ) as Hrem.
  split; [eapply remove_then_get; eauto|].
  split; [exact Hrem|].
  eapply remove_last_statement_strips; eauto.
Qed.

(** X5: appending the statement [_remove_last_statement] removed gives
    the node back: the two are inverse on every node a statement can be
    removed from. *)
Theorem remove_statement_then_append (n n' : Node) (stmt : Stmt)
    (Hrem : _remove_last_statement n = Ok (n', Some stmt)) :
  _append_statement n' stmt = Ok n.
Proof.
  revert n' Hrem.
  induction n using Node_induction; intros n'; try discriminate.
  - simpl. destruct (last s) as [x|] eqn:Hl; [|discriminate].
    intros [= <- <-]. simpl. rewrite <- (last_snoc_inv _ _ Hl). reflexivity.
  - rewrite remove_last_statement_Multi. unfold remove_in_last.
    destruct (last nodes) as [x|] eqn:Hl; [|discriminate].
    destruct (_remove_last_statement x) as [[x' sx]|] eqn:Hx; [|discriminate].
    intros [= <- ->]. rewrite append_statement_Multi. unfold append_in_last.
    rewrite last_snoc, removelast_last.
    assert (Hin : x ∈ nodes).
    { apply last_snoc_inv in Hl. rewrite Hl. set_solver. }
    rewrite Forall_forall in H. rewrite (H x Hin _ Hx).
    rewrite <- (last_snoc_inv _ _ Hl). reflexivity.
  - rewrite remove_last_statement_Sequence. unfold remove_in_last.
    destruct (last nodes) as [x|] eqn:Hl; [|discriminate].
    destruct (_remove_last_statement x) as [[x' sx]|] eqn:Hx; [|discriminate].
    intros [= <- ->]. rewrite append_statement_Sequence. unfold append_in_last.
    rewrite last_snoc, removelast_last.
    assert (Hin : x ∈ nodes).
    { apply last_snoc_inv in Hl. rewrite Hl. set_solver. }
    rewrite Forall_forall in H. rewrite (H x Hin _ Hx).
    rewrite <- (last_snoc_inv _ _ Hl). reflexivity.
  - simpl. destruct (_remove_last_statement n) as [[x' sx]|] eqn:Hx; [|discriminate].
    intros [= <- ->]. simpl. rewrite (IHn _ eq_refl). reflexivity.
Qed.

(** ** Refinement reaches a fixed point *)

(** X6: a loop node [_refine_loop] returns is a fixed point of it:
    refining it again returns it unchanged. *)
Theorem refine_loop_idempotent (loop_node refined : Node)
    (Href : _refine_loop loop_node = Ok refined) :
  _refine_loop refined = Ok refined.
Proof.
  revert Href. unfold _refine_loop. simpl.
  destruct (_refine_loop_while loop_node) as [[[] ln1]|e] eqn:Hw.
  - pose proof (peel_keeps_loop loop_node ln1 (or_introl Hw)) as Hk.
    destruct (refine_loop_while_peel _ _ Hw) as (_ & He & _).
    destruct (peeled_has_condition ln1 He Hk) as [Hw1 Hd1].
    rewrite Hw1, Hd1. intros [= <-]. rewrite Hw1, Hd1. reflexivity.
  - apply refine_loop_while_no_peel in Hw as Heq. subst ln1.
    destruct (_refine_loop_dowhile loop_node) as [[[] ln2]|e] eqn:Hd.
    + pose proof (peel_keeps_loop loop_node ln2 (or_intror Hd)) as Hk.
      destruct (refine_loop_dowhile_peel _ _ Hd) as (_ & He & _).
      destruct (peeled_has_condition ln2 He Hk) as [Hw1 Hd1].
      rewrite Hw1, Hd1. intros [= <-]. rewrite Hw1, Hd1. reflexivity.
    + apply refine_loop_dowhile_no_peel in Hd as Heq. subst ln2.
      intros [= <-]. rewrite Hw, Hd. reflexivity.
    + discriminate.
  - discriminate.
Qed.


(** ** Merging nodes *)



(** ** Merging nodes with the same reaching condition *)







(** ** What merging conditional breaks leaves behind *)

(** The loop of [_merge_conditional_breaks] over the children of a
    sequence, as a function of its own. *)
Fixpoint merge_breaks_loop (l : list Node) (prev : option Node)
    (new_nodes : list Node) : result (list Node) :=
  match l with
  | [] => Ok new_nodes
  | raw :: l' =>
      match unwrap_code raw with
      | SequenceNode nodes =>
          match _merge_conditional_breaks (SequenceNode nodes) with
          | Raise e => Raise e
          | Ok node' => merge_breaks_loop l' (Some raw) (new_nodes ++ [node'])
          end
      | ConditionalBreakNode addr condition target =>
          match unwrap_code <$> prev with
          | Some (ConditionalBreakNode _ prev_condition _) =>
              match merged_break addr condition prev_condition target with
              | Raise e => Raise e
              | Ok new_node =>
                  merge_breaks_loop l' (Some raw) (removelast new_nodes ++ [new_node])
              end
          | _ =>
              merge_breaks_loop l' (Some raw)
                (new_nodes ++ [ConditionalBreakNode addr condition target])
          end
      | node => merge_breaks_loop l' (Some raw) (new_nodes ++ [node])
      end
  end.

Lemma merge_conditional_breaks_Sequence (nodes : list Node) :
  _merge_conditional_breaks (SequenceNode nodes) =
  match merge_breaks_loop nodes None [] with
  | Raise e => Raise e
  | Ok new_nodes => Ok (SequenceNode new_nodes)
  end.
Proof.
  cbn [_merge_conditional_breaks].
  match goal with
  | |- match ?f nodes None [] with _ => _ end = _ => set (F := f)
  end.
  assert (Heq : forall l prev new_nodes,
             F l prev new_nodes = merge_breaks_loop l prev new_nodes).
  { induction l as [|raw l IH]; intros prev new_nodes; [reflexivity|].
    destruct raw as [| | | | |inner rc| | | |];
      try (cbn; rewrite <- IH; reflexivity);
      try (cbn; destruct (unwrap_code <$> prev) as [[]|];
           try (rewrite <- IH; reflexivity);
           destruct (merged_break _ _ _ _); [rewrite <- IH|]; reflexivity).
    - cbn [merge_breaks_loop unwrap_code]. unfold F at 1. fold F.
      match goal with
      | |- match ?x with _ => _ end = match ?y with _ => _ end =>
          change x with y; destruct y; [apply IH|reflexivity]
      end.
    - destruct inner;
        try (cbn; rewrite <- IH; reflexivity);
        try (cbn; destruct (unwrap_code <$> prev) as [[]|];
             try (rewrite <- IH; reflexivity);
             destruct (merged_break _ _ _ _); [rewrite <- IH|]; reflexivity).
      cbn [merge_breaks_loop unwrap_code]. unfold F at 1. fold F.
      match goal with
      | |- match ?x with _ => _ end = match ?y with _ => _ end =>
          change x with y; destruct y; [apply IH|reflexivity]
      end. }
  rewrite Heq. reflexivity.
Qed.

(** [isinstance(node, ConditionalBreakNode)] *)
Definition is_conditional_break (node : Node) : bool :=
  match node with
  | ConditionalBreakNode _ _ _ => Datatypes.true
  | _ => false
  end.

Definition ends_in_conditional_break (l : list Node) : bool :=
  match last l with
  | Some node => is_conditional_break node
  | None => false
  end.

(** No ConditionalBreakNode of the list is followed by another one. *)
Fixpoint no_adjacent_breaks (l : list Node) : bool :=
  match l with
  | [] => Datatypes.true
  | node :: l' =>
      negb (is_conditional_break node &&
            match l' with
            | next :: _ => is_conditional_break next
            | [] => false
            end) &&
      no_adjacent_breaks l'
  end.

Lemma no_adjacent_breaks_snoc (l : list Node) (x : Node) :
  no_adjacent_breaks (l ++ [x]) =
  no_adjacent_breaks l &&
  negb (ends_in_conditional_break l && is_conditional_break x).
Proof.
  unfold ends_in_conditional_break.
  induction l as [|y l IH]; [simpl; rewrite andb_false_r; reflexivity|].
  change ((y :: l) ++ [x]) with (y :: (l ++ [x])).
  cbn [no_adjacent_breaks]. rewrite IH.
  destruct l as [|z l].
  - simpl. destruct (is_conditional_break y), (is_conditional_break x); reflexivity.
  - change (last (y :: z :: l)) with (last (z :: l)).
    simpl app.
    destruct (is_conditional_break y), (is_conditional_break z); simpl;
      try reflexivity;
      destruct (no_adjacent_breaks _); reflexivity.
Qed.

Lemma ends_in_conditional_break_snoc (l : list Node) (x : Node) :
  ends_in_conditional_break (l ++ [x]) = is_conditional_break x.
Proof. unfold ends_in_conditional_break. rewrite last_snoc. reflexivity. Qed.

Lemma no_adjacent_breaks_removelast (l : list Node) :
  no_adjacent_breaks l = Datatypes.true ->
  ends_in_conditional_break l = Datatypes.true ->
  no_adjacent_breaks (removelast l) = Datatypes.true /\
  ends_in_conditional_break (removelast l) = false.
Proof.
  destruct l as [|x l] using rev_ind.
  - discriminate.
  - rewrite removelast_last, no_adjacent_breaks_snoc,
      ends_in_conditional_break_snoc.
    intros H Hx. rewrite Hx, andb_true_r in H.
    apply andb_prop in H as [-> H]. apply negb_true_iff in H. auto.
Qed.

Lemma merge_conditional_breaks_gives_Sequence (n r : Node) :
  _merge_conditional_breaks n = Ok r -> is_conditional_break r = false.
Proof.
  destruct n; try discriminate.
  rewrite merge_conditional_breaks_Sequence.
  destruct (merge_breaks_loop _ _ _); [|discriminate].
  intros [= <-]. reflexivity.
Qed.

Lemma merged_break_is_break (a t : Z) (c pc : Expr) (r : Node) :
  merged_break a c pc t = Ok r -> is_conditional_break r = Datatypes.true.
Proof.
  unfold merged_break. destruct (as_ast c); [|discriminate].
  destruct (as_ast pc); [|discriminate]. intros [= <-]. reflexivity.
Qed.

(** The invariant of the loop: the list built so far has no two breaks
    next to each other, and it ends in a break exactly when the child
    before the current one is a break. *)
Lemma merge_breaks_loop_invariant (l : list Node) :
  forall prev new_nodes out,
    merge_breaks_loop l prev new_nodes = Ok out ->
    no_adjacent_breaks new_nodes = Datatypes.true ->
    ends_in_conditional_break new_nodes =
      match unwrap_code <$> prev with
      | Some node => is_conditional_break node
      | None => false
      end ->
    no_adjacent_breaks out = Datatypes.true /\
    (length out <= length new_nodes + length l)%nat.
Proof.
  induction l as [|raw l IH]; intros prev new_nodes out.
  - intros [= <-] Hno _. split; [exact Hno|simpl; lia].
  - cbn [merge_breaks_loop].
    assert (Hother : forall node,
               unwrap_code raw = node ->
               is_conditional_break node = false ->
               merge_breaks_loop l (Some raw) (new_nodes ++ [node]) = Ok out ->
               no_adjacent_breaks new_nodes = Datatypes.true ->
               no_adjacent_breaks out = Datatypes.true /\
               (length out <= length new_nodes + length (raw :: l))%nat).
    { intros node Hu Hnb Hrun Hno.
      destruct (IH _ _ _ Hrun) as [Hout Hlen].
      - rewrite no_adjacent_breaks_snoc, Hno, Hnb, andb_false_r. reflexivity.
      - rewrite ends_in_conditional_break_snoc. simpl. rewrite Hu, Hnb. reflexivity.
      - split; [exact Hout|]. rewrite length_app in Hlen. simpl in *. lia. }
    destruct (unwrap_code raw) as [| | | |nodes| | | | |addr condition target] eqn:Hu;
      try (intros Hrun Hno _; eapply Hother; eauto; fail).
    + destruct (_merge_conditional_breaks (SequenceNode nodes)) as [node'|] eqn:Hm;
        [|discriminate].
      intros Hrun Hno _.
      pose proof (merge_conditional_breaks_gives_Sequence _ _ Hm) as Hnb.
      destruct (IH _ _ _ Hrun) as [Hout Hlen].
      * rewrite no_adjacent_breaks_snoc, Hno, Hnb, andb_false_r. reflexivity.
      * rewrite ends_in_conditional_break_snoc. simpl. rewrite Hu, Hnb. reflexivity.
      * split; [exact Hout|]. rewrite length_app in Hlen. simpl in *. lia.
    + assert (Hkeep : forall new_node,
                 is_conditional_break new_node = Datatypes.true ->
                 forall new_nodes',
                 no_adjacent_breaks new_nodes' = Datatypes.true ->
                 ends_in_conditional_break new_nodes' = false ->
                 (length new_nodes' <= length new_nodes)%nat ->
                 merge_breaks_loop l (Some raw) (new_nodes' ++ [new_node]) = Ok out ->
                 no_adjacent_breaks out = Datatypes.true /\
                 (length out <= length new_nodes + length (raw :: l))%nat).
      { intros new_node Hb new_nodes' Hno' Hend' Hlen' Hrun.
        destruct (IH _ _ _ Hrun) as [Hout Hlen].
        - rewrite no_adjacent_breaks_snoc, Hno', Hend'. reflexivity.
        - rewrite ends_in_conditional_break_snoc. simpl. rewrite Hu. exact Hb.
        - split; [exact Hout|]. rewrite length_app in Hlen. simpl in *. lia. }
      destruct (unwrap_code <$> prev) as [p|] eqn:Hp.
      * destruct p as [| | | | | | | | |paddr pcond ptarget];
          try (intros Hrun Hno Hend; simpl in Hend;
               exact (Hkeep (ConditionalBreakNode addr condition target) eq_refl
                        new_nodes Hno Hend (Nat.le_refl _) Hrun)).
        destruct (merged_break addr condition pcond target) as [new_node|] eqn:Hmb;
          [|discriminate].
        intros Hrun Hno Hend.
        destruct (no_adjacent_breaks_removelast _ Hno Hend) as [Hno' Hend'].
        eapply (Hkeep new_node (merged_break_is_break _ _ _ _ _ Hmb)
                  (removelast new_nodes)); eauto.
        destruct new_nodes as [|x xs] using rev_ind; [simpl; lia|].
        rewrite removelast_last, length_app. simpl. lia.
      * intros Hrun Hno Hend.
        exact (Hkeep (ConditionalBreakNode addr condition target) eq_refl
                        new_nodes Hno Hend (Nat.le_refl _) Hrun).
Qed.

(** X9: in the sequence [_merge_conditional_breaks] returns, no
    ConditionalBreakNode is followed by another one, and there are at
    most as many children as in the sequence it was given. *)
Theorem merge_conditional_breaks_no_adjacent_breaks (nodes merged : list Node)
    (Hmerged : _merge_conditional_breaks (SequenceNode nodes) =
               Ok (SequenceNode merged)) :
  no_adjacent_breaks merged = Datatypes.true /\
  (length merged <= length nodes)%nat.
Proof.
  rewrite merge_conditional_breaks_Sequence in Hmerged.
  destruct (merge_breaks_loop nodes None []) as [out|] eqn:Hrun; [|discriminate].
  injection Hmerged as <-.
  destruct (merge_breaks_loop_invariant _ _ _ _ Hrun eq_refl eq_refl) as [Hno Hlen].
  split; [exact Hno|]. simpl in Hlen. lia.
Qed.


(** ** What a translation does to the mapping *)

Lemma dict_get_set_eq {V : Type} (k : AST) (v : V) (d : list (AST * V)) :
  dict_get k (dict_set k v d) = Some v.
Proof.
  induction d as [|[k' v'] d IH]; simpl.
  - rewrite decide_True by reflexivity. reflexivity.
  - destruct (decide (k = k')) as [->|Hne]; simpl.
    + rewrite decide_True by reflexivity. reflexivity.
    + rewrite decide_False by exact Hne. exact IH.
Qed.

Lemma dict_get_set_ne {V : Type} (k k' : AST) (v : V) (d : list (AST * V)) :
  k <> k' -> dict_get k' (dict_set k v d) = dict_get k' d.
Proof.
  intros Hne. induction d as [|[k0 v0] d IH]; simpl.
  - rewrite decide_False by congruence. reflexivity.
  - destruct (decide (k = k0)) as [->|Hne0]; simpl.
    + rewrite !decide_False by congruence. reflexivity.
    + destruct (decide (k' = k0)); [reflexivity|exact IH].
Qed.

Lemma dict_set_keeps_keys {V : Type} (k k' : AST) (v : V) (d : list (AST * V)) :
  is_Some (dict_get k' d) -> is_Some (dict_get k' (dict_set k v d)).
Proof.
  destruct (decide (k = k')) as [->|Hne].
  - rewrite dict_get_set_eq. eauto.
  - rewrite dict_get_set_ne by exact Hne. auto.
Qed.

(** X10: a translation only adds to the condition mapping: every
    variable that had an entry still has one afterwards, and the counter
    of claripy does not go back.  The variable returned for a Load, a
    DirtyExpression, a Register, a Convert or a Tmp is recorded with the
    expression it stands for; a Const leaves the mapping as it is. *)
Theorem translation_only_adds_to_mapping (condition : Expr) (st st' : TState)
    (var : AST)
    (Hrun : _bool_variable_from_ail_condition condition st = Ok (var, st')) :
  (forall k, is_Some (dict_get k (mapping st)) ->
             is_Some (dict_get k (mapping st'))) /\
  (bvs_counter st <= bvs_counter st')%nat /\
  match condition with
  | Load _ _ _ | DirtyExpression _ _ _ | Register _ _ _ | Convert _ _ _ _
  | Tmp _ _ _ => dict_get var (mapping st') = Some condition
  | Const _ _ _ => st' = st
  | _ => True
  end.
Proof.
  revert st st' var Hrun.
  induction condition as [idx value bits|idx tmp_idx bits|idx reg_offset bits
                         |idx addr IHaddr bits|idx dirty bits
                         |idx from_bits to_bits operand IH
                         |idx op operand IH|idx op x IHx y IHy|a];
    intros st st' var; cbn [_bool_variable_from_ail_condition].
  - intros [= <- <-]. repeat split; auto.
  - destruct (bits =? 1); intros [= <- <-]; simpl;
      (split; [intros k; apply dict_set_keeps_keys|split; [lia|apply dict_get_set_eq]]).
  - destruct idx as [i|]; [|discriminate]. intros [= <- <-]. simpl.
    split; [intros k; apply dict_set_keeps_keys|split; [lia|apply dict_get_set_eq]].
  - intros [= <- <-]. simpl.
    split; [intros k; apply dict_set_keeps_keys|split; [lia|apply dict_get_set_eq]].
  - intros [= <- <-]. simpl.
    split; [intros k; apply dict_set_keeps_keys|split; [lia|apply dict_get_set_eq]].
  - destruct (_bool_variable_from_ail_condition operand st) as [[v st1]|] eqn:Hop;
      [|discriminate].
    destruct (IH _ _ _ Hop) as (Hkeys & Hcount & _).
    intros [= <- <-]. simpl.
    split; [intros k Hk; apply dict_set_keeps_keys; auto
           |split; [lia|apply dict_get_set_eq]].
  - destruct (String.eqb op "Not").
    + destruct (_bool_variable_from_ail_condition operand st) as [[v st1]|] eqn:Hop;
        [|discriminate].
      destruct (IH _ _ _ Hop) as (Hkeys & Hcount & _).
      intros [= <- <-]. auto.
    + destruct (in_mapping_keys op); discriminate.
  - destruct (binary_lambda op) as [f|].
    + destruct (_bool_variable_from_ail_condition x st) as [[v0 st1]|] eqn:Hx;
        [|discriminate].
      destruct (_bool_variable_from_ail_condition y st1) as [[v1 st2]|] eqn:Hy;
        [|discriminate].
      destruct (IHx _ _ _ Hx) as (Hk1 & Hc1 & _).
      destruct (IHy _ _ _ Hy) as (Hk2 & Hc2 & _).
      intros [= <- <-]. split; [auto|split; [lia|exact I]].
    + destruct (String.eqb op "Shr").
      * destruct (_bool_variable_from_ail_condition x st) as [[v0 st1]|] eqn:Hx;
          [|discriminate].
        destruct (IHx _ _ _ Hx) as (Hk1 & Hc1 & _).
        destruct y; try discriminate. intros [= <- <-]. auto.
      * destruct (String.eqb op "Not"); discriminate.
  - discriminate.
Qed.

(** ** Reaching conditions in any visit order *)

(** X11: in whatever order the nodes are visited (each once), the
    reaching condition of a node [n] other than the head is the
    simplified OR over its predecessors of the predecessor's reaching
    condition AND the edge condition, where a predecessor that is
    visited after [n] (the source of a back edge, or [n] itself) counts
    as always reached; a node without predecessors gets no reaching
    condition, and neither does a node that is not visited. *)
Theorem reaching_condition_in_any_order (r : Region) (order l1 l2 : list nat)
    (n : nat) (st st' : TState) (conds : Conditions)
    (Honce : NoDup order)
    (Horder : order = l1 ++ n :: l2)
    (Hn : n <> region_head r)
    (Hrun : _recover_reaching_conditions r order st = Ok (conds, st')) :
  let rc := _reaching_conditions conds in
  let ec := _edge_conditions conds in
  rc !! n =
    _simplify_condition <$>
      disjunction
        (rev ((fun p =>
                 claripy.And
                   (if decide (p ∈ l1) then default claripy.true (rc !! p)
                    else claripy.true)
                   (default claripy.true (ec !! (p, n)))) <$>
              predecessors (region_graph r) n)) /\
  forall k, k ∉ order -> rc !! k = None.
Proof.
  unfold _recover_reaching_conditions in Hrun.
  destruct (recover_edge_conditions r _ ∅ [] st) as [[[ec0 pm] st1]|] eqn:Hedges;
    [|discriminate].
  injection Hrun as <- <-. simpl. split.
  - subst order.
    destruct (visit_nodes_at r ec0 _ _ _ Honce) as [Hat Hprev].
    rewrite Hat.
    apply NoDup_app in Honce as (_ & Hdisj & Hnd2).
    apply NoDup_cons in Hnd2 as [Hn2 _].
    assert (Hn1 : n ∉ l1) by (intros Hin; apply (Hdisj n Hin); set_solver).
    assert (Hterms :
      reaching_term ec0 (foldl (visit_node r ec0) ∅ l1) n <$>
        predecessors (region_graph r) n =
      (fun p =>
         claripy.And
           (if decide (p ∈ l1)
            then default claripy.true
                   (foldl (visit_node r ec0) ∅ (l1 ++ n :: l2) !! p)
            else claripy.true)
           (default claripy.true (ec0 !! (p, n)))) <$>
        predecessors (region_graph r) n).
    { apply list_fmap_ext. intros i p _. unfold reaching_term.
      destruct (decide (p ∈ l1)) as [Hp|Hp].
      - rewrite (Hprev p Hp). reflexivity.
      - rewrite visit_nodes_other by exact Hp. rewrite lookup_empty. reflexivity. }
    rewrite <- Hterms.
    assert (Hrcs : foldl (visit_node r ec0) ∅ l1 !! n = None).
    { rewrite visit_nodes_other by exact Hn1. apply lookup_empty. }
    revert Hrcs. generalize (foldl (visit_node r ec0) ∅ l1). intros rcs Hrcs.
    unfold visit_node. rewrite decide_False by exact Hn.
    rewrite over_predecessors_from_None.
    destruct (disjunction _) as [c|]; simpl.
    + apply lookup_insert_eq.
    + exact Hrcs.
  - intros k Hk. rewrite visit_nodes_other by exact Hk. apply lookup_empty.
Qed.


(** ** Loop nodes and loop successors *)

Lemma new_among_spec (l : list nat) :
  forall seen,
    NoDup (new_among seen l) /\
    forall x, x ∈ new_among seen l -> x ∈ l /\ x ∉ seen.
Proof.
  induction l as [|y l IH]; intros seen; simpl.
  - split; [constructor|]. intros x Hx. inversion Hx.
  - destruct (bool_decide (y ∈ seen)) eqn:Hy.
    + destruct (IH seen) as [Hnd Hin]. split; [exact Hnd|].
      intros x Hx. destruct (Hin x Hx). split; [set_solver|assumption].
    + apply bool_decide_eq_false in Hy.
      destruct (IH (y :: seen)) as [Hnd Hin]. split.
      * constructor; [|exact Hnd]. intros Hx. destruct (Hin y Hx). set_solver.
      * intros x Hx. apply elem_of_cons in Hx as [->|Hx]; [set_solver|].
        destruct (Hin x Hx). set_solver.
Qed.

Lemma within_incl (g : DiGraph) (steps : nat) :
  forall s x, x ∈ s -> x ∈ within g steps s.
Proof.
  induction steps as [|steps IH]; intros s x Hx; simpl; [exact Hx|].
  apply IH. set_solver.
Qed.

Lemma successors_seen_from_spec (node_at : nat -> Node) (is_source : Node -> bool)
    (loop_subgraph : list nat) (found : list (nat * list nat)) :
  NoDup (successors_seen_from node_at is_source loop_subgraph found) /\
  forall x, x ∈ successors_seen_from node_at is_source loop_subgraph found ->
            x ∉ loop_subgraph.
Proof.
  unfold successors_seen_from.
  destruct (new_among_spec
              (filter (fun suc => suc ∉ loop_subgraph)
                 ('(node, successors) ← found;
                  if is_source (node_at node) then successors else [])) [])
    as [Hnd Hin].
  split; [exact Hnd|].
  intros x Hx. destruct (Hin x Hx) as [Hf _].
  apply list_elem_of_filter in Hf as [Hf _]. exact Hf.
Qed.

Lemma successors_in_parents_spec (node_at : nat -> Node)
    (loop_subgraph : list nat) (parents : list (nat * DiGraph)) :
  forall current_region loop_successors,
    successors_in_parents node_at loop_subgraph current_region parents =
      Some loop_successors ->
    NoDup loop_successors /\
    forall x, x ∈ loop_successors -> x ∉ loop_subgraph.
Proof.
  induction parents as [|[parent_region parent_graph] parents IH];
    intros current_region loop_successors; simpl.
  - intros [= <-]. split; [constructor|]. intros x Hx. inversion Hx.
  - destruct (bfs_successors parent_graph current_region) as [found|];
      [|discriminate].
    match goal with
    | |- match ?s with _ => _ end = _ -> _ =>
        pose proof (successors_seen_from_spec node_at
                      (fun node => bool_decide
                         (addr_of node = addr_of (node_at current_region)))
                      loop_subgraph found) as Hspec;
        destruct s as [|x xs] eqn:Hs
    end.
    + apply IH.
    + intros [= <-]. exact Hspec.
Qed.

Lemma extend_loop_nodes_spec (g : DiGraph) (fuel : nat) :
  forall loop_nodes extended,
    extend_loop_nodes g fuel loop_nodes = Some extended ->
    (forall x, x ∈ loop_nodes -> x ∈ extended) /\
    next_absorbed g extended = None.
Proof.
  induction fuel as [|fuel IH]; intros loop_nodes extended; simpl;
    destruct (next_absorbed g loop_nodes) as [succ|] eqn:Hnext;
    try discriminate;
    try (intros [= <-]; split; [auto|exact Hnext]).
  intros Hrun. destruct (IH _ _ Hrun) as [Hincl Hdone].
  split; [|exact Hdone]. intros x Hx. apply Hincl. set_solver.
Qed.

(** When nothing more is absorbed, every node outside the loop nodes
    that a loop node leads to has a predecessor outside them. *)
Lemma next_absorbed_None (g : DiGraph) (loop_nodes : list nat) (n s : nat) :
  next_absorbed g loop_nodes = None ->
  n ∈ loop_nodes -> s ∈ successors g n -> s ∉ loop_nodes ->
  exists p, p ∈ predecessors g s /\ p ∉ loop_nodes.
Proof.
  unfold next_absorbed. intros Hnone Hn Hs Hout.
  apply head_None in Hnone.
  assert (Hin : s ∈ loop_nodes ≫= successors g).
  { apply list_elem_of_bind. eauto. }
  assert (Hnot : ~ ((s ∉ loop_nodes) /\
                    Forall (fun pred => pred ∈ loop_nodes) (predecessors g s))).
  { intros Hboth.
    assert (Hf : s ∈ filter (fun succ =>
                   (succ ∉ loop_nodes) /\
                   Forall (fun pred => pred ∈ loop_nodes) (predecessors g succ))
                   (loop_nodes ≫= successors g)).
    { apply list_elem_of_filter. split; [exact Hboth|exact Hin]. }
    rewrite Hnone in Hf. inversion Hf. }
  destruct (decide (Forall (fun pred => pred ∈ loop_nodes) (predecessors g s)))
    as [Hall|Hex]; [tauto|].
  apply not_Forall_Exists in Hex; [|intros x; apply _].
  apply Exists_exists in Hex as (p & Hp & Hpout). eauto.
Qed.

Lemma find_loop_nodes_invariants (c : CyclicRegion)
    (loop_nodes loop_successors : list nat)
    (Hfound : _find_loop_nodes_and_successors c =
              Some (Ok (loop_nodes, loop_successors))) :
  c_head c ∈ loop_nodes /\
  (forall s, s ∈ loop_successors -> s ∉ loop_nodes) /\
  NoDup loop_successors /\
  (forall n s, n ∈ loop_nodes -> s ∈ successors (c_graph c) n ->
     s ∉ loop_nodes ->
     exists p, p ∈ predecessors (c_graph c) s /\ p ∉ loop_nodes).
Proof.
  unfold _find_loop_nodes_and_successors in Hfound.
  destruct (negb (bool_decide (c_head c ∈ g_nodes (c_graph c)))); [discriminate|].
  destruct (extend_loop_nodes _ _ _) as [extended|] eqn:Hext; [|discriminate].
  destruct (extend_loop_nodes_spec _ _ _ _ Hext) as [Hincl Hdone].
  destruct (bfs_successors (c_graph c) (c_head c)) as [found|]; [|discriminate].
  assert (Hhead : c_head c ∈ extended).
  { apply Hincl. unfold component_of. apply list_elem_of_filter.
    split; apply within_incl; set_solver. }
  match type of Hfound with
  | match ?s with _ => _ end = _ =>
      pose proof (successors_seen_from_spec (c_node_at c)
                    (fun node => bool_decide
                       (addr_of node ∈
                        (fun n => addr_of (c_node_at c n)) <$> extended))
                    extended found) as [Hnd Hout];
      destruct s as [|x xs] eqn:Hs
  end.
  - destruct (c_parent_map c) as [parents|]; [|discriminate].
    destruct (successors_in_parents _ _ _ _) as [from_parents|] eqn:Hpar;
      [|discriminate].
    injection Hfound as <- <-.
    destruct (successors_in_parents_spec _ _ _ _ _ Hpar) as [Hnd' Hout'].
    repeat split; auto.
    intros n s Hn Hsn Hsout. eapply next_absorbed_None; eauto.
  - injection Hfound as <- <-.
    repeat split; auto.
    intros n s Hn Hsn Hsout. eapply next_absorbed_None; eauto.
Qed.

(** X12: when [_find_loop_nodes_and_successors] returns, the head is a
    loop node; no loop successor is a loop node, and none is listed
    twice; and the loop nodes are closed under absorption: a node
    outside them that a loop node leads to is also entered from outside
    the loop. *)
Theorem loop_nodes_and_successors_invariants (c : CyclicRegion)
    (loop_nodes loop_successors : list nat)
    (Hfound : _find_loop_nodes_and_successors c =
              Some (Ok (loop_nodes, loop_successors))) :
  c_head c ∈ loop_nodes /\
  (forall s, s ∈ loop_successors -> s ∉ loop_nodes) /\
  NoDup loop_successors /\
  (forall n s, n ∈ loop_nodes -> s ∈ successors (c_graph c) n ->
     s ∉ loop_nodes ->
     exists p, p ∈ predecessors (c_graph c) s /\ p ∉ loop_nodes).
Proof. exact (find_loop_nodes_invariants c _ _ Hfound). Qed.


(** ** Redirecting the exits of a loop *)

Lemma elem_of_remove_edge (g : DiGraph) (x e : nat * nat) :
  e ∈ g_edges (remove_edge g x) <-> e ∈ g_edges g /\ e <> x.
Proof.
  unfold remove_edge. simpl. rewrite list_elem_of_filter. tauto.
Qed.

Lemma elem_of_foldl_remove_edge (l : list (nat * nat)) :
  forall g e, e ∈ g_edges (foldl remove_edge g l) <-> e ∈ g_edges g /\ e ∉ l.
Proof.
  induction l as [|x l IH]; intros g e; simpl.
  - split; [intros H; split; [exact H|set_solver]|tauto].
  - rewrite IH, elem_of_remove_edge, not_elem_of_cons. tauto.
Qed.

Lemma g_edges_add_node (g : DiGraph) (n : nat) :
  g_edges (add_node g n) = g_edges g.
Proof. unfold add_node. destruct (bool_decide _); reflexivity. Qed.

Lemma elem_of_add_edge (g : DiGraph) (x e : nat * nat) :
  e ∈ g_edges (add_edge g x) <-> e ∈ g_edges g \/ e = x.
Proof.
  unfold add_edge, has_edge.
  destruct (bool_decide _) eqn:Hhas.
  - apply bool_decide_eq_true in Hhas.
    rewrite !g_edges_add_node in *. split; [auto|]. intros [H| ->]; auto.
  - simpl. rewrite !g_edges_add_node, elem_of_app, list_elem_of_singleton.
    tauto.
Qed.

Lemma elem_of_foldl_add_edge (l : list (nat * nat)) :
  forall g e, e ∈ g_edges (foldl add_edge g l) <-> e ∈ g_edges g \/ e ∈ l.
Proof.
  induction l as [|x l IH]; intros g e; simpl.
  - split; [auto|]. intros [H|H]; [exact H|inversion H].
  - rewrite IH, elem_of_add_edge, elem_of_cons. tauto.
Qed.

Lemma elem_of_in_edges (g : DiGraph) (n : nat) (e : nat * nat) :
  e ∈ in_edges g n <-> e.2 = n /\ e ∈ g_edges g.
Proof. unfold in_edges. rewrite list_elem_of_filter. tauto. Qed.

(** The edges after one edge (src, succ) has been redirected. *)
Lemma redirect_edge_edges (cond succ src : nat) (g g' : DiGraph)
    (node_at node_at' : nat -> Node) :
  redirect_edge cond succ src (g, node_at) = Ok (g', node_at') ->
  forall e, e ∈ g_edges g' <->
            (e ∈ g_edges g /\ e <> (src, succ)) \/ e = (src, cond).
Proof.
  unfold redirect_edge, remove_existing_edge, has_edge.
  destruct (bool_decide _) eqn:Hhas; [|discriminate].
  apply bool_decide_eq_true in Hhas.
  apply elem_of_foldl_remove_edge in Hhas as [Hedge Hnot].
  assert (Hne : succ <> src).
  { intros ->. apply Hnot. apply elem_of_in_edges. auto. }
  destruct (_get_last_statement (node_at src)) as [[[]|]|]; try discriminate.
  match goal with
  | |- match ?x with _ => _ end = _ -> _ => destruct x; [|discriminate]
  end.
  destruct (_remove_last_statement (node_at src)) as [[src1 ?]|]; [|discriminate].
  destruct (_append_statement src1 _) as [src2|]; [|discriminate].
  intros [= <- <-] e.
  rewrite elem_of_add_edge, elem_of_foldl_add_edge, elem_of_remove_edge,
    elem_of_foldl_remove_edge, elem_of_in_edges.
  destruct (decide (e.2 = src)) as [He|He].
  - assert (e <> (src, succ)) by (intros ->; simpl in He; congruence).
    tauto.
  - tauto.
Qed.

Lemma redirect_fold_Raise {A B : Type} (f : B -> A -> result B)
    (l : list A) (err : exn) :
  foldl (fun acc x => match acc with
                      | Raise err => Raise err
                      | Ok b => f b x
                      end) (Raise err) l = Raise err.
Proof. induction l as [|x l IH]; [reflexivity|exact IH]. Qed.

(** The edges after the edges of [l], all into [succ], have been
    redirected. *)
Lemma redirect_edges_fold (cond succ : nat) (l : list (nat * nat)) :
  forall (g g' : DiGraph) (node_at node_at' : nat -> Node),
    foldl (fun acc e =>
             match acc with
             | Raise err => Raise err
             | Ok state' => redirect_edge cond succ e.1 state'
             end) (Ok (g, node_at)) l = Ok (g', node_at') ->
    cond <> succ ->
    (forall e, e ∈ l -> e.2 = succ) ->
    forall e, e ∈ g_edges g' <->
              (e ∈ g_edges g /\ e ∉ l) \/
              (exists p, (p, succ) ∈ l /\ e = (p, cond)).
Proof.
  induction l as [|[src dst] l IH]; intros g g' node_at node_at';
    cbn [foldl fst].
  - intros [= <- <-] _ _ e. split.
    + intros H. left. split; [exact H|]. intros Hin. inversion Hin.
    + intros [[H _]|(p & Hp & _)]; [exact H|inversion Hp].
  - destruct (redirect_edge cond succ src (g, node_at)) as [[g1 node_at1]|err]
      eqn:Hstep.
    + intros Hrun Hcond Hall e.
      assert (Hdst : dst = succ) by (apply (Hall (src, dst)); set_solver).
      subst dst.
      rewrite (IH _ _ _ _ Hrun Hcond) by (intros e' He'; apply Hall; set_solver).
      rewrite (redirect_edge_edges _ _ _ _ _ _ _ Hstep).
      rewrite not_elem_of_cons. split.
      * intros [[[[He Hne]| ->] Hnl]|(p & Hp & ->)].
        -- left. auto.
        -- right. exists src. split; [set_solver|reflexivity].
        -- right. exists p. split; [set_solver|reflexivity].
      * intros [[He [Hne Hnl]]|(p & Hp & ->)].
        -- left. auto.
        -- apply elem_of_cons in Hp as [[= ->]|Hp].
           ++ left. split; [right; reflexivity|].
              intros Hin.
              assert (H2 : (src, cond).2 = succ) by (apply Hall; set_solver).
              simpl in H2. congruence.
           ++ right. eauto.
    + rewrite redirect_fold_Raise. discriminate.
Qed.

Lemma redirect_edges_into_edges (cond succ : nat) (g g' : DiGraph)
    (node_at node_at' : nat -> Node) :
  redirect_edges_into cond succ (g, node_at) = Ok (g', node_at') ->
  cond <> succ ->
  forall e, e ∈ g_edges g' <->
            (e ∈ g_edges g /\ e.2 <> succ) \/
            (exists p, (p, succ) ∈ g_edges g /\ e = (p, cond)).
Proof.
  unfold redirect_edges_into. simpl. intros Hrun Hcond e.
  rewrite (redirect_edges_fold _ _ _ _ _ _ _ Hrun Hcond)
    by (intros e' He'; apply elem_of_in_edges in He'; tauto).
  split.
  - intros [[He Hnl]|(p & Hp & ->)].
    + left. split; [exact He|]. intros H2. apply Hnl. apply elem_of_in_edges. auto.
    + right. exists p. apply elem_of_in_edges in Hp as [_ Hp]. auto.
  - intros [[He Hne]|(p & Hp & ->)].
    + left. split; [exact He|]. intros Hin. apply elem_of_in_edges in Hin. tauto.
    + right. exists p. split; [|reflexivity]. apply elem_of_in_edges. auto.
Qed.

(** The edges after the edges into every successor of [l] have been
    redirected. *)
Lemma redirect_all_edges (cond : nat) (l : list nat) :
  forall (g g' : DiGraph) (node_at node_at' : nat -> Node),
    foldl (fun acc succ =>
             match acc with
             | Raise err => Raise err
             | Ok state' => redirect_edges_into cond succ state'
             end) (Ok (g, node_at)) l = Ok (g', node_at') ->
    cond ∉ l ->
    forall e, e ∈ g_edges g' <->
              (e ∈ g_edges g /\ e.2 ∉ l) \/
              (exists p s, (p, s) ∈ g_edges g /\ s ∈ l /\ e = (p, cond)).
Proof.
  induction l as [|succ l IH]; intros g g' node_at node_at'; cbn [foldl].
  - intros [= <- <-] _ e. split.
    + intros H. left. split; [exact H|]. intros Hin. inversion Hin.
    + intros [[H _]|(p & s & _ & Hs & _)]; [exact H|inversion Hs].
  - destruct (redirect_edges_into cond succ (g, node_at)) as [[g1 node_at1]|err]
      eqn:Hstep.
    + intros Hrun Hcond e.
      apply not_elem_of_cons in Hcond as [Hne Hcond].
      rewrite (IH _ _ _ _ Hrun Hcond).
      split.
      * intros [[He Hnl]|(p & s & Hp & Hs & ->)].
        -- apply (redirect_edges_into_edges _ _ _ _ _ _ Hstep Hne) in He
             as [[He Hns]|(p & Hp & ->)].
           ++ left. split; [exact He|]. rewrite not_elem_of_cons. auto.
           ++ right. exists p, succ. split; [exact Hp|]. split; [set_solver|reflexivity].
        -- apply (redirect_edges_into_edges _ _ _ _ _ _ Hstep Hne) in Hp
             as [[Hp Hns]|(p' & Hp' & [= -> ->])].
           ++ right. exists p, s. split; [exact Hp|]. split; [set_solver|reflexivity].
           ++ contradiction.
      * intros [[He Hnl]|(p & s & Hp & Hs & ->)].
        -- apply not_elem_of_cons in Hnl as [Hns Hnl].
           left. split; [|exact Hnl].
           apply (redirect_edges_into_edges _ _ _ _ _ _ Hstep Hne). auto.
        -- apply elem_of_cons in Hs as [->|Hs].
           ++ left. split; [|exact Hcond].
              apply (redirect_edges_into_edges _ _ _ _ _ _ Hstep Hne). eauto.
           ++ destruct (decide (s = succ)) as [->|Hns].
              ** left. split; [|exact Hcond].
                 apply (redirect_edges_into_edges _ _ _ _ _ _ Hstep Hne). eauto.
              ** right. exists p, s. split; [|auto].
                 apply (redirect_edges_into_edges _ _ _ _ _ _ Hstep Hne). auto.
    + rewrite redirect_fold_Raise. discriminate.
Qed.

Lemma le_max_of_list (l : list nat) (x : nat) :
  x ∈ l -> (x <= foldr Nat.max 0 l)%nat.
Proof.
  induction l as [|y l IH]; [intros H; inversion H|].
  intros H. apply elem_of_cons in H as [->|H]; simpl; [lia|].
  specialize (IH H). lia.
Qed.

Lemma new_identity_fresh (c : CyclicRegion) (others : list nat) :
  (new_identity c others ∉ g_nodes (c_graph c)) /\
  (new_identity c others ∉ others).
Proof.
  unfold new_identity.
  match goal with
  | |- (S (foldr Nat.max _ ?l) ∉ _) /\ _ => set (all := l)
  end.
  split; intros Hin.
  - assert (Hall : S (foldr Nat.max 0%nat all) ∈ all) by (subst all; set_solver).
    apply le_max_of_list in Hall. lia.
  - assert (Hall : S (foldr Nat.max 0%nat all) ∈ all) by (subst all; set_solver).
    apply le_max_of_list in Hall. lia.
Qed.

(** X13: after [_refine_loop_successors] has run on two or more loop
    successors, the graph of the region has no edge into a loop
    successor any more: every edge (p, s) into a successor has been
    replaced by the edge from p to the new ConditionNode, whose identity
    is not a node of the graph before and not a successor; the other
    edges are as they were, and no other edge has been added. *)
Theorem refine_loop_successors_redirects_exits (c c' : CyclicRegion)
    (quasi_topological_sort_nodes : DiGraph -> list nat)
    (loop_successors : list nat) (st st' : TState)
    (Hmany : (2 <= length loop_successors)%nat)
    (Hrun : _refine_loop_successors c quasi_topological_sort_nodes
              loop_successors st = Ok (c', st')) :
  let cond := new_identity c loop_successors in
  (cond ∉ g_nodes (c_graph c)) /\
  (cond ∉ loop_successors) /\
  (forall e, e ∈ g_edges (c_graph c') <->
     (e ∈ g_edges (c_graph c) /\ e.2 ∉ loop_successors) \/
     (exists p s, (p, s) ∈ g_edges (c_graph c) /\ s ∈ loop_successors /\
                  e = (p, cond))) /\
  (forall s, s ∈ loop_successors -> predecessors (c_graph c') s = []) /\
  c_head c' = c_head c.
Proof.
  intros cond.
  destruct (new_identity_fresh c loop_successors) as [Hfresh Hother].
  assert (Hedges : (forall e, e ∈ g_edges (c_graph c') <->
     (e ∈ g_edges (c_graph c) /\ e.2 ∉ loop_successors) \/
     (exists p s, (p, s) ∈ g_edges (c_graph c) /\ s ∈ loop_successors /\
                  e = (p, cond))) /\ c_head c' = c_head c).
  { unfold _refine_loop_successors in Hrun.
    destruct loop_successors as [|first [|second rest]]; simpl in Hmany; try lia.
    destruct (_recover_reaching_conditions _ _ _) as [[conds st1]|];
      [|discriminate].
    destruct (_reaching_conditions conds !! first); [|discriminate].
    destruct (chain_conditions _ _ _ _) as [cond_node|]; [|discriminate].
    match type of Hrun with
    | match ?x with _ => _ end = _ =>
        destruct x as [[g' node_at']|] eqn:Hfold; [|discriminate]
    end.
    injection Hrun as <- <-. simpl. split; [|reflexivity].
    exact (redirect_all_edges _ _ _ _ _ _ Hfold Hother). }
  destruct Hedges as [Hedges Hhead].
  repeat split; try assumption; try apply Hedges.
  intros s Hs. unfold predecessors.
  destruct (filter _ _) as [|e es] eqn:Hf; [reflexivity|].
  assert (He : e ∈ filter (fun e => e.2 = s) (g_edges (c_graph c')))
    by (rewrite Hf; set_solver).
  apply list_elem_of_filter in He as [He2 He].
  apply Hedges in He as [[_ Hout]|(p & s' & _ & _ & ->)].
  - congruence.
  - simpl in He2. subst s. contradiction.
Qed.


(** ** The graph of the loop body region *)

Lemma elem_of_nodes_add_node (g : DiGraph) (n x : nat) :
  x ∈ g_nodes (add_node g n) <-> x ∈ g_nodes g \/ x = n.
Proof.
  unfold add_node. destruct (bool_decide _) eqn:Hin.
  - apply bool_decide_eq_true in Hin. split; [auto|]. intros [H| ->]; auto.
  - simpl. rewrite elem_of_app, list_elem_of_singleton. tauto.
Qed.

Lemma elem_of_nodes_add_edge (g : DiGraph) (e : nat * nat) (x : nat) :
  x ∈ g_nodes (add_edge g e) <-> x ∈ g_nodes g \/ x = e.1 \/ x = e.2.
Proof.
  unfold add_edge. destruct (has_edge _ _); simpl;
    rewrite !elem_of_nodes_add_node; tauto.
Qed.

(** No edge of the graph goes into the head, and no loop successor is
    in the graph. *)
Definition good_graph (loop_head : nat) (loop_successors : list nat)
    (g : DiGraph) : Prop :=
  (forall e, e ∈ g_edges g ->
     e.2 <> loop_head /\ (e.1 ∉ loop_successors) /\ (e.2 ∉ loop_successors)) /\
  (forall n, n ∈ g_nodes g -> n ∉ loop_successors).

Lemma good_add_node h succs (g : DiGraph) (n : nat) :
  good_graph h succs g -> n ∉ succs -> good_graph h succs (add_node g n).
Proof.
  intros [He Hn] Hok. split.
  - intros e. rewrite g_edges_add_node. apply He.
  - intros x Hx. apply elem_of_nodes_add_node in Hx as [Hx| ->]; auto.
Qed.

Lemma good_add_edge h succs (g : DiGraph) (a b : nat) :
  good_graph h succs g -> a ∉ succs -> b ∉ succs -> b <> h ->
  good_graph h succs (add_edge g (a, b)).
Proof.
  intros [He Hn] Ha Hb Hbh. split.
  - intros e Hin. apply elem_of_add_edge in Hin as [Hin| ->]; [auto|]. auto.
  - intros x Hx. apply elem_of_nodes_add_edge in Hx as [Hx|[->| ->]]; auto.
Qed.

Lemma good_remove_node h succs (g : DiGraph) (n : nat) :
  good_graph h succs g -> good_graph h succs (remove_node g n).
Proof.
  intros [He Hn]. split.
  - intros e Hin. apply list_elem_of_filter in Hin as [_ Hin]. auto.
  - intros x Hx. apply list_elem_of_filter in Hx as [_ Hx]. auto.
Qed.

Lemma good_add_edges_to h succs (new : nat) (preds : list nat) :
  forall g,
    good_graph h succs g -> (forall p, p ∈ preds -> p ∉ succs) ->
    new ∉ succs -> new <> h ->
    good_graph h succs (foldl (fun g pred => add_edge g (pred, new)) g preds).
Proof.
  induction preds as [|p preds IH]; intros g Hg Hp Hnew Hh; simpl; [exact Hg|].
  apply IH; auto.
  - apply good_add_edge; auto. apply Hp. set_solver.
  - intros q Hq. apply Hp. set_solver.
Qed.

Lemma good_predecessors h succs (g : DiGraph) (n p : nat) :
  good_graph h succs g -> p ∈ predecessors g n -> p ∉ succs.
Proof.
  intros [He _] Hp. unfold predecessors in Hp.
  apply list_elem_of_fmap in Hp as (e & -> & Hin).
  apply list_elem_of_filter in Hin as [_ Hin]. apply He. exact Hin.
Qed.

Lemma visit_successors_good h succs traversed (replaced : gmap nat nat)
    (node : nat) (successors : list nat) :
  forall g queue g' queue',
    visit_successors h succs traversed replaced node successors g queue =
      (g', queue') ->
    good_graph h succs g -> node ∉ succs ->
    (forall k v, replaced !! k = Some v -> (v ∉ succs) /\ v <> h) ->
    (forall q, q ∈ queue -> q ∉ succs) ->
    good_graph h succs g' /\ (forall q, q ∈ queue' -> q ∉ succs).
Proof.
  unfold visit_successors.
  induction successors as [|dst successors IH]; intros g queue g' queue'; simpl.
  - intros [= <- <-]. auto.
  - intros Hrun Hg Hnode Hrep Hq.
    destruct (bool_decide (dst ∈ succs)) eqn:Hdst; [eapply IH; eauto|].
    apply bool_decide_eq_false in Hdst.
    assert (Hg1 : good_graph h succs
              (if bool_decide (dst = h) then g
               else add_edge g (node, default dst (replaced !! dst)))).
    { destruct (bool_decide (dst = h)) eqn:Hh; [exact Hg|].
      apply bool_decide_eq_false in Hh.
      destruct (replaced !! dst) as [v|] eqn:Hv; simpl.
      - destruct (Hrep _ _ Hv). apply good_add_edge; auto.
      - apply good_add_edge; auto. }
    destruct (bool_decide (dst ∈ traversed) || bool_decide (dst ∈ queue)).
    + eapply IH; eauto.
    + eapply IH; eauto. intros q Hin.
      apply elem_of_app in Hin as [Hin|Hin]; [auto|].
      apply list_elem_of_singleton in Hin as ->. exact Hdst.
Qed.

(** The invariant of the traversal for the shape of the graph. *)
Definition good_traversal (loop_head : nat) (loop_successors : list nat)
    (bound : nat) (s : LoopBody) : Prop :=
  good_graph loop_head loop_successors (lb_graph s) /\
  (forall k v, lb_replaced s !! k = Some v -> (bound <= v)%nat) /\
  (forall q, q ∈ lb_queue s -> q ∉ loop_successors) /\
  (bound <= lb_fresh s)%nat.

Lemma loop_body_step_good graph h succs addrs nodes (bound : nat)
    (s s' : LoopBody) :
  (forall v, (bound <= v)%nat -> (v ∉ succs) /\ v <> h) ->
  good_traversal h succs bound s ->
  loop_body_step graph h succs addrs nodes s = Ok s' ->
  good_traversal h succs bound s'.
Proof.
  intros Hbound (Hg & Hrep & Hq & Hfresh). unfold loop_body_step.
  destruct (lb_queue s) as [|node queue] eqn:Hqueue.
  { intros [= <-]. unfold good_traversal. rewrite Hqueue. auto. }
  destruct (exit_conversion _ _ _ _) as [[[node' new_node] st']|]; [|discriminate].
  assert (Hnode : node ∉ succs) by (apply Hq; set_solver).
  assert (Hqueue' : forall q, q ∈ queue -> q ∉ succs)
    by (intros q Hin; apply Hq; set_solver).
  pose proof (good_add_node _ _ _ _ Hg Hnode) as Hg1.
  destruct (Hbound _ Hfresh) as [Hnew Hnewh].
  assert (Hrep' : forall k v, lb_replaced s !! k = Some v -> (v ∉ succs) /\ v <> h)
    by (intros k v Hv; apply Hbound; eauto).
  destruct new_node as [break_node|]; [destruct (is_emptied_block node')|].
  - destruct (visit_successors _ _ _ _ _ _ _ _) as [g3 queue'] eqn:Hvisit.
    intros [= <-].
    eapply visit_successors_good in Hvisit as [Hg3 Hq3]; eauto.
    + split; [exact Hg3|]. split; [|split; [exact Hq3|simpl; lia]].
      simpl. intros k v Hv. destruct (decide (node = k)) as [->|Hne].
      * rewrite lookup_insert_eq in Hv. injection Hv as <-. exact Hfresh.
      * rewrite lookup_insert_ne in Hv by exact Hne. eauto.
    + apply good_add_edges_to; auto.
      * apply good_remove_node. exact Hg1.
      * intros p Hp. eapply good_predecessors; eauto.
    + intros k v Hv. destruct (decide (node = k)) as [->|Hne].
      * rewrite lookup_insert_eq in Hv. injection Hv as <-. auto.
      * rewrite lookup_insert_ne in Hv by exact Hne. eauto.
  - destruct (visit_successors _ _ _ _ _ _ _ _) as [g3 queue'] eqn:Hvisit.
    intros [= <-].
    eapply visit_successors_good in Hvisit as [Hg3 Hq3]; eauto.
    + split; [exact Hg3|]. split; [exact Hrep|split; [exact Hq3|simpl; lia]].
    + apply good_add_edge; auto.
  - destruct (visit_successors _ _ _ _ _ _ _ _) as [g3 queue'] eqn:Hvisit.
    intros [= <-].
    eapply visit_successors_good in Hvisit as [Hg3 Hq3]; eauto.
    split; [exact Hg3|]. split; [exact Hrep|split; [exact Hq3|exact Hfresh]].
Qed.

Lemma loop_body_traversal_good graph h succs addrs nodes (bound : nat)
    (fuel : nat) :
  forall s s',
    (forall v, (bound <= v)%nat -> (v ∉ succs) /\ v <> h) ->
    good_traversal h succs bound s ->
    loop_body_traversal fuel graph h succs addrs nodes s = Some (Ok s') ->
    good_traversal h succs bound s' /\ lb_queue s' = [].
Proof.
  induction fuel as [|fuel IH]; intros s s' Hbound Hgood; simpl;
    destruct (lb_queue s) as [|node queue] eqn:Hqueue;
    try discriminate;
    try (intros [= <-]; auto).
  destruct (loop_body_step graph h succs addrs nodes s) as [s1|] eqn:Hstep;
    [|discriminate].
  apply IH; [exact Hbound|].
  eapply loop_body_step_good; eauto.
Qed.

Lemma first_unused_above (graph : DiGraph) (h : nat) (succs : list nat) (v : nat) :
  (first_unused graph h succs <= v)%nat -> (v ∉ succs) /\ v <> h.
Proof.
  unfold first_unused.
  match goal with
  | |- (S (foldr Nat.max _ ?l) <= _)%nat -> _ => set (all := l)
  end.
  intros Hle. split.
  - intros Hin.
    assert (Hall : v ∈ all) by (subst all; set_solver).
    apply le_max_of_list in Hall. lia.
  - intros ->.
    assert (Hall : h ∈ all) by (subst all; set_solver).
    apply le_max_of_list in Hall. lia.
Qed.

Lemma loop_body_region_graph_good (fuel : nat) (c : CyclicRegion)
    (loop_successors : list nat) (st : TState) (s' : LoopBody)
    (Hhead : c_head c ∉ loop_successors)
    (Hrun : loop_body_region_graph fuel c loop_successors st = Some (Ok s')) :
  (forall e, e ∈ g_edges (lb_graph s') ->
     e.2 <> c_head c /\ (e.1 ∉ loop_successors) /\ (e.2 ∉ loop_successors)) /\
  (forall n, n ∈ g_nodes (lb_graph s') -> n ∉ loop_successors) /\
  lb_queue s' = [].
Proof.
  unfold loop_body_region_graph in Hrun.
  eapply loop_body_traversal_good in Hrun as [(Hg & _) Hq].
  - destruct Hg as [He Hn]. auto.
  - apply first_unused_above.
  - split; [split|split; [|split]]; simpl.
    + intros e He. inversion He.
    + intros n Hn. inversion Hn.
    + intros k v Hv. rewrite lookup_empty in Hv. discriminate.
    + intros q Hin. apply list_elem_of_singleton in Hin as ->. exact Hhead.
    + apply Nat.le_refl.
Qed.

(** X14: the graph the traversal of [_to_loop_body_sequence] builds for
    the loop body has no edge into the loop head, so the cycle through
    the head is cut, and no loop successor is a node of it or an end of
    one of its edges; the traversal ends with an empty queue. *)
Theorem loop_body_region_graph_cuts_the_cycle (fuel : nat) (c : CyclicRegion)
    (loop_successors : list nat) (st : TState) (s' : LoopBody)
    (Hhead : c_head c ∉ loop_successors)
    (Hrun : loop_body_region_graph fuel c loop_successors st = Some (Ok s')) :
  (forall e, e ∈ g_edges (lb_graph s') ->
     e.2 <> c_head c /\ (e.1 ∉ loop_successors) /\ (e.2 ∉ loop_successors)) /\
  (forall n, n ∈ g_nodes (lb_graph s') -> n ∉ loop_successors) /\
  lb_queue s' = [].
Proof. exact (loop_body_region_graph_good _ _ _ _ _ Hhead Hrun). Qed.


(** ** The traversal ends *)

Lemma visit_successors_queue h succs traversed (replaced : gmap nat nat)
    (node : nat) (P : nat -> Prop) (successors : list nat) :
  forall g queue g' queue',
    visit_successors h succs traversed replaced node successors g queue =
      (g', queue') ->
    NoDup (traversed ++ queue) ->
    (forall x, x ∈ queue -> P x) ->
    (forall x, x ∈ successors -> P x) ->
    NoDup (traversed ++ queue') /\ (forall x, x ∈ queue' -> P x).
Proof.
  unfold visit_successors.
  induction successors as [|dst successors IH]; intros g queue g' queue'; simpl.
  - intros [= <- <-]. auto.
  - intros Hrun Hnd Hq Hs.
    assert (Hs' : forall x, x ∈ successors -> P x)
      by (intros x Hx; apply Hs; set_solver).
    destruct (bool_decide (dst ∈ succs)); [eapply IH; eauto|].
    destruct (bool_decide (dst ∈ traversed)) eqn:Ht; simpl in Hrun;
      [eapply IH; eauto|].
    destruct (bool_decide (dst ∈ queue)) eqn:Hdq; simpl in Hrun;
      [eapply IH; eauto|].
    apply bool_decide_eq_false in Ht. apply bool_decide_eq_false in Hdq.
    eapply IH; eauto.
    + rewrite app_assoc. apply NoDup_app. split; [exact Hnd|].
      split; [|apply NoDup_singleton].
      intros x Hx Hx'. apply list_elem_of_singleton in Hx' as ->.
      apply elem_of_app in Hx as [Hx|Hx]; contradiction.
    + intros x Hx. apply elem_of_app in Hx as [Hx|Hx]; [auto|].
      apply list_elem_of_singleton in Hx as ->. apply Hs. set_solver.
Qed.

(** The invariant of the traversal for the queue: no node is waiting or
    was visited twice, and all are nodes of the graph of the region. *)
Definition tidy_traversal (graph : DiGraph) (s : LoopBody) : Prop :=
  NoDup (lb_traversed s ++ lb_queue s) /\
  forall x, x ∈ lb_traversed s ++ lb_queue s -> x ∈ g_nodes graph.

Lemma loop_body_step_tidy graph h succs addrs nodes (s s' : LoopBody) :
  (forall e, e ∈ g_edges graph -> e.2 ∈ g_nodes graph) ->
  lb_queue s <> [] ->
  tidy_traversal graph s ->
  loop_body_step graph h succs addrs nodes s = Ok s' ->
  tidy_traversal graph s' /\
  length (lb_traversed s') = S (length (lb_traversed s)).
Proof.
  intros Hwf Hne [Hnd Hin]. unfold loop_body_step.
  destruct (lb_queue s) as [|node queue] eqn:Hqueue; [congruence|].
  destruct (exit_conversion _ _ _ _) as [[[node' new_node] st']|]; [|discriminate].
  assert (Hsucc : forall x, x ∈ successors graph node -> x ∈ g_nodes graph).
  { intros x Hx. unfold successors in Hx.
    apply list_elem_of_fmap in Hx as (e & -> & He).
    apply list_elem_of_filter in He as [_ He]. apply Hwf. exact He. }
  assert (Hnd' : NoDup ((lb_traversed s ++ [node]) ++ queue))
    by (rewrite <- app_assoc; exact Hnd).
  assert (Hq' : forall x, x ∈ queue -> x ∈ g_nodes graph)
    by (intros x Hx; apply Hin; set_solver).
  assert (Hfinish : forall g2 replaced current g3 queue',
            visit_successors h succs (lb_traversed s ++ [node]) replaced current
              (successors graph node) g2 queue = (g3, queue') ->
            NoDup ((lb_traversed s ++ [node]) ++ queue') /\
            forall x, x ∈ (lb_traversed s ++ [node]) ++ queue' ->
                      x ∈ g_nodes graph).
  { intros g2 replaced current g3 queue' Hvisit.
    eapply (visit_successors_queue _ _ _ _ _ (fun x => x ∈ g_nodes graph))
      in Hvisit as [Hnd3 Hq3]; eauto.
    split; [exact Hnd3|].
    intros x Hx. apply elem_of_app in Hx as [Hx|Hx]; [|auto].
    apply Hin. set_solver. }
  destruct new_node as [break_node|]; [destruct (is_emptied_block node')|];
    destruct (visit_successors _ _ _ _ _ _ _ _) as [g3 queue'] eqn:Hvisit;
    intros [= <-]; simpl;
    (split; [eapply Hfinish; eauto|rewrite length_app; simpl; lia]).
Qed.

Lemma loop_body_traversal_ends graph h succs addrs nodes (fuel : nat) :
  forall s,
    (forall e, e ∈ g_edges graph -> e.2 ∈ g_nodes graph) ->
    tidy_traversal graph s ->
    (length (g_nodes graph) <= fuel + length (lb_traversed s))%nat ->
    exists r,
      loop_body_traversal fuel graph h succs addrs nodes s = Some r /\
      forall s', r = Ok s' -> tidy_traversal graph s' /\ lb_queue s' = [].
Proof.
  induction fuel as [|fuel IH]; intros s Hwf Htidy Hfuel; simpl;
    destruct (lb_queue s) as [|node queue] eqn:Hqueue;
    try (eexists; split; [reflexivity|]; intros s' [= <-]; auto; fail).
  - exfalso. destruct Htidy as [Hnd Hin]. rewrite Hqueue in *.
    pose proof (submseteq_length _ _ (NoDup_submseteq _ _ Hnd Hin)) as Hlen.
    rewrite length_app in Hlen. simpl in *. lia.
  - destruct (loop_body_step graph h succs addrs nodes s) as [s1|e] eqn:Hstep.
    + assert (Hne : lb_queue s <> []) by (rewrite Hqueue; discriminate).
      destruct (loop_body_step_tidy _ _ _ _ _ _ _ Hwf Hne Htidy Hstep)
        as [Htidy1 Hlen1].
      apply IH; [exact Hwf|exact Htidy1|lia].
    + eexists; split; [reflexivity|]. discriminate.
Qed.

Lemma loop_body_traversal_more_fuel graph h succs addrs nodes (fuel : nat) :
  forall s r fuel',
    loop_body_traversal fuel graph h succs addrs nodes s = Some r ->
    (fuel <= fuel')%nat ->
    loop_body_traversal fuel' graph h succs addrs nodes s = Some r.
Proof.
  induction fuel as [|fuel IH]; intros s r fuel'; simpl;
    destruct (lb_queue s) as [|node queue] eqn:Hqueue; try discriminate;
    try (intros [= <-] _; destruct fuel'; simpl; rewrite Hqueue; reflexivity).
  intros Hrun Hle. destruct fuel' as [|fuel']; [lia|]. simpl. rewrite Hqueue.
  destruct (loop_body_step graph h succs addrs nodes s) as [s1|e];
    [|exact Hrun].
  apply IH; [exact Hrun|lia].
Qed.

(** X15: on a region graph whose edges end in nodes of the graph, the
    traversal of [_to_loop_body_sequence] ends after at most as many
    iterations as the graph has nodes, with the same outcome for every
    larger number of iterations; when it returns, every node was taken
    from the queue at most once and all of them are nodes of the
    region. *)
Theorem loop_body_traversal_terminates (c : CyclicRegion)
    (loop_successors : list nat) (st : TState)
    (Hhead : c_head c ∈ g_nodes (c_graph c))
    (Hwf : forall e, e ∈ g_edges (c_graph c) -> e.2 ∈ g_nodes (c_graph c)) :
  exists r,
    (forall fuel, (length (g_nodes (c_graph c)) <= fuel)%nat ->
       loop_body_region_graph fuel c loop_successors st = Some r) /\
    forall s', r = Ok s' ->
      NoDup (lb_traversed s') /\
      (forall n, n ∈ lb_traversed s' -> n ∈ g_nodes (c_graph c)) /\
      (length (lb_traversed s') <= length (g_nodes (c_graph c)))%nat /\
      lb_queue s' = [].
Proof.
  unfold loop_body_region_graph.
  match goal with
  | |- exists r, (forall fuel, _ -> loop_body_traversal _ ?g ?h ?su ?ad ?no ?s = _) /\ _ =>
      destruct (loop_body_traversal_ends g h su ad no (length (g_nodes g)) s)
        as (r & Hrun & Hok)
  end.
  - exact Hwf.
  - split; simpl.
    + apply NoDup_singleton.
    + intros x Hx. apply list_elem_of_singleton in Hx as ->. exact Hhead.
  - simpl. lia.
  - exists r. split.
    + intros fuel Hfuel. eapply loop_body_traversal_more_fuel; eauto.
    + intros s' ->. destruct (Hok s' eq_refl) as [[Hnd Hin] Hq].
      rewrite Hq, app_nil_r in *.
      split; [exact Hnd|]. split; [exact Hin|]. split; [|reflexivity].
      exact (submseteq_length _ _ (NoDup_submseteq _ _ Hnd Hin)).
Qed.


(** ** What the translation back to native conditions keeps *)

Section RemoveClaripy.
Variable convert : Expr -> result Expr.










End RemoveClaripy.



(** ** From loop identification to the loop body *)

Lemma refine_loop_successors_head (c c' : CyclicRegion)
    (quasi_topological_sort_nodes : DiGraph -> list nat)
    (loop_successors : list nat) (st st' : TState) :
  _refine_loop_successors c quasi_topological_sort_nodes loop_successors st =
    Ok (c', st') ->
  c_head c' = c_head c.
Proof.
  unfold _refine_loop_successors.
  destruct loop_successors as [|first [|second rest]];
    try (intros [= <- <-]; reflexivity).
  destruct (_recover_reaching_conditions _ _ _) as [[conds st1]|];
    [|discriminate].
  destruct (_reaching_conditions conds !! first); [|discriminate].
  destruct (chain_conditions _ _ _ _) as [cond_node|]; [|discriminate].
  match goal with
  | |- match ?x with _ => _ end = _ -> _ =>
      destruct x as [[g' node_at']|]; [|discriminate]
  end.
  intros [= <- <-]. reflexivity.
Qed.

(** X17: when [_analyze_cyclic] gets as far as building the loop body,
    it does so with the head of the region it was given, with at most
    one loop successor, with loop nodes and successors that are those of
    the (possibly refined) region, and the head is a loop node and not
    a successor; so the graph built for the loop body has no edge back
    into the head and holds no loop successor. *)
Theorem analyze_cyclic_enters_loop_body (c c' : CyclicRegion)
    (quasi_topological_sort_nodes : DiGraph -> list nat) (st st' : TState)
    (loop_subgraph successors : list nat)
    (Hrun : analyze_cyclic_until_loop_body c quasi_topological_sort_nodes st =
            Some (Ok (c', loop_subgraph, successors, st'))) :
  (length successors <= 1)%nat /\
  c_head c' = c_head c /\
  _find_loop_nodes_and_successors c' = Some (Ok (loop_subgraph, successors)) /\
  c_head c' ∈ loop_subgraph /\
  (c_head c' ∉ successors) /\
  forall fuel st0 s',
    loop_body_region_graph fuel c' successors st0 = Some (Ok s') ->
    forall e, e ∈ g_edges (lb_graph s') ->
      e.2 <> c_head c' /\ (e.1 ∉ successors) /\ (e.2 ∉ successors).
Proof.
  pose proof (loop_body_entered_with_at_most_one_successor _ _ _ _ _ _ _ Hrun)
    as Hlen.
  assert (Hfound : c_head c' = c_head c /\
            _find_loop_nodes_and_successors c' =
              Some (Ok (loop_subgraph, successors))).
  { revert Hrun. unfold analyze_cyclic_until_loop_body.
    destruct (_find_loop_nodes_and_successors c) as [[[sub succs]|]|] eqn:Hf;
      try discriminate.
    destruct (bool_decide (1 < length succs)%nat).
    - destruct (_refine_loop_successors c _ succs st) as [[c1 st1]|] eqn:Hr;
        [|discriminate].
      destruct (_find_loop_nodes_and_successors c1) as [[[sub' succs']|]|] eqn:Hf1;
        try discriminate.
      destruct (bool_decide (length succs' <= 1)%nat); [|discriminate].
      intros [= <- <- <- <-]. split; [|exact Hf1].
      eapply refine_loop_successors_head; eauto.
    - destruct (bool_decide (length succs <= 1)%nat); [|discriminate].
      intros [= <- <- <- <-]. auto. }
  destruct Hfound as [Hhead Hfound].
  destruct (find_loop_nodes_invariants _ _ _ Hfound) as (Hin & Hdisj & _ & _).
  assert (Hout : c_head c' ∉ successors) by (intros Hs; exact (Hdisj _ Hs Hin)).
  split; [exact Hlen|]. split; [exact Hhead|]. split; [exact Hfound|].
  split; [exact Hin|]. split; [exact Hout|].
  intros fuel st0 s' Hbody.
  apply (loop_body_region_graph_good _ _ _ _ _ Hout Hbody).
Qed.


(** ** The ConditionNode made for several loop successors *)

(** The arms of a chain of ConditionNodes linked through their false
    nodes, outermost first: the condition and the true node of each. *)
Fixpoint condition_arms (n : Node) : list (Expr * Node) :=
  match n with
  | ConditionNode _ _ condition true_node false_node =>
      (condition, true_node) ::
      match false_node with
      | Some f => condition_arms f
      | None => []
      end
  | _ => []
  end.

(** X18: the loop of [_refine_loop_successors] that chains the
    ConditionNodes puts one arm for each further successor, on the
    reaching condition of the successor, in front of the arms of the
    node it starts from, in the reverse of their order: the arm of the
    last successor is outermost; when a successor has no reaching
    condition, KeyError is raised. *)
Theorem chain_conditions_arms (reaching_conditions : gmap nat AST)
    (node_at : nat -> Node) (successors : list nat) (cond : Node) :
  match chain_conditions reaching_conditions node_at successors cond with
  | Ok cond_node =>
      exists rcs,
        Forall2 (fun succ rc => reaching_conditions !! succ = Some rc)
                successors rcs /\
        condition_arms cond_node =
          rev (zip_with (fun succ rc => (ClaripyAST rc, node_at succ))
                        successors rcs) ++
          condition_arms cond
  | Raise e =>
      e = KeyError /\
      exists succ, succ ∈ successors /\ reaching_conditions !! succ = None
  end.
Proof.
  revert cond. induction successors as [|succ rest IH]; intros cond; simpl.
  - exists []. split; [constructor|]. reflexivity.
  - destruct (reaching_conditions !! succ) as [rc|] eqn:Hrc.
    + specialize (IH (ConditionNode (-1) None (ClaripyAST rc) (node_at succ)
                        (Some cond))).
      destruct (chain_conditions _ _ rest _) as [cond_node|e].
      * destruct IH as (rcs & Hall & Harms). exists (rc :: rcs).
        split; [constructor; assumption|].
        rewrite Harms. simpl. rewrite <- app_assoc. reflexivity.
      * destruct IH as (-> & s & Hs & Hnone). split; [reflexivity|].
        exists s. split; [set_solver|exact Hnone].
    + split; [reflexivity|]. exists succ. split; [set_solver|exact Hrc].
Qed.


(** ** The simplification keeps the meaning of a condition *)

Section Meaning.
(** The truth value of a condition for one valuation of its variables,
    as claripy defines it for the connectives, with what the solver and
    [claripy.simplify] guarantee. *)
Variable eval : AST -> bool.
Hypothesis eval_Not : forall a, eval (claripy.Not a) = negb (eval a).
Hypothesis eval_And : forall a b, eval (claripy.And a b) = eval a && eval b.
Hypothesis eval_Or_star : forall a rest,
  eval (claripy.Or_star a rest) = eval a || existsb eval rest.
Hypothesis eval_view_Or : forall x a b rest,
  claripy.view_of x = claripy.VOr a b rest ->
  eval x = eval a || eval b || existsb eval rest.
Hypothesis eval_view_And : forall x a b,
  claripy.view_of x = claripy.VAnd a b [] -> eval x = eval a && eval b.
Hypothesis eval_unsatisfiable : forall a b,
  claripy.eq_satisfiable a b = false -> eval a = negb (eval b).
Hypothesis eval_simplify : forall a, eval (claripy.simplify a) = eval a.

(** Every And among the first two arguments of [cond] has two
    arguments. *)
Definition binary_Ands (cond : AST) : Prop :=
  forall a b rest, claripy.view_of cond = claripy.VOr a b rest ->
    forall arg x y more, arg = a \/ arg = b ->
      claripy.view_of arg = claripy.VAnd x y more -> more = [].

Lemma revert_short_circuit_conditions_meaning (cond : AST) :
  binary_Ands cond ->
  eval (_revert_short_circuit_conditions cond) = eval cond.
Proof.
  intros Hbin. unfold _revert_short_circuit_conditions.
  destruct (claripy.view_of cond) as [a b rest| |] eqn:Hcond; try reflexivity.
  specialize (Hbin a b rest Hcond).
  pose proof (eval_view_Or _ _ _ _ Hcond) as Hor.
  assert (Hfound : forall not_a and_arg not_b other,
            eval not_a || eval and_arg = eval a || eval b ->
            eval and_arg = eval other && eval not_b \/
            eval and_arg = eval not_b && eval other ->
            eval not_a = negb (eval other) ->
            eval match rest with
                 | [] => claripy.Not (claripy.And (claripy.Not not_a)
                                        (claripy.Not not_b))
                 | _ :: _ =>
                     claripy.Or_star
                       (claripy.Not (claripy.And (claripy.Not not_a)
                                       (claripy.Not not_b))) rest
                 end = eval cond).
  { intros not_a and_arg not_b other Hargs Hand Hneg.
    rewrite Hor, <- Hargs.
    assert (Hcore : eval (claripy.Not (claripy.And (claripy.Not not_a)
                                          (claripy.Not not_b))) =
                    eval not_a || eval and_arg).
    { rewrite eval_Not, eval_And, !eval_Not, Hneg.
      destruct Hand as [-> | ->];
        destruct (eval other), (eval not_b); reflexivity. }
    destruct rest as [|r rest'].
    - rewrite Hcore. simpl. rewrite orb_false_r. reflexivity.
    - rewrite eval_Or_star, Hcore. reflexivity. }
  destruct (claripy.view_of b) as [| x y more|] eqn:Hb.
  - destruct (claripy.view_of a) as [| x y more|] eqn:Ha; try reflexivity.
    pose proof (Hbin a x y more (or_introl eq_refl) Ha) as ->.
    pose proof (eval_view_And _ _ _ Ha) as Hand.
    destruct (claripy.same_variables b x).
    + destruct (claripy.eq_satisfiable b x) eqn:Hsat; [reflexivity|]. simpl.
      apply (Hfound b a y x); [apply orb_comm|auto|].
      apply eval_unsatisfiable. exact Hsat.
    + destruct (claripy.same_variables b y); [|reflexivity].
      destruct (claripy.eq_satisfiable b y) eqn:Hsat; [reflexivity|]. simpl.
      apply (Hfound b a x y); [apply orb_comm|auto|].
      apply eval_unsatisfiable. exact Hsat.
  - pose proof (Hbin b x y more (or_intror eq_refl) Hb) as ->.
    pose proof (eval_view_And _ _ _ Hb) as Hand.
    destruct (claripy.same_variables a x).
    + destruct (claripy.eq_satisfiable a x) eqn:Hsat; [reflexivity|]. simpl.
      apply (Hfound a b y x); [reflexivity|auto|].
      apply eval_unsatisfiable. exact Hsat.
    + destruct (claripy.same_variables a y); [|reflexivity].
      destruct (claripy.eq_satisfiable a y) eqn:Hsat; [reflexivity|]. simpl.
      apply (Hfound a b x y); [reflexivity|auto|].
      apply eval_unsatisfiable. exact Hsat.
  - destruct (claripy.view_of a) as [| x y more|] eqn:Ha; try reflexivity.
    pose proof (Hbin a x y more (or_introl eq_refl) Ha) as ->.
    pose proof (eval_view_And _ _ _ Ha) as Hand.
    destruct (claripy.same_variables b x).
    + destruct (claripy.eq_satisfiable b x) eqn:Hsat; [reflexivity|]. simpl.
      apply (Hfound b a y x); [apply orb_comm|auto|].
      apply eval_unsatisfiable. exact Hsat.
    + destruct (claripy.same_variables b y); [|reflexivity].
      destruct (claripy.eq_satisfiable b y) eqn:Hsat; [reflexivity|]. simpl.
      apply (Hfound b a x y); [apply orb_comm|auto|].
      apply eval_unsatisfiable. exact Hsat.
Qed.

Lemma simplify_condition_meaning (cond : AST) :
  binary_Ands cond -> eval (_simplify_condition cond) = eval cond.
Proof.
  intros Hbin. unfold _simplify_condition.
  destruct (negb _); [apply eval_simplify|].
  apply revert_short_circuit_conditions_meaning. exact Hbin.
Qed.

End Meaning.

(** X19: [_simplify_condition] and the rewrite of short-circuit
    conditions keep the truth value of a condition, for every valuation
    under which the connectives, [claripy.simplify] and the solver mean
    what claripy says, provided the And the rewrite may take apart has
    two arguments (the rewrite reads the first two arguments of that And
    and no others). *)
Theorem simplify_condition_keeps_the_meaning (eval : AST -> bool) (cond : AST)
    (eval_Not : forall a, eval (claripy.Not a) = negb (eval a))
    (eval_And : forall a b, eval (claripy.And a b) = eval a && eval b)
    (eval_Or_star : forall a rest,
       eval (claripy.Or_star a rest) = eval a || existsb eval rest)
    (eval_view_Or : forall x a b rest,
       claripy.view_of x = claripy.VOr a b rest ->
       eval x = eval a || eval b || existsb eval rest)
    (eval_view_And : forall x a b,
       claripy.view_of x = claripy.VAnd a b [] -> eval x = eval a && eval b)
    (eval_unsatisfiable : forall a b,
       claripy.eq_satisfiable a b = false -> eval a = negb (eval b))
    (eval_simplify : forall a, eval (claripy.simplify a) = eval a)
    (Hbinary : binary_Ands cond) :
  eval (_simplify_condition cond) = eval cond /\
  eval (_revert_short_circuit_conditions cond) = eval cond.
Proof.
  split.
  - apply simplify_condition_meaning; assumption.
  - apply revert_short_circuit_conditions_meaning; assumption.
Qed.


(** ** Dropping empty nodes loses no statement *)









End Structurer.

(** * Runs on concrete regions *)

(** [repr] of the native expressions of the examples. *)
Fixpoint expr_repr (e : @Expr TermAlgebra.term) : string :=
  match e with
  | Const _ v _ => pretty v
  | Tmp _ i _ => "t" +:+ pretty i
  | Register _ o _ => "reg" +:+ pretty o
  | Load _ a _ => "Load(" +:+ expr_repr a +:+ ")"
  | DirtyExpression _ d _ => d
  | Convert _ f t o =>
      "Conv(" +:+ pretty f +:+ "->" +:+ pretty t +:+ ", " +:+ expr_repr o +:+ ")"
  | UnaryOp _ op o => op +:+ "(" +:+ expr_repr o +:+ ")"
  | BinaryOp _ op a b =>
      op +:+ "(" +:+ expr_repr a +:+ ", " +:+ expr_repr b +:+ ")"
  | ClaripyAST a => TermAlgebra.repr a
  end.

Definition native_repr : @ailment.Repr TermAlgebra.term := expr_repr.


#[local] Existing Instance TermAlgebra.algebra.
#[local] Existing Instance native_repr.

(** A register read used as a branch condition, and its variable. *)
Definition ex_cond : @Expr TermAlgebra.term := Register (Some 1) 16 1.
Definition ex_state : @TState TermAlgebra.term := mkTState [] 0.

(** The diamond A -> B (true arm), A -> C (false arm), B -> D, C -> D. *)
Definition ex_A : @Node TermAlgebra.term :=
  AilBlock 16 [OtherStmt "t0 = rax"; ConditionalJump (Some 7) ex_cond 32 48 20].
Definition ex_B : @Node TermAlgebra.term :=
  AilBlock 32 [OtherStmt "rbx = 1"; Jump (Some 8) 64 36].
Definition ex_C : @Node TermAlgebra.term := AilBlock 48 [Jump (Some 9) 64 52].
Definition ex_D : @Node TermAlgebra.term := AilBlock 64 [OtherStmt "return"].

Definition ex_diamond : @Region TermAlgebra.term :=
  mkRegion 0 (mkDiGraph [0; 1; 2; 3] [(0, 1); (0, 2); (1, 3); (2, 3)])%nat
    (fun i => match i with
              | O => ex_A
              | 1%nat => ex_B
              | 2%nat => ex_C
              | _ => ex_D
              end).

Definition ex_order : list nat := [0; 1; 2; 3]%nat.

(** The conditions recovered for the diamond. *)
Definition ex_conditions
    : result (@Conditions TermAlgebra.term * @TState TermAlgebra.term) :=
  Eval vm_compute in _recover_reaching_conditions ex_diamond ex_order ex_state.

Definition ex_var : TermAlgebra.term := TermAlgebra.TBVS "ailexpr_reg16-1" 1.

(** The reaching conditions of the diamond: the head is reachable, and
    the join is reached from both arms. *)
Lemma reaching_conditions_of_diamond :
  exists conds st',
    _recover_reaching_conditions ex_diamond ex_order ex_state = Ok (conds, st') /\
    _reaching_conditions conds !! 0%nat = Some TermAlgebra.TTrue /\
    exists c,
      disjunction
        (rev (reaching_term (_edge_conditions conds) (_reaching_conditions conds)
                3%nat <$> [1; 2]%nat)) = Some c /\
      _reaching_conditions conds !! 3%nat = Some (_simplify_condition c).
Proof.
  destruct ex_conditions as [[conds st']|] eqn:Hrun; [|discriminate].
  exists conds, st'. split; [exact Hrun|].
  assert (Htopo : forall l1 n l2, ex_order = l1 ++ n :: l2 ->
            forall p, p ∈ predecessors (region_graph ex_diamond) n -> p ∈ l1).
  { intros l1 n l2 Ho p Hp.
    do 4 (destruct l1 as [|? l1];
          [injection Ho as <- <-; vm_compute in Hp; set_solver
          |injection Ho as <- Ho]).
    destruct l1; discriminate. }
  assert (Hreached : forall n, n ∈ ex_order -> n <> region_head ex_diamond ->
            predecessors (region_graph ex_diamond) n <> []).
  { intros n Hn Hne. unfold ex_order in Hn.
    repeat (apply elem_of_cons in Hn as [->|Hn]); try discriminate.
    - contradiction.
    - apply elem_of_nil in Hn. contradiction. }
  destruct (reaching_conditions_recovered (CA := TermAlgebra.algebra)
              ex_diamond ex_order ex_state st' conds
              eq_refl eq_refl (reflexivity _)
              ltac:(unfold ex_order; repeat constructor; set_solver)
              Htopo Hreached Hrun) as [Hhead Hnodes].
  split; [apply Hhead; unfold ex_order; set_solver|].
  apply Hnodes; [unfold ex_order; set_solver|discriminate].
Defined.

(** Negation, away from stacked negations. *)
Lemma negate_cond_twice_on_a_comparison :
  likes (_negate_cond (_negate_cond (UnaryOp (Some 5) "Not" ex_cond)))
        (UnaryOp (Some 5) "Not" ex_cond) = Datatypes.true /\
  is_Not_Not (_negate_cond (UnaryOp (Some 5) "Not" ex_cond)) = false.
Proof.
  exact (proj2 (negate_cond_involutive_unless_stacked
                  (UnaryOp (Some 5) "Not" ex_cond) eq_refl)).
Defined.

(** C9 as stated fails on stacked negations: negating Not(Not(c)) twice
    gives c, and the negation of Not(Not(Not(c))) is Not(Not(c)). *)
Lemma negate_cond_stacked_counterexample :
  let e := UnaryOp (Some 2) "Not" (UnaryOp (Some 3) "Not" ex_cond) in
  _negate_cond (_negate_cond e) = ex_cond /\
  likes (_negate_cond (_negate_cond e)) e = false /\
  is_Not_Not (_negate_cond (UnaryOp (Some 4) "Not" e)) = Datatypes.true.
Proof. repeat split. Qed.

(** Loop bodies for the shape refinement. *)
Definition ex_break : @Node TermAlgebra.term :=
  ConditionalBreakNode 40 ex_cond 96.
Definition ex_block : @Node TermAlgebra.term :=
  AilBlock 32 [OtherStmt "rbx = 1"].

(** A loop with a leading break becomes a while loop. *)
Lemma refine_loop_leading_break :
  exists loop_node,
    _refine_loop (LoopNode "while" None [ex_break; ex_block] (Some 16)) =
      Ok loop_node /\
    shape_of loop_node =
      Some ("while"%string, Some (UnaryOp (Some 0) "Not" ex_cond), [ex_block]).
Proof.
  exact (refine_loop_shape [ex_break; ex_block] (Some 16)
           ltac:(discriminate)).
Defined.

(** The two rules do not look at a CodeNode the same way.  If only a
    ConditionalBreakNode itself counts as a break, a body led by a
    CodeNode around a break would stay endless, and becomes a while
    loop; if a CodeNode around a break counts as well, a body ended by
    one would become a do-while loop, and stays endless. *)
Lemma refine_loop_code_node_asymmetry :
  (exists loop_node,
     _refine_loop
       (LoopNode "while" None [CodeNode ex_break None; ex_block] (Some 16)) =
       Ok loop_node /\
     shape_of loop_node <>
       Some (specified_shape direct_break [CodeNode ex_break None; ex_block])) /\
  (exists loop_node,
     _refine_loop
       (LoopNode "while" None [ex_block; CodeNode ex_break None] (Some 16)) =
       Ok loop_node /\
     shape_of loop_node <>
       Some (specified_shape break_under_code
               [ex_block; CodeNode ex_break None])).
Proof.
  split; eexists; (split; [reflexivity|]); vm_compute; discriminate.
Qed.

(** The refinement loop on a body of two children. *)
Lemma refine_loop_two_iterations :
  exists peels,
    refine_loop_from 5 0 (LoopNode "while" None [ex_break; ex_block] (Some 16)) =
      Some (peels,
            _refine_loop (LoopNode "while" None [ex_break; ex_block] (Some 16))) /\
    (peels <= 2)%nat.
Proof.
  exact (proj1 (refine_loop_terminates_within_body
                  (LoopNode "while" None [ex_break; ex_block] (Some 16)) 5
                  ltac:(lia))).
Defined.

(** A structurer that owns an empty mapping at location 0. *)
Definition ex_store : @Store TermAlgebra.term := mkStore {[0%nat := []]} 0.

(** Structuring a loop body that translates one condition. *)
Lemma loop_body_on_a_copy :
  exists h',
    perform 0 (StructureLoopBody [Translate ex_cond]) ex_store = Ok h' /\
    mapping_at 0 h' = [] /\
    mapping_at (dict_copy 0 ex_store).1 h' = [(ex_var, ex_cond)].
Proof.
  destruct (perform 0 (StructureLoopBody [Translate ex_cond]) ex_store)
    as [h'|] eqn:Hrun; [|vm_compute in Hrun; discriminate].
  exists h'. split; [reflexivity|].
  destruct (loop_body_structurer_maps_on_a_copy 0 [Translate ex_cond]
              ex_store h'
              ltac:(vm_compute; reflexivity)
              Hrun)
    as (_ & _ & _ & _ & Hsame & _).
  split; [exact Hsame|].
  vm_compute in Hrun. injection Hrun as <-. reflexivity.
Defined.

(** C3 as stated fails: a top-level structurer structures a loop whose
    body translates a register read; the entry made for it is in the
    mapping of the structurer of the body (at location 1) and not in the
    mapping of the enclosing structurer (at location 0).  And a
    temporary of 32 bits translated twice by one structurer gets two
    different variables. *)
Lemma nested_mapping_entry_counterexample :
  (exists h',
     top_level_structurer [StructureLoopBody [Translate ex_cond]] (mkStore ∅ 0)
       = Ok (0%nat, h') /\
     dict_get ex_var (mapping_at 1 h') = Some ex_cond /\
     dict_get ex_var (mapping_at 0 h') = None) /\
  (exists v1 v2 st1 st2,
     _bool_variable_from_ail_condition (Tmp None 5 32) ex_state = Ok (v1, st1) /\
     _bool_variable_from_ail_condition (Tmp None 5 32) st1 = Ok (v2, st2) /\
     v1 <> v2).
Proof.
  split.
  - eexists. split; [vm_compute; reflexivity|]. split; reflexivity.
  - do 4 eexists. split; [reflexivity|]. split; [reflexivity|]. discriminate.
Qed.

(** The edge conditions out of the head of the diamond. *)
Lemma edge_conditions_of_diamond :
  _extract_predicate ex_A ex_B ex_state =
    Ok (ex_var, mkTState [(ex_var, ex_cond)] 0) /\
  _extract_predicate ex_A ex_C ex_state =
    Ok (TermAlgebra.TNot ex_var, mkTState [(ex_var, ex_cond)] 0) /\
  _extract_predicate ex_B ex_D ex_state = Ok (TermAlgebra.TTrue, ex_state).
Proof.
  split; [|split].
  - exact (proj1 (proj2 (proj2 (extract_predicate_by_trailing_statement
                                  ex_B ex_state)))
             ex_A [OtherStmt "t0 = rax"] _ (ends_in_AilBlock _ _)).
  - exact (proj1 (proj2 (proj2 (extract_predicate_by_trailing_statement
                                  ex_C ex_state)))
             ex_A [OtherStmt "t0 = rax"] _ (ends_in_AilBlock _ _)).
  - exact (proj1 (proj2 (proj2 (extract_predicate_by_trailing_statement
                                  ex_D ex_state)))
             ex_B [OtherStmt "rbx = 1"] _ (ends_in_AilBlock _ _)).
Defined.

(** C4 as stated fails on an empty block: the edge out of a block
    without statements has no condition, EmptyBlockNotice is raised. *)
Lemma extract_predicate_empty_block_counterexample :
  _extract_predicate (AilBlock 16 []) ex_D ex_state = Raise EmptyBlockNotice /\
  _extract_predicate (AilBlock 16 []) ex_D ex_state <>
    Ok (claripy.true, ex_state).
Proof. split; [reflexivity|discriminate]. Qed.

(** A loop node that leaves the loop on its false arm: the successor is
    at 96, the true arm goes back to 16. *)
Definition ex_exit_node : @Node TermAlgebra.term :=
  AilBlock 32 [OtherStmt "rbx = 1"; ConditionalJump (Some 7) ex_cond 16 96 36].

Lemma exit_conversion_on_false_arm :
  exit_conversion ex_exit_node [Some 96] [Some 16; Some 32] ex_state =
  Ok (AilBlock 32 [OtherStmt "rbx = 1"],
      Some (ConditionalBreakNode 36 (ClaripyAST (TermAlgebra.TNot ex_var)) 96),
      mkTState [(ex_var, ex_cond)] 0).
Proof.
  destruct (exit_conversion_makes_breaks ex_exit_node [Some 96]
              [Some 16; Some 32] ex_state
              (ConditionalJump (Some 7) ex_cond 16 96 36)
              eq_refl eq_refl eq_refl) as (node' & Hrem & _ & Hconv).
  vm_compute in Hrem. injection Hrem as <-.
  exact Hconv.
Defined.

(** A structured body that ends in the jump back to the head at 16. *)
Definition ex_body : @Node TermAlgebra.term :=
  SequenceNode [ex_block; AilBlock 48 [OtherStmt "rcx = 2"; Jump (Some 9) 16 52]].

Lemma finish_loop_body_drops_back_jump :
  finish_loop_body ex_body (Some 16) =
    Ok (SequenceNode [ex_block; AilBlock 48 [OtherStmt "rcx = 2"]]) /\
  finish_loop_body ex_body (Some 32) = Raise Exception_.
Proof.
  destruct (finish_loop_body_trailing_jump ex_body (Some 16) (Some 9) 16 52
              eq_refl) as [_ Hback].
  destruct (finish_loop_body_trailing_jump ex_body (Some 32) (Some 9) 16 52
              eq_refl) as [Hother _].
  split.
  - destruct (Hback eq_refl) as [_ Hreturns].
    destruct (Hreturns eq_refl (ex_intro _ _ eq_refl)) as [body Hbody].
    rewrite Hbody. vm_compute in Hbody. injection Hbody as <-. reflexivity.
  - apply Hother. discriminate.
Defined.

(** C8 on a run of three breaks on the variables x, y and z: the merged
    break is on z || y, and the condition x of the first break is
    lost. *)
Theorem merge_conditional_breaks_drops_first_of_three :
  let x := TermAlgebra.TBoolS "x" in
  let y := TermAlgebra.TBoolS "y" in
  let z := TermAlgebra.TBoolS "z" in
  _merge_conditional_breaks
    (SequenceNode [ConditionalBreakNode 16 (ClaripyAST x) 96;
                   ConditionalBreakNode 20 (ClaripyAST y) 96;
                   ConditionalBreakNode 24 (ClaripyAST z) 96]) =
  Ok (SequenceNode
        [ConditionalBreakNode 24 (ClaripyAST (TermAlgebra.TOr z y)) 96]).
Proof. exact (merge_three_breaks 16 20 24 96 96 96 _ _ _). Qed.

(** C2 on the loop of a region whose only block jumps to itself: the
    structured body is the block, the end of the loop-body construction
    removes the jump and drops the block that is left empty, and the
    refinement of the endless loop around the empty body raises
    IndexError instead of returning the loop. *)
Theorem refine_loop_raises_on_empty_body :
  finish_loop_body (AST := TermAlgebra.term)
    (SequenceNode [AilBlock 16 [Jump (Some 9) 16 20]]) (Some 16)
    = Ok (SequenceNode []) /\
  _refine_loop_while (AST := TermAlgebra.term)
    (LoopNode "while" None [] (Some 16)) = Raise IndexError /\
  _refine_loop (AST := TermAlgebra.term)
    (LoopNode "while" None [] (Some 16)) = Raise IndexError.
Proof. repeat split. Qed.

(** A loop H -> A -> B -> H with the exits H -> S1, A -> S2 and B -> X,
    where S1 -> X, X -> S1 and X -> S2 outside the loop. *)
Definition ex_branch (i : Z) (true_target false_target : Z) : @Stmt TermAlgebra.term :=
  ConditionalJump (Some i) (Register (Some i) (8 * i) 1)
                  true_target false_target (100 + i).

Definition ex_loop_nodes (i : nat) : @Node TermAlgebra.term :=
  match i with
  | 0%nat => AilBlock 16 [ex_branch 1 32 64]
  | 1%nat => AilBlock 32 [ex_branch 2 48 80]
  | 2%nat => AilBlock 48 [ex_branch 3 16 96]
  | 3%nat => AilBlock 64 [Jump (Some 5) 96 68]
  | 4%nat => AilBlock 80 [OtherStmt "return"]
  | _ => AilBlock 96 [ex_branch 4 64 80]
  end.

Definition ex_loop_region : @CyclicRegion TermAlgebra.term :=
  mkCyclicRegion 0
    (mkDiGraph [0; 1; 2; 3; 4; 5]
       [(0, 1); (0, 3); (1, 2); (1, 4); (2, 0); (2, 5); (3, 5); (5, 3); (5, 4)])%nat
    ex_loop_nodes 100 (Some []).

(** C7 on that region: the loop nodes are H, A and B, and the successors
    are S1 and S2 (the search reaches X from S1, which is not a loop
    node, so X is not counted).  The refinement, in whichever order it
    takes the two successors, sends the edges into S1 and S2 to the new
    ConditionNode (identity 6).  The second
    identification finds two successors, the new node and X, which the
    search now reaches from B; the assertion fails. *)
Theorem analyze_cyclic_two_successors_after_refinement :
  _find_loop_nodes_and_successors ex_loop_region =
    Some (Ok ([0; 1; 2], [3; 4]))%nat /\
  (forall successors, successors = [3; 4]%nat \/ successors = [4; 3]%nat ->
     match _refine_loop_successors ex_loop_region g_nodes successors ex_state with
     | Ok (c', _) => _find_loop_nodes_and_successors c'
     | Raise e => Some (Raise e)
     end = Some (Ok ([0; 1; 2], [6; 5]))%nat) /\
  analyze_cyclic_until_loop_body ex_loop_region g_nodes ex_state =
    Some (Raise AssertionError).
Proof.
  split; [|split]; try (vm_compute; reflexivity).
  intros successors [->| ->]; vm_compute; reflexivity.
Qed.

(** * Further runs *)


Lemma appended_statement_of_a_body :
  let stripped : @Node TermAlgebra.term :=
    SequenceNode [ex_block; AilBlock 48 [OtherStmt "rcx = 2"]] in
  _get_last_statement ex_body = Ok (Some (Jump (Some 9) 16 52)) /\
  _remove_last_statement ex_body = Ok (stripped, Some (Jump (Some 9) 16 52)) /\
  statements_of ex_body = statements_of stripped ++ [Jump (Some 9) 16 52].
Proof.
  exact (append_statement_then_remove
           (SequenceNode [ex_block; AilBlock 48 [OtherStmt "rcx = 2"]])
           ex_body (Jump (Some 9) 16 52) eq_refl).
Defined.

Lemma removed_statement_appended_again :
  _append_statement
    (SequenceNode [ex_block; AilBlock 48 [OtherStmt "rcx = 2"]])
    (Jump (Some 9) 16 52) = Ok ex_body.
Proof.
  exact (remove_statement_then_append ex_body
           (SequenceNode [ex_block; AilBlock 48 [OtherStmt "rcx = 2"]])
           (Jump (Some 9) 16 52) eq_refl).
Defined.

(** A MultiNode of a block with a statement and two empty blocks. *)
Definition ex_multi_tail : list (@Node TermAlgebra.term) := [AilBlock 40 []].

Lemma multinode_with_empty_blocks :
  _get_last_statement (MultiNode 32 ([ex_block] ++ AilBlock 36 [] :: ex_multi_tail))
    = Ok (Some (OtherStmt "rbx = 1")) /\
  _get_last_statement (MultiNode 32 ([ex_block] ++ AilBlock 36 [] :: ex_multi_tail))
    <> Raise EmptyBlockNotice.
Proof.
  exact (multinode_scan_skips_empty_blocks 32 [ex_block] ex_multi_tail
           (AilBlock 36 []) ltac:(repeat constructor)).
Defined.

Lemma multinode_with_trailing_empty_block :
  _get_last_statement (MultiNode 32 ([ex_block] ++ [AilBlock 36 []])) =
    Ok (Some (OtherStmt "rbx = 1")) /\
  _remove_last_statement (MultiNode 32 ([ex_block] ++ [AilBlock 36 []])) =
    Raise IndexError.
Proof.
  exact (multinode_trailing_empty_block 32 36 [ex_block] (OtherStmt "rbx = 1")
           eq_refl).
Defined.

(** The while loop made from a leading break is refined no further. *)
Lemma refined_loop_is_stable :
  _refine_loop
    (LoopNode "while" (Some (UnaryOp (Some 0) "Not" ex_cond)) [ex_block] (Some 16))
  = Ok (LoopNode "while" (Some (UnaryOp (Some 0) "Not" ex_cond)) [ex_block]
          (Some 16)).
Proof.
  exact (refine_loop_idempotent
           (LoopNode "while" None [ex_break; ex_block] (Some 16))
           (LoopNode "while" (Some (UnaryOp (Some 0) "Not" ex_cond)) [ex_block]
              (Some 16))
           eq_refl).
Defined.





(** Three breaks in a row leave one. *)
Lemma merged_breaks_are_not_adjacent :
  let x := TermAlgebra.TBoolS "x" in
  let y := TermAlgebra.TBoolS "y" in
  let z := TermAlgebra.TBoolS "z" in
  let merged : list (@Node TermAlgebra.term) :=
    [ex_block; ConditionalBreakNode 24 (ClaripyAST (TermAlgebra.TOr z y)) 96] in
  no_adjacent_breaks merged = Datatypes.true /\
  (length merged <= 4)%nat.
Proof.
  exact (merge_conditional_breaks_no_adjacent_breaks
           [ex_block;
            ConditionalBreakNode 16 (ClaripyAST (TermAlgebra.TBoolS "x")) 96;
            CodeNode (ConditionalBreakNode 20 (ClaripyAST (TermAlgebra.TBoolS "y")) 96)
                     None;
            ConditionalBreakNode 24 (ClaripyAST (TermAlgebra.TBoolS "z")) 96]
           [ex_block;
            ConditionalBreakNode 24
              (ClaripyAST (TermAlgebra.TOr (TermAlgebra.TBoolS "z")
                             (TermAlgebra.TBoolS "y"))) 96]
           eq_refl).
Defined.

(** Translating the register read records its variable. *)
Lemma translation_of_a_register_read :
  (forall k, is_Some (dict_get k (mapping ex_state)) ->
             is_Some (dict_get k [(ex_var, ex_cond)])) /\
  (0 <= 0)%nat /\
  dict_get ex_var [(ex_var, ex_cond)] = Some ex_cond.
Proof.
  exact (translation_only_adds_to_mapping ex_cond ex_state
           (mkTState [(ex_var, ex_cond)] 0) ex_var eq_refl).
Defined.

(** The diamond visited with the join before its predecessors: both
    predecessors count as always reached. *)
Lemma reaching_condition_of_join_visited_early :
  exists conds st',
    _recover_reaching_conditions ex_diamond [0; 3; 1; 2]%nat ex_state =
      Ok (conds, st') /\
    _reaching_conditions conds !! 3%nat = Some TermAlgebra.TTrue /\
    _reaching_conditions conds !! 7%nat = None.
Proof.
  destruct (_recover_reaching_conditions ex_diamond [0; 3; 1; 2]%nat ex_state)
    as [[conds st']|] eqn:Hrun; [|vm_compute in Hrun; discriminate].
  exists conds, st'. split; [reflexivity|].
  destruct (reaching_condition_in_any_order ex_diamond [0; 3; 1; 2]%nat
              [0%nat] [1; 2]%nat 3%nat ex_state st' conds
              ltac:(repeat constructor; set_solver) eq_refl
              ltac:(discriminate) Hrun) as [Hjoin Hout].
  split; [|apply Hout; set_solver].
  rewrite Hjoin. vm_compute in Hrun. injection Hrun as <- <-.
  vm_compute. reflexivity.
Defined.

(** A loop H -> B -> H with the exit H -> S, where S is also entered
    from a node E outside the loop. *)
Definition ex_small_nodes (i : nat) : @Node TermAlgebra.term :=
  match i with
  | 0%nat => AilBlock 16 [OtherStmt "i = i + 1";
                          ConditionalJump (Some 7) ex_cond 32 64 20]
  | 1%nat => AilBlock 32 [Jump (Some 8) 16 36]
  | 2%nat => AilBlock 64 [OtherStmt "return"]
  | _ => AilBlock 80 [Jump (Some 9) 64 84]
  end.

Definition ex_small_loop : @CyclicRegion TermAlgebra.term :=
  mkCyclicRegion 0 (mkDiGraph [0; 1; 2; 3] [(0, 1); (0, 2); (1, 0); (3, 2)])%nat
    ex_small_nodes 100 (Some []).

Lemma loop_nodes_of_the_small_loop :
  c_head ex_small_loop ∈ [0; 1]%nat /\
  (forall s, s ∈ [2%nat] -> s ∉ [0; 1]%nat) /\
  NoDup [2%nat] /\
  (forall n s, n ∈ [0; 1]%nat -> s ∈ successors (c_graph ex_small_loop) n ->
     s ∉ [0; 1]%nat ->
     exists p, p ∈ predecessors (c_graph ex_small_loop) s /\ p ∉ [0; 1]%nat).
Proof.
  exact (loop_nodes_and_successors_invariants ex_small_loop [0; 1]%nat [2%nat]
           ltac:(vm_compute; reflexivity)).
Defined.

(** The exits of the larger loop, redirected. *)
Lemma exits_of_the_loop_redirected :
  exists c' st',
    _refine_loop_successors ex_loop_region g_nodes [3; 4]%nat ex_state =
      Ok (c', st') /\
    predecessors (c_graph c') 3%nat = [] /\
    predecessors (c_graph c') 4%nat = [] /\
    (0%nat, 6%nat) ∈ g_edges (c_graph c').
Proof.
  destruct (_refine_loop_successors ex_loop_region g_nodes [3; 4]%nat ex_state)
    as [[c' st']|] eqn:Hrun; [|vm_compute in Hrun; discriminate].
  exists c', st'. split; [reflexivity|].
  destruct (refine_loop_successors_redirects_exits ex_loop_region c' g_nodes
              [3; 4]%nat ex_state st' ltac:(repeat constructor) Hrun)
    as (_ & _ & Hedges & Hnone & _).
  clear Hrun.
  split; [apply Hnone; repeat constructor|].
  split; [apply Hnone; repeat constructor|].
  apply Hedges. right. exists 0%nat, 3%nat.
  split; [vm_compute; repeat constructor|].
  split; [repeat constructor|reflexivity].
Defined.

(** The graph of the body of the small loop. *)
Lemma loop_body_graph_of_the_small_loop :
  exists s',
    loop_body_region_graph 4 ex_small_loop [2%nat] ex_state = Some (Ok s') /\
    lb_graph s' = mkDiGraph [0; 4; 1]%nat [(0, 4); (4, 1)]%nat /\
    (forall e, e ∈ g_edges (lb_graph s') ->
       e.2 <> 0%nat /\ (e.1 ∉ [2%nat]) /\ (e.2 ∉ [2%nat])) /\
    lb_queue s' = [].
Proof.
  destruct (loop_body_region_graph 4 ex_small_loop [2%nat] ex_state)
    as [[s'|]|] eqn:Hrun; try (vm_compute in Hrun; discriminate).
  exists s'. split; [reflexivity|].
  destruct (loop_body_region_graph_cuts_the_cycle 4 ex_small_loop [2%nat]
              ex_state s' ltac:(vm_compute; set_solver) Hrun)
    as (Hedges & _ & Hqueue).
  split; [|split; [exact Hedges|exact Hqueue]].
  vm_compute in Hrun. injection Hrun as <-. reflexivity.
Defined.

Lemma loop_body_traversal_of_the_small_loop :
  exists r,
    (forall fuel, (4 <= fuel)%nat ->
       loop_body_region_graph fuel ex_small_loop [2%nat] ex_state = Some r) /\
    forall s', r = Ok s' ->
      NoDup (lb_traversed s') /\
      (forall n, n ∈ lb_traversed s' -> n ∈ [0; 1; 2; 3]%nat) /\
      (length (lb_traversed s') <= 4)%nat /\
      lb_queue s' = [].
Proof.
  exact (loop_body_traversal_terminates ex_small_loop [2%nat] ex_state
           ltac:(vm_compute; set_solver)
           ltac:(intros e He; vm_compute in He;
                 repeat (apply elem_of_cons in He as [->|He]);
                 [vm_compute; set_solver..|inversion He])).
Defined.

(** The small loop, from the identification of its nodes to its body. *)
Lemma small_loop_enters_loop_body :
  (length [2%nat] <= 1)%nat /\
  _find_loop_nodes_and_successors ex_small_loop = Some (Ok ([0; 1], [2]))%nat /\
  forall fuel st0 s',
    loop_body_region_graph fuel ex_small_loop [2%nat] st0 = Some (Ok s') ->
    forall e, e ∈ g_edges (lb_graph s') ->
      e.2 <> 0%nat /\ (e.1 ∉ [2%nat]) /\ (e.2 ∉ [2%nat]).
Proof.
  destruct (analyze_cyclic_enters_loop_body ex_small_loop ex_small_loop g_nodes
              ex_state ex_state [0; 1]%nat [2%nat]
              ltac:(vm_compute; reflexivity))
    as (Hlen & _ & Hfound & _ & _ & Hbody).
  split; [exact Hlen|]. split; [exact Hfound|exact Hbody].
Defined.




(** The truth value of a term when the variable x is true and every
    other variable is false. *)
Fixpoint ex_eval (t : TermAlgebra.term) : bool :=
  match t with
  | TermAlgebra.TTrue => Datatypes.true
  | TermAlgebra.TBoolS n => String.eqb n "x"
  | TermAlgebra.TNot a => negb (ex_eval a)
  | TermAlgebra.TAnd a b => ex_eval a && ex_eval b
  | TermAlgebra.TOr a b => ex_eval a || ex_eval b
  | _ => false
  end.

Lemma ex_eval_simplify (t : TermAlgebra.term) :
  ex_eval (TermAlgebra.simplify t) = ex_eval t.
Proof.
  induction t; simpl; try reflexivity.
  - rewrite <- IHt. destruct (TermAlgebra.simplify t); reflexivity.
  - rewrite <- IHt1, <- IHt2.
    destruct (TermAlgebra.simplify t1), (TermAlgebra.simplify t2); simpl;
      rewrite ?andb_true_r, ?andb_false_r; reflexivity.
  - rewrite <- IHt1, <- IHt2.
    destruct (TermAlgebra.simplify t1), (TermAlgebra.simplify t2); simpl;
      rewrite ?orb_true_r, ?orb_false_r; reflexivity.
Qed.

Lemma ex_eval_Or_star (rest : list TermAlgebra.term) :
  forall a, ex_eval (foldl TermAlgebra.TOr a rest) =
            ex_eval a || existsb ex_eval rest.
Proof.
  induction rest as [|r rest IH]; intros a; simpl.
  - rewrite orb_false_r. reflexivity.
  - rewrite IH. simpl. rewrite orb_assoc. reflexivity.
Qed.

(** The short-circuit condition !x || (x && !y): the rewrite gives
    !(!!x && !!y), which is true when the condition is. *)
Lemma short_circuit_condition_keeps_its_meaning :
  let x := TermAlgebra.TBoolS "x" in
  let y := TermAlgebra.TBoolS "y" in
  let cond := TermAlgebra.TOr (TermAlgebra.TNot x)
                (TermAlgebra.TAnd x (TermAlgebra.TNot y)) in
  _simplify_condition cond =
    TermAlgebra.TNot (TermAlgebra.TAnd (TermAlgebra.TNot (TermAlgebra.TNot x))
                        (TermAlgebra.TNot (TermAlgebra.TNot y))) /\
  ex_eval (_simplify_condition cond) = ex_eval cond /\
  ex_eval (_revert_short_circuit_conditions cond) = ex_eval cond.
Proof.
  intros x y cond. split; [reflexivity|].
  apply (simplify_condition_keeps_the_meaning (CA := TermAlgebra.algebra)
           ex_eval cond).
  - reflexivity.
  - reflexivity.
  - intros a rest. apply ex_eval_Or_star.
  - intros t a b rest. destruct t; try discriminate.
    intros [= <- <- <-]. simpl. rewrite orb_false_r. reflexivity.
  - intros t a b. destruct t; try discriminate.
    intros [= <- <-]. reflexivity.
  - intros a b. unfold claripy.eq_satisfiable. simpl.
    unfold TermAlgebra.eq_satisfiable. intros Hsat.
    apply negb_false_iff, orb_true_iff in Hsat as [Heq|Heq];
      apply bool_decide_eq_true in Heq; subst; simpl;
      rewrite ?negb_involutive; reflexivity.
  - apply ex_eval_simplify.
  - intros a b rest Hview arg p q more Harg Hand.
    destruct arg; try discriminate. injection Hand as <- <- <-. reflexivity.
Defined.


(** * The loop of one block *)

(** The region of the loop [while (c);]: its only block H, at 16, ends
    in a conditional jump whose true arm goes back to H and whose false
    arm leaves for S, at 32.  S is a node of the enclosing graph, where
    it follows the region. *)
Definition ex_spin_nodes (i : nat) : @Node TermAlgebra.term :=
  match i with
  | 0%nat => AilBlock 16 [ConditionalJump (Some 7) ex_cond 16 32 20]
  | 1%nat => AilBlock 32 [OtherStmt "return"]
  | _ => GraphRegion 16
  end.

Definition ex_spin_loop : @CyclicRegion TermAlgebra.term :=
  mkCyclicRegion 0 (mkDiGraph [0%nat] [(0, 0)%nat]) ex_spin_nodes 100
    (Some [(200%nat, mkDiGraph [100; 1]%nat [(100, 1)%nat])]).

(** C5 on that loop: the loop nodes are H alone and the single successor
    is S.  The exit of H is converted: the jump is removed from H, which
    is left empty, and a ConditionalBreakNode on the negated condition
    with the target 32 is made.  The empty block is taken out of the
    graph of the loop body and the break is to take its place, but it is
    only linked to the predecessors of H in that graph, and H, the first
    node visited, has none; the edge back to the head is not added.  The
    traversal ends after one iteration with a graph that has no node at
    all: the break made for the exit is not in the loop body. *)
Theorem loop_body_loses_the_break_of_a_one_block_loop :
  analyze_cyclic_until_loop_body ex_spin_loop g_nodes ex_state =
    Some (Ok (ex_spin_loop, [0%nat], [1%nat], ex_state)) /\
  exit_conversion (ex_spin_nodes 0) [Some 32] [Some 16] ex_state =
    Ok (AilBlock 16 [],
        Some (ConditionalBreakNode 20 (ClaripyAST (TermAlgebra.TNot ex_var)) 32),
        mkTState [(ex_var, ex_cond)] 0) /\
  forall fuel, (1 <= fuel)%nat ->
    exists s',
      loop_body_region_graph fuel ex_spin_loop [1%nat] ex_state = Some (Ok s') /\
      lb_traversed s' = [0%nat] /\
      lb_queue s' = [] /\
      lb_node_at s' 2%nat =
        ConditionalBreakNode 20 (ClaripyAST (TermAlgebra.TNot ex_var)) 32 /\
      lb_graph s' = mkDiGraph [] [].
Proof.
  split; [vm_compute; reflexivity|]. split; [vm_compute; reflexivity|].
  intros fuel Hfuel.
  destruct (loop_body_region_graph 1 ex_spin_loop [1%nat] ex_state)
    as [[s'|]|] eqn:Hrun; try (vm_compute in Hrun; discriminate).
  exists s'. split.
  - unfold loop_body_region_graph in *.
    eapply loop_body_traversal_more_fuel; [exact Hrun|exact Hfuel].
  - vm_compute in Hrun. injection Hrun as <-. repeat split; reflexivity.
Qed.
